(** * Bloom: the kernel guardian and the semantics lint

    A shallow embedding of
    - [skills/bloom-kernel-guardian/scripts/guardian.py] and
    - [skills/bloom-semantics/scripts/semantics_lint.py],
    together with the properties of the two scripts.

    Conventions of the embedding.
    - A Python [str] is a [string]; its characters are the code points
      below 256 (Latin-1), which is what the type [ascii] holds.  The
      character tables below ([isspace], [isword], [lower_char], the line
      boundaries of [splitlines]) are Python's, restricted to that range.
    - Offsets and lengths are [nat]; [int(time.time())] is a [Z].
    - The file system, the clock and the SQLite engine are parameters of a
      run (record [World]); every call that reaches them is appended to the
      trace of the run, and so is every printed line.
    - [SystemExit] and uncaught exceptions are outcomes of the run monad. *)

From Stdlib Require Import String Ascii List Arith ZArith Lia Bool.
From Stdlib Require Import DecimalString Sorted Permutation.
From Stdlib Require Import DecimalZ DecimalPos.
Import ListNotations.
Local Open Scope list_scope.
Local Open Scope string_scope.
Local Open Scope nat_scope.
#[local] Set Warnings "-register-all".

(* ================================================================== *)
(** * Python string primitives *)
(* ================================================================== *)

Module Py.

Definition code (c : ascii) : nat := nat_of_ascii c.

Definition between (lo hi : nat) (c : ascii) : bool :=
  (lo <=? code c) && (code c <=? hi).

(** [str.isspace] on one character, also the class [\s] of [re]:
    TAB..CR, FS..US, SPACE, NEL, NBSP. *)
Definition isspace (c : ascii) : bool :=
  between 9 13 c || between 28 32 c || (code c =? 133) || (code c =? 160).

(** The class [\w] of [re] on [str] patterns: alphanumeric or underscore. *)
Definition isword (c : ascii) : bool :=
  between 48 57 c || between 65 90 c || between 97 122 c || (code c =? 95)
  || (code c =? 170) || (code c =? 178) || (code c =? 179) || (code c =? 181)
  || (code c =? 185) || (code c =? 186) || between 188 190 c
  || between 192 214 c || between 216 246 c || between 248 255 c.

(** The line boundaries of [str.splitlines]: LF, VT, FF, CR, FS, GS, RS, NEL
    (CR LF is handled in [splitlines]). *)
Definition islinebreak (c : ascii) : bool :=
  between 10 13 c || between 28 30 c || (code c =? 133).

(** [str.lower] on one character: A-Z, and the Latin-1 capitals
    (0xC0-0xDE without the multiplication sign 0xD7). *)
Definition lower_char (c : ascii) : ascii :=
  if between 65 90 c || (between 192 222 c && negb (code c =? 215))
  then ascii_of_nat (code c + 32)
  else c.

(** [s.lower()] *)
Fixpoint lower (s : string) : string :=
  match s with
  | EmptyString => EmptyString
  | String c s' => String (lower_char c) (lower s')
  end.

(** [s.startswith(p)] *)
Fixpoint startswith (p s : string) : bool :=
  match p, s with
  | EmptyString, _ => true
  | String a p', String b s' => Ascii.eqb a b && startswith p' s'
  | String _ _, EmptyString => false
  end.

(** [s.endswith(p)] *)
Definition endswith (p s : string) : bool :=
  (String.length p <=? String.length s) &&
  String.eqb (substring (String.length s - String.length p) (String.length p) s) p.

(** [sub in s] *)
Fixpoint contains (sub s : string) : bool :=
  startswith sub s ||
  match s with
  | EmptyString => false
  | String _ s' => contains sub s'
  end.

(** [s[start:stop]] for [0 <= start] and [0 <= stop]; a [stop] beyond the
    end, or before [start], is clamped by [substring] as Python does. *)
Definition slice (s : string) (start stop : nat) : string :=
  substring start (stop - start) s.

(** [sep.join(l)] *)
Fixpoint join (sep : string) (l : list string) : string :=
  match l with
  | [] => ""
  | [x] => x
  | x :: l' => x ++ sep ++ join sep l'
  end.

(** [s.lstrip()], [s.rstrip()], [s.strip()] *)
Fixpoint lstrip (s : string) : string :=
  match s with
  | String c s' => if isspace c then lstrip s' else s
  | EmptyString => EmptyString
  end.

Fixpoint rstrip (s : string) : string :=
  match s with
  | EmptyString => EmptyString
  | String c s' =>
      match rstrip s' with
      | EmptyString => if isspace c then EmptyString else String c EmptyString
      | t => String c t
      end
  end.

Definition strip (s : string) : string := rstrip (lstrip s).

(** [s.split()]: the maximal runs of characters that are not whitespace.
    [cur] is the run being read, reversed. *)
Definition rev_string (l : list ascii) : string :=
  string_of_list_ascii (List.rev l).

Definition flush (cur : list ascii) : list string :=
  match cur with
  | [] => []
  | _ => [rev_string cur]
  end.

Fixpoint split_from (cur : list ascii) (s : string) : list string :=
  match s with
  | EmptyString => flush cur
  | String c s' =>
      if isspace c then (flush cur ++ split_from [] s')%list
      else split_from (c :: cur) s'
  end.

Definition split (s : string) : list string := split_from [] s.

(** [s.splitlines()]: lines without their terminators, CR LF counting as
    one terminator, and no empty last line after a final terminator.
    [cur] is the line being read, reversed; [after_cr] says that the
    character before was a CR that ended a line. *)
Fixpoint splitlines_from (cur : list ascii) (after_cr : bool) (s : string)
  : list string :=
  match s with
  | EmptyString => flush cur
  | String c s' =>
      if after_cr && (code c =? 10) then splitlines_from [] false s'
      else if islinebreak c
           then rev_string cur :: splitlines_from [] (code c =? 13) s'
           else splitlines_from (c :: cur) false s'
  end.

Definition splitlines (s : string) : list string :=
  splitlines_from [] false s.

(** [str(n)] and the [{n}] of an f-string, for an [int] and for an offset. *)
Definition str_of_Z (z : Z) : string := NilZero.string_of_int (Z.to_int z).
Definition str_of_nat (n : nat) : string := NilZero.string_of_uint (Nat.to_uint n).

End Py.

(* ================================================================== *)
(** * The part of Python's [re] that the two scripts use *)
(* ================================================================== *)

Module Re.
Import Py.

(** Patterns.  [Lit] is one literal character, [Cls] a character set
    [[...]] or [[^...]], [Dot] is [.], [Space] is [\s], [WordB] is [\b],
    [Star] is the greedy [*], [Grp i] the [i]-th capturing group; a group
    [(?:...)] that does not capture is the pattern inside it. *)
Inductive regex : Type :=
| Eps
| Lit (c : ascii)
| Cls (neg : bool) (cs : list ascii)
| Dot
| Space
| WordB
| Cat (r1 r2 : regex)
| Alt (r1 r2 : regex)
| Star (r : regex)
| Grp (i : nat) (r : regex).

(** The greedy [r+]. *)
Definition Plus (r : regex) : regex := Cat r (Star r).

(** A run of literal characters: a word made of letters and underscores
    put into a pattern as it is, or any word after [re.escape]. *)
Fixpoint lits (s : string) : regex :=
  match s with
  | EmptyString => Eps
  | String c s' => Cat (Lit c) (lits s')
  end.

(** [r1 r2 ... rn] *)
Fixpoint cats (l : list regex) : regex :=
  match l with
  | [] => Eps
  | r :: l' => Cat r (cats l')
  end.

(** A position in the subject: the character before it, the text from it
    on, and its offset. *)
Record cursor : Type := Cursor
  { prev : option ascii; rest : string; pos : nat }.

Definition advance (x : ascii) (s' : string) (c : cursor) : cursor :=
  {| prev := Some x; rest := s'; pos := S (pos c) |}.

Definition groups : Type := list (nat * string).

Definition is_word_opt (o : option ascii) : bool :=
  match o with
  | Some x => isword x
  | None => false
  end.

Definition next_char (c : cursor) : option ascii :=
  match rest c with
  | String x _ => Some x
  | EmptyString => None
  end.

(** [\b]: exactly one side of the position is a word character. *)
Definition at_boundary (c : cursor) : bool :=
  xorb (is_word_opt (prev c)) (is_word_opt (next_char c)).

Section Engine.

(** [re.IGNORECASE] *)
Variable ic : bool.

Definition char_eq (p x : ascii) : bool :=
  if ic then Ascii.eqb (lower_char p) (lower_char x) else Ascii.eqb p x.

(** One character that satisfies [ok]. *)
Definition one {A : Type} (ok : ascii -> bool) (c : cursor) (g : groups)
  (k : cursor -> groups -> option A) : option A :=
  match rest c with
  | String x s' => if ok x then k (advance x s' c) g else None
  | EmptyString => None
  end.

(** The backtracking matcher, in continuation-passing style: [run r c g k]
    matches [r] at [c] and hands the position after the match to [k]; when
    [k] fails, the next way of matching [r] is tried, in the order of
    [re]: the left alternative first, the longest repetition first.  An
    iteration of [Star] that consumes nothing is refused. *)
Fixpoint run {A : Type} (r : regex) (c : cursor) (g : groups)
  (k : cursor -> groups -> option A) {struct r} : option A :=
  match r with
  | Eps => k c g
  | Lit p => one (char_eq p) c g k
  | Cls neg cs => one (fun x => xorb neg (existsb (fun p => char_eq p x) cs)) c g k
  | Dot => one (fun x => negb (code x =? 10)) c g k
  | Space => one isspace c g k
  | WordB => if at_boundary c then k c g else None
  | Cat r1 r2 => run r1 c g (fun c' g' => run r2 c' g' k)
  | Alt r1 r2 =>
      match run r1 c g k with
      | Some a => Some a
      | None => run r2 c g k
      end
  | Star r' =>
      (fix loop (fuel : nat) (c : cursor) (g : groups) {struct fuel} : option A :=
         match fuel with
         | 0 => k c g
         | S fuel' =>
             match run r' c g (fun c' g' =>
                     if pos c' =? pos c then None else loop fuel' c' g') with
             | Some a => Some a
             | None => k c g
             end
         end) (S (String.length (rest c))) c g
  | Grp i r' =>
      run r' c g (fun c' g' =>
        k c' ((i, substring 0 (pos c' - pos c) (rest c)) :: g'))
  end.

(** The first match of [r] that starts at [c]. *)
Definition match_at (r : regex) (c : cursor) : option (cursor * groups) :=
  run r c [] (fun c' g' => Some (c', g')).

(** A match object: [m.start()], [m.end()], [m.group(0)] and the groups
    that took part in the match. *)
Record rmatch : Type := RMatch
  { m_start : nat; m_end : nat; m_group0 : string; m_groups : groups }.

(** [pattern.finditer(text)]: the matches from left to right, none
    overlapping another.  [skip] counts the characters still covered by the
    match found last.  (No pattern of the two scripts matches the empty
    string.) *)
Fixpoint scan (r : regex) (pv : option ascii) (s : string) (p skip : nat)
  : list rmatch :=
  let here :=
    match skip with
    | 0 => match_at r {| prev := pv; rest := s; pos := p |}
    | S _ => None
    end in
  match here with
  | Some (c', g) =>
      {| m_start := p; m_end := pos c';
         m_group0 := substring 0 (pos c' - p) s; m_groups := g |} ::
      match s with
      | String x s' => scan r (Some x) s' (S p) (pos c' - p - 1)
      | EmptyString => []
      end
  | None =>
      match s with
      | String x s' => scan r (Some x) s' (S p) (skip - 1)
      | EmptyString => []
      end
  end.

Definition finditer (r : regex) (text : string) : list rmatch :=
  scan r None text 0 0.

(** [pattern.search(text)] *)
Definition search (r : regex) (text : string) : option rmatch :=
  hd_error (finditer r text).

(** [re.sub(pattern, repl, text)] for a replacement without group
    references. *)
Fixpoint sub_from (r : regex) (repl : string) (pv : option ascii) (s : string)
  (skip : nat) : string :=
  match skip with
  | S skip' =>
      match s with
      | String x s' => sub_from r repl (Some x) s' skip'
      | EmptyString => EmptyString
      end
  | 0 =>
      match match_at r {| prev := pv; rest := s; pos := 0 |} with
      | Some (c', _) =>
          repl ++
          match s with
          | String x s' => sub_from r repl (Some x) s' (pos c' - 1)
          | EmptyString => EmptyString
          end
      | None =>
          match s with
          | String x s' => String x (sub_from r repl (Some x) s' 0)
          | EmptyString => EmptyString
          end
      end
  end.

Definition sub (r : regex) (repl text : string) : string :=
  sub_from r repl None text 0.

End Engine.

(** [m.groups()] of a pattern with [n] groups: [None] for a group that took
    no part in the match. *)
Fixpoint group (i : nat) (g : groups) : option string :=
  match g with
  | [] => None
  | (j, s) :: g' => if i =? j then Some s else group i g'
  end.

Definition groups_tuple (n : nat) (m : rmatch) : list (option string) :=
  map (fun i => group i (m_groups m)) (seq 1 n).

End Re.

(* ================================================================== *)
(** * Runs: the world, the trace, exits and exceptions *)
(* ================================================================== *)

Module Run.

(** A value bound to, or read from, a column. *)
Inductive value : Type :=
| VNull
| VInt (z : Z)
| VText (s : string).

Definition row : Type := list value.

(** Exceptions, by what the scripts tell apart: [sqlite3.DatabaseError]
    (with its subclasses) and every other exception. *)
Inductive exn : Type :=
| DatabaseError (msg : string)
| OtherError (msg : string).

(** [str(exc)] *)
Definition exn_message (e : exn) : string :=
  match e with
  | DatabaseError m => m
  | OtherError m => m
  end.

Inductive result (A : Type) : Type :=
| Ok (a : A)
| Raised (e : exn).
Arguments Ok {A} a.
Arguments Raised {A} e.

(** The SQLite engine behind [sqlite3]: a connection is a state of the
    database, and a statement steps it. *)
Record Sqlite : Type := MkSqlite
  { conn : Type;
    connect : conn;
    execute : conn -> string -> list value -> conn * result (list row);
    executescript : conn -> string -> conn * result unit }.

(** What a run finds around it: the root of the repository, its
    directories (the names in each) and text files, the clock, and the
    engine. *)
Record World : Type := MkWorld
  { repo_root : string;
    dirs : string -> option (list string);
    files : string -> option string;
    now : Z;
    db : Sqlite }.

(** Every call that leaves the script, in order. *)
Inductive action : Type :=
| PrintLine (line : string)
| PathExists (p : string)
| Glob (pattern : string)
| OpenRead (p : string)
| ReadText (p : string)
| Connect
| Execute (sql : string) (params : list value)
| ExecuteScript (sql : string)
| Commit
| Rollback
| Clock.

(** The argument of [SystemExit]: a message (written to the error stream,
    exit status 1) or a status. *)
Inductive exit_arg : Type :=
| Message (s : string)
| Status (n : Z).

(** How a call ends: it returns, it raises [SystemExit], or it raises an
    exception that nothing catches. *)
Inductive outcome (A : Type) : Type :=
| Return (a : A)
| Exit (arg : exit_arg)
| Raise (e : exn).
Arguments Return {A} a.
Arguments Exit {A} arg.
Arguments Raise {A} e.

(** The exit status of the process. *)
Definition exit_code {A : Type} (o : outcome A) : Z :=
  match o with
  | Return _ => 0
  | Exit (Message _) => 1
  | Exit (Status n) => n
  | Raise _ => 1
  end%Z.

(** [pathlib]'s [/] *)
Definition path_join (a b : string) : string := a ++ "/" ++ b.

(** The lines printed, in order. *)
Fixpoint stdout (t : list action) : list string :=
  match t with
  | [] => []
  | PrintLine l :: t' => l :: stdout t'
  | _ :: t' => stdout t'
  end.

Section Monad.

Variable w : World.

Record state : Type := MkState
  { st_conn : conn (db w); st_trace : list action }.

Definition M (A : Type) : Type := state -> outcome A * state.

Definition ret {A : Type} (a : A) : M A := fun st => (Return a, st).

Definition bind {A B : Type} (m : M A) (k : A -> M B) : M B :=
  fun st =>
    match m st with
    | (Return a, st') => k a st'
    | (Exit arg, st') => (Exit arg, st')
    | (Raise e, st') => (Raise e, st')
    end.

(** [raise SystemExit(arg)] and [raise e] *)
Definition system_exit {A : Type} (arg : exit_arg) : M A :=
  fun st => (Exit arg, st).
Definition raise {A : Type} (e : exn) : M A :=
  fun st => (Raise e, st).

Definition emit (a : action) : M unit :=
  fun st => (Return tt, {| st_conn := st_conn st; st_trace := st_trace st ++ [a] |}).

(** [print(line)] *)
Definition print (line : string) : M unit := emit (PrintLine line).

End Monad.

Arguments ret {w A} a.
Arguments bind {w A B} m k.
Arguments system_exit {w A} arg.
Arguments raise {w A} e.
Arguments emit {w} a.
Arguments print {w} line.
Arguments st_conn {w} s.
Arguments st_trace {w} s.
Arguments MkState {w} _ _.

Notation "x <- m ;; k" := (bind m (fun x => k))
  (at level 61, m at next level, right associativity).
Notation "' pat <- m ;; k" :=
  (bind m (fun x => match x with pat => k end))
  (at level 61, pat pattern, m at next level, right associativity).
Notation "m ;;; k" := (bind m (fun _ => k))
  (at level 61, right associativity).

(** [for x in l: body(x)] *)
Fixpoint for_each {w : World} {A : Type} (l : list A) (body : A -> M w unit)
  : M w unit :=
  match l with
  | [] => ret tt
  | x :: l' => body x ;;; for_each l' body
  end.

(** A loop that carries the value it builds, as [acc += ...] does. *)
Fixpoint for_fold {w : World} {A B : Type} (l : list A) (acc : B)
  (body : B -> A -> M w B) : M w B :=
  match l with
  | [] => ret acc
  | x :: l' => acc' <- body acc x ;; for_fold l' acc' body
  end.

(** [path.exists()] *)
Definition path_exists (w : World) (p : string) : M w bool :=
  emit (PathExists p) ;;;
  ret (match dirs w p, files w p with
       | None, None => false
       | _, _ => true
       end).

(** [conn.execute(sql, params)]: the rows, or the exception it raised. *)
Definition db_execute (w : World) (sql : string) (params : list value)
  : M w (result (list row)) :=
  fun st =>
    let (c', r) := execute (db w) (st_conn st) sql params in
    (Return r, {| st_conn := c'; st_trace := st_trace st ++ [Execute sql params] |}).

(** [conn.execute(sql, params)] where an exception is not caught. *)
Definition db_execute_ (w : World) (sql : string) (params : list value)
  : M w (list row) :=
  r <- db_execute w sql params ;;
  match r with
  | Ok rows => ret rows
  | Raised e => raise e
  end.

(** [cur.executescript(sql)] *)
Definition db_executescript (w : World) (sql : string) : M w (result unit) :=
  fun st =>
    let (c', r) := executescript (db w) (st_conn st) sql in
    (Return r, {| st_conn := c'; st_trace := st_trace st ++ [ExecuteScript sql] |}).

(** The state a run starts from. *)
Definition start (w : World) : state w :=
  {| st_conn := connect (db w); st_trace := [] |}.

End Run.

(* ================================================================== *)
(** * guardian.py *)
(* ================================================================== *)

Module Guardian.
Import Py Re Run.

(** [sorted(l)] on strings: the order is that of the code points, which is
    [String.leb].  Two strings that compare equal are the same string, so
    the sorted list does not depend on the sorting algorithm. *)
Fixpoint insert_sorted (x : string) (l : list string) : list string :=
  match l with
  | [] => [x]
  | y :: l' => if (x <=? y)%string then x :: l else y :: insert_sorted x l'
  end.

Fixpoint sorted (l : list string) : list string :=
  match l with
  | [] => []
  | x :: l' => insert_sorted x (sorted l')
  end.

(** [fnmatch] of a name against [*.sql], as [glob] applies it: a name that
    starts with a dot is hidden from [*]. *)
Definition matches_sql (name : string) : bool :=
  endswith ".sql" name && negb (startswith "." name).

(** [glob.glob(str(dir / "*.sql"))]: the paths of the matching names, in
    the order the directory gives them. *)
Definition glob_sql (w : World) (dir : string) : M w (list string) :=
  emit (Glob (path_join dir "*.sql")) ;;;
  ret (match dirs w dir with
       | Some names => map (path_join dir) (filter matches_sql names)
       | None => []
       end).

Definition candidates (w : World) : list string :=
  [ path_join (repo_root w) "migrations";
    path_join (path_join (repo_root w) "db") "migrations";
    path_join (path_join (path_join (repo_root w) "src") "db") "migrations" ].

Definition no_migrations : string :=
  "No .sql migrations found (looked in migrations/, db/migrations/, src/db/migrations/).".

Definition find_sql_migrations (w : World) : M w (list string) :=
  sql_files <- for_fold (candidates w) []
                 (fun sql_files candidate =>
                    e <- path_exists w candidate ;;
                    if e : bool
                    then found <- glob_sql w candidate ;;
                         ret (sql_files ++ sorted found)%list
                    else ret sql_files) ;;
  match sql_files with
  | [] => system_exit (Message no_migrations)
  | _ => ret sql_files
  end.

(** [open(sql_file).read()] *)
Definition open_read (w : World) (p : string) : M w string :=
  emit (OpenRead p) ;;;
  match files w p with
  | Some text => ret text
  | None => raise (OtherError ("cannot read " ++ p))
  end.

Definition apply_migrations (w : World) (sql_files : list string) : M w unit :=
  for_each sql_files
    (fun sql_file =>
       sql <- open_read w sql_file ;;
       r <- db_executescript w sql ;;
       match r with
       | Ok _ => ret tt
       | Raised exc =>
           system_exit (Message ("Failed applying migration " ++ sql_file
                                 ++ ": " ++ exn_message exc))
       end) ;;;
  emit Commit.

(** [trigger[1] or ""] as an element of [str.join]: the text of the second
    column, the empty string for [None] and for [0]; an integer that is not
    zero cannot be joined, and a row without a second column has no
    [trigger[1]]. *)
Definition trigger_sql (trigger : row) : result string :=
  match nth_error trigger 1 with
  | Some (VText s) => Ok s
  | Some VNull => Ok ""
  | Some (VInt 0) => Ok ""
  | Some (VInt _) => Raised (OtherError "TypeError")
  | None => Raised (OtherError "IndexError")
  end.

Fixpoint trigger_sqls (triggers : list row) : result (list string) :=
  match triggers with
  | [] => Ok []
  | t :: ts =>
      match trigger_sql t with
      | Ok s =>
          match trigger_sqls ts with
          | Ok l => Ok (s :: l)
          | Raised e => Raised e
          end
      | Raised e => Raised e
      end
  end.

Definition nl : string := String (ascii_of_nat 10) EmptyString.

Definition select_triggers : string :=
  "SELECT name, sql FROM sqlite_master WHERE type='trigger' AND tbl_name=?".

Definition not_immutable (table : string) : string :=
  "[FAIL] " ++ table ++
  " is not DB-immutable. Missing triggers blocking UPDATE/DELETE with RAISE/ABORT.".

Definition appears_immutable (table : string) : string :=
  "[OK] " ++ table ++ " appears DB-immutable (triggers present).".

Definition require_immutable_table (w : World) (table : string) : M w unit :=
  triggers <- db_execute_ w select_triggers [VText table] ;;
  match trigger_sqls triggers with
  | Raised e => raise e
  | Ok sqls =>
      let sql_blob := lower (join nl sqls) in
      let has_update := contains "update" sql_blob in
      let has_delete := contains "delete" sql_blob in
      let has_abort := contains "raise" sql_blob || contains "abort" sql_blob in
      if negb (has_update && has_delete && has_abort)
      then system_exit (Message (not_immutable table))
      else print (appears_immutable table)
  end.

(** The seeder. *)
Definition insert_user : string :=
  "INSERT INTO users (user_id, created_at) VALUES (?, ?)".

Definition insert_agent : string :=
  "INSERT INTO agents (agent_id, user_id, status, created_at, updated_at) VALUES (?, ?, ?, ?, ?)".

Definition seed_actor (w : World) : M w (string * string * Z) :=
  emit Clock ;;;
  let now := now w in
  let user_id := "user_guardian_" ++ str_of_Z now in
  let agent_id := "agent_guardian_" ++ str_of_Z now in
  db_execute_ w insert_user [VText user_id; VInt now] ;;;
  db_execute_ w insert_agent
    [VText agent_id; VText user_id; VText "active"; VInt now; VInt now] ;;;
  ret (user_id, agent_id, now).

Definition insert_event_sql : string :=
  "
        INSERT INTO events (
          event_id,
          agent_id,
          user_id,
          type,
          payload_json,
          occurred_at,
          created_at,
          hash,
          prev_hash
        ) VALUES (?, ?, ?, ?, ?, ?, ?, ?, ?)
        ".

Definition insert_event (w : World) (user_id agent_id : string) (now : Z)
  : M w string :=
  let event_id := "evt_guardian_" ++ str_of_Z now in
  db_execute_ w insert_event_sql
    [VText event_id; VText agent_id; VText user_id; VText "kernel.guardian";
     VText "{}"; VInt now; VInt now; VText "hash_guardian"; VNull] ;;;
  ret event_id.

Definition insert_receipt_sql : string :=
  "
        INSERT INTO receipts (
          receipt_id,
          agent_id,
          user_id,
          source,
          event_id,
          external_ref,
          what_happened,
          why_changed,
          what_happens_next,
          occurred_at,
          created_at
        ) VALUES (?, ?, ?, ?, ?, ?, ?, ?, ?, ?, ?)
        ".

Definition insert_receipt (w : World) (user_id agent_id event_id : string)
  (now : Z) : M w string :=
  let receipt_id := "rcpt_guardian_" ++ str_of_Z now in
  db_execute_ w insert_receipt_sql
    [VText receipt_id; VText agent_id; VText user_id; VText "policy";
     VText event_id; VText "guardian"; VText "Guardian test insert.";
     VText "guardian"; VText "Guardian will attempt mutation.";
     VInt now; VInt now] ;;;
  ret receipt_id.

(** The prover. *)
Definition blocked (label : string) : string :=
  "[OK] " ++ label ++ " blocked as expected.".

Definition allowed (label : string) : string :=
  "[FAIL] " ++ label ++ " was allowed; table is not append-only.".

Definition assert_blocked (w : World) (sql : string) (params : list value)
  (label : string) : M w unit :=
  r <- db_execute w sql params ;;
  match r with
  | Raised (DatabaseError _) => print (blocked label)
  | Raised e => raise e
  | Ok _ => system_exit (Message (allowed label))
  end.

Definition update_self (table pk_col update_col : string) : string :=
  "UPDATE " ++ table ++ " SET " ++ update_col ++ " = " ++ update_col
  ++ " WHERE " ++ pk_col ++ " = ?".

Definition delete_by_key (table pk_col : string) : string :=
  "DELETE FROM " ++ table ++ " WHERE " ++ pk_col ++ " = ?".

Definition prove_immutable_by_writes (w : World)
  (table pk_col pk_value update_col : string) : M w unit :=
  assert_blocked w (update_self table pk_col update_col) [VText pk_value]
    ("UPDATE on " ++ table) ;;;
  assert_blocked w (delete_by_key table pk_col) [VText pk_value]
    ("DELETE on " ++ table).

(** The ghost-state scanner. *)
Definition suspicious_tables : list string :=
  ["budgets"; "policies"; "agents"; "users"; "agent_tokens"].

(** [(insert\s+into\s+{table}|update\s+{table}|delete\s+from\s+{table})] *)
Definition mutation_pattern (table : string) : regex :=
  Grp 1
    (Alt (cats [lits "insert"; Plus Space; lits "into"; Plus Space; lits table])
    (Alt (cats [lits "update"; Plus Space; lits table])
         (cats [lits "delete"; Plus Space; lits "from"; Plus Space; lits table]))).

(** A finding: the table, the statement as matched, its offset. *)
Definition finding : Type := (string * string * nat)%type.

(** The text around a match. *)
Definition window (text : string) (m : rmatch) : string :=
  let start := Nat.max 0 (m_start m - 300) in
  let end_ := Nat.min (String.length text) (m_end m + 300) in
  lower (slice text start end_).

Definition scan_match (text table : string) (hits : list finding) (m : rmatch)
  : list finding :=
  let window := window text m in
  if negb (contains "event" window)
     && negb (contains "receipt" window)
     && negb (contains "append" window)
  then (hits ++ [(table, m_group0 m, m_start m)])%list
  else hits.

Definition scan_table (text : string) (hits : list finding) (table : string)
  : list finding :=
  fold_left (scan_match text table)
    (finditer true (mutation_pattern table) text) hits.

Definition ghost_hits (text : string) : list finding :=
  fold_left (scan_table text) suspicious_tables [].

Definition kernel_missing : string :=
  "[WARN] kernel.ts not found for ghost-state scan; skipping.".
Definition ghost_header : string :=
  "[FAIL] Possible ghost-state mutations in kernel.ts (heuristic):".
Definition ghost_failed : string :=
  "Ghost-state heuristic failed. Ensure mutations emit event+receipt or are derived.".
Definition ghost_passed : string :=
  "[OK] Ghost-state heuristic passed (no obvious unlogged mutations).".

Definition finding_line (h : finding) : string :=
  let '(table, op, pos) := h in
  "  - " ++ op ++ " on " ++ table ++ " at char " ++ str_of_nat pos.

(** [path.read_text(encoding="utf-8")] *)
Definition read_text (w : World) (p : string) : M w string :=
  emit (ReadText p) ;;;
  match files w p with
  | Some text => ret text
  | None => raise (OtherError ("cannot read " ++ p))
  end.

Definition scan_for_ghost_state (w : World) : M w unit :=
  let kernel_path := path_join (repo_root w) "kernel.ts" in
  e <- path_exists w kernel_path ;;
  kernel_path <-
    (if e : bool then ret kernel_path
     else
       let alt := path_join (path_join (repo_root w) "src") "kernel.ts" in
       e1 <- path_exists w alt ;;
       if e1 : bool then ret alt
       else
         let alt := path_join (path_join (path_join (repo_root w) "src")
                                 "kernel") "kernel.ts" in
         e2 <- path_exists w alt ;;
         ret (if e2 : bool then alt else kernel_path)) ;;
  e <- path_exists w kernel_path ;;
  if negb e then print kernel_missing
  else
    text <- read_text w kernel_path ;;
    let hits := ghost_hits text in
    match hits with
    | _ :: _ =>
        print ghost_header ;;;
        for_each (firstn 25 hits) (fun h => print (finding_line h)) ;;;
        system_exit (Message ghost_failed)
    | [] => print ghost_passed
    end.

(** [with sqlite3.connect(":memory:") as conn: body]: the connection
    commits when the body returns, and rolls back when the body raises,
    [SystemExit] included; what was raised then goes on. *)
Definition with_connection {w : World} {A : Type} (body : M w A) : M w A :=
  fun st =>
    match (emit Connect ;;; body) st with
    | (Return a, st') => (emit Commit ;;; ret a) st'
    | (Exit arg, st') => (emit Rollback ;;; system_exit arg) st'
    | (Raise e, st') => (emit Rollback ;;; raise e) st'
    end.

Definition banner : string := "== Bloom Kernel Guardian ==".
Definition checks_passed : string := "[OK] Guardian checks passed.".

Definition main (w : World) : M w unit :=
  print banner ;;;
  sql_files <- find_sql_migrations w ;;
  with_connection
    (db_execute_ w "PRAGMA foreign_keys = ON" [] ;;;
     apply_migrations w sql_files ;;;
     require_immutable_table w "events" ;;;
     require_immutable_table w "receipts" ;;;
     '(user_id, agent_id, now) <- seed_actor w ;;
     event_id <- insert_event w user_id agent_id now ;;
     receipt_id <- insert_receipt w user_id agent_id event_id now ;;
     prove_immutable_by_writes w "events" "event_id" event_id "type" ;;;
     prove_immutable_by_writes w "receipts" "receipt_id" receipt_id "what_happened") ;;;
  scan_for_ghost_state w ;;;
  print checks_passed.

(** One run of the script: how it ends and what it did. *)
Definition run_main (w : World) : outcome unit * list action :=
  let (o, st) := main w (start w) in (o, st_trace st).

End Guardian.

(* ================================================================== *)
(** * semantics_lint.py *)
(* ================================================================== *)

Module SemanticsLint.
Import Py Re Run.

(** The tree of files a run walks: a file with its text ([None] when it
    cannot be read as UTF-8), or a directory with its named entries. *)
Inductive entry : Type :=
| EFile (name : string) (content : option string)
| EDir (name : string) (children : list entry).

(** The root of the repository and what is found at a path. *)
Record Tree : Type := MkTree
  { tree_root : string;
    at_path : string -> option entry }.

Definition DEFAULT_DIRS (root : string) : list string :=
  [ path_join (path_join root "src") "presentation";
    path_join (path_join root "src") "console";
    path_join root "src";
    path_join root "packages";
    path_join root "examples";
    path_join root "public";
    path_join root "website";
    path_join root "web";
    path_join root "apps" ].

Definition SKIP_DIRS : list string :=
  [".git"; "node_modules"; "dist"; "build"; "coverage"; "data"; "scripts"; "skills"].

Definition EXTENSIONS : list string :=
  [".md"; ".mdx"; ".html"; ".htm"; ".txt"; ".tsx"; ".ts"; ".jsx"; ".js";
   ".json"; ".yml"; ".yaml"].

Definition BANNED_TERMS : list string :=
  ["wallet"; "gas"; "chain"; "private key"; "seed phrase"].

Definition mem (x : string) (l : list string) : bool := existsb (String.eqb x) l.

Definition quote : ascii := ascii_of_nat 34.
Definition backslash : ascii := ascii_of_nat 92.

(** One alternative of [STRING_LITERAL_RE], for the quote [q]: the quote,
    a group that takes characters other than the quote and the backslash
    and, any number of times, a backslash with the character after it and
    again such characters, then the quote. *)
Definition quoted (q : ascii) (i : nat) : regex :=
  cats [ Lit q;
         Grp i (Cat (Star (Cls true [q; backslash]))
                    (Star (cats [Lit backslash; Dot; Star (Cls true [q; backslash])])));
         Lit q ].

Definition STRING_LITERAL_RE : regex :=
  Alt (quoted "'"%char 1) (Alt (quoted quote 2) (quoted "`"%char 3)).

Definition somes {A : Type} (l : list (option A)) : list A :=
  flat_map (fun o => match o with Some a => [a] | None => [] end) l.

Definition extract_string_literals (line : string) : list string :=
  flat_map (fun m => somes (groups_tuple 3 m))
    (finditer false STRING_LITERAL_RE line).

(** [re.sub(r"<[^>]+>", " ", line)] *)
Definition strip_html_tags (line : string) : string :=
  sub false (cats [Lit "<"%char; Plus (Cls true [">"%char]); Lit ">"%char]) " " line.

(** [r"\s+".join(l)] on patterns *)
Fixpoint join_spaces (l : list regex) : regex :=
  match l with
  | [] => Eps
  | [r] => r
  | r :: l' => Cat r (Cat (Plus Space) (join_spaces l'))
  end.

Definition word_pattern (word : string) : regex :=
  cats [WordB; lits word; WordB].

(** The pattern of a term, compiled with [re.IGNORECASE]. *)
Definition term_pattern (term : string) : regex :=
  let words := split term in
  if List.length words =? 1 then word_pattern term
  else join_spaces (map word_pattern words).

(** [path.name] and [path.suffix] *)
Fixpoint name_from (cur : list ascii) (p : string) : string :=
  match p with
  | EmptyString => rev_string cur
  | String c p' => if Ascii.eqb c "/"%char then name_from [] p' else name_from (c :: cur) p'
  end.

Definition name (p : string) : string := name_from [] p.

(** [s.rfind(".")], from offset [i] on; [last] is the last dot seen. *)
Fixpoint rfind_dot (s : string) (i : nat) (last : option nat) : option nat :=
  match s with
  | EmptyString => last
  | String c s' => rfind_dot s' (S i) (if Ascii.eqb c "."%char then Some i else last)
  end.

Definition suffix (p : string) : string :=
  let name := name p in
  match rfind_dot name 0 None with
  | Some i =>
      if (0 <? i) && (i <? String.length name - 1)
      then substring i (String.length name - i) name
      else ""
  | None => ""
  end.

(** [find_roots(args)]; the arguments are taken as resolved paths. *)
Definition find_roots (t : Tree) (args : list string) : list string :=
  match args with
  | _ :: _ => args
  | [] =>
      let roots :=
        filter (fun p => match at_path t p with Some _ => true | None => false end)
               (DEFAULT_DIRS (tree_root t)) in
      match roots with
      | _ :: _ => roots
      | [] => [tree_root t]
      end
  end.

(** [os.walk(root)] with the pruning and the filter of [iter_files]: in
    each directory the files with a listed extension, then the directories
    that are not skipped.  Each path comes with what [read_text] will find
    there. *)
Fixpoint walk (dirpath : string) (e : entry) : list (string * option string) :=
  match e with
  | EFile _ _ => []
  | EDir _ children =>
      (flat_map (fun c =>
                   match c with
                   | EFile filename content =>
                       let path := path_join dirpath filename in
                       if mem (lower (suffix path)) EXTENSIONS
                       then [(path, content)] else []
                   | EDir _ _ => []
                   end) children
       ++
       flat_map (fun c =>
                   match c with
                   | EDir d _ =>
                       if mem d SKIP_DIRS then []
                       else walk (path_join dirpath d) c
                   | EFile _ _ => []
                   end) children)%list
  end.

Definition iter_files (t : Tree) (roots : list string)
  : list (string * option string) :=
  flat_map (fun root =>
              match at_path t root with
              | Some (EFile _ content) => [(root, content)]
              | Some e => walk root e
              | None => []
              end) roots.

(** A hit: the path, the number of the line, the term, the line stripped. *)
Definition hit : Type := (string * nat * string * string)%type.

Definition patterns : list (string * regex) :=
  map (fun term => (term, term_pattern term)) BANNED_TERMS.

(** What is searched on a line of a file with extension [ext]. *)
Definition segments (ext line : string) : list string :=
  if mem ext [".ts"; ".tsx"; ".js"; ".jsx"] then extract_string_literals line
  else if mem ext [".html"; ".htm"] then [strip_html_tags line]
  else [line].

Definition found (pattern : regex) (segment : string) : bool :=
  match search true pattern segment with
  | Some _ => true
  | None => false
  end.

Definition scan_segment (path : string) (line_no : nat) (line : string)
  (hits : list hit) (segment : string) : list hit :=
  fold_left (fun hits (tp : string * regex) =>
               if found (snd tp) segment
               then (hits ++ [(path, line_no, fst tp, strip line)])%list
               else hits)
    patterns hits.

Definition scan_line (path ext : string) (hits : list hit) (nl : nat * string)
  : list hit :=
  fold_left (scan_segment path (fst nl) (snd nl)) (segments ext (snd nl)) hits.

(** [enumerate(l, 1)] *)
Definition enumerate1 {A : Type} (l : list A) : list (nat * A) :=
  combine (seq 1 (List.length l)) l.

Definition scan_file (hits : list hit) (pc : string * option string) : list hit :=
  match snd pc with
  | None => hits
  | Some text =>
      let ext := lower (suffix (fst pc)) in
      fold_left (scan_line (fst pc) ext) (enumerate1 (splitlines text)) hits
  end.

Definition lint_hits (t : Tree) (args : list string) : list hit :=
  fold_left scan_file (iter_files t (find_roots t args)) [].

(** [path.relative_to(REPO_ROOT)]; [None] when it raises [ValueError]. *)
Definition relative_to (root p : string) : option string :=
  if String.eqb p root then Some "."
  else if startswith (root ++ "/") p
       then Some (substring (S (String.length root))
                    (String.length p - S (String.length root)) p)
       else None.

Definition hit_line (rel_path : string) (h : hit) : string :=
  let '(_, line_no, term, line) := h in
  "  - " ++ rel_path ++ ":" ++ str_of_nat line_no ++ " contains '" ++ term
  ++ "': " ++ line.

(** The lines of the report, up to the first path that is not under the
    root. *)
Fixpoint report (root : string) (hs : list hit) : list string * bool :=
  match hs with
  | [] => ([], true)
  | h :: hs' =>
      match relative_to root (fst (fst (fst h))) with
      | None => ([], false)
      | Some rel =>
          let (ls, ok) := report root hs' in (hit_line rel h :: ls, ok)
      end
  end.

Definition lint_header : string := "[FAIL] Banned terms found in user-facing copy:".
Definition lint_ok : string := "[OK] No banned terms found.".

(** [main()] with [sys.argv[1:] = args]: how it ends and what it prints. *)
Definition main (t : Tree) (args : list string) : outcome unit * list string :=
  let hits := lint_hits t args in
  match hits with
  | _ :: _ =>
      let (ls, ok) := report (tree_root t) (firstn 200 hits) in
      let more :=
        if 200 <? List.length hits
        then ["  ... and " ++ str_of_nat (List.length hits - 200) ++ " more"]
        else [] in
      if ok : bool
      then (Exit (Status 1), lint_header :: List.app ls more)
      else (Raise (OtherError "ValueError"), lint_header :: ls)
  | [] => (Return tt, [lint_ok])
  end.

End SemanticsLint.

(* ================================================================== *)
(** * Vocabulary of the properties, and the worlds of the examples *)
(* ================================================================== *)

Import Py Re Run.

Definition mem_string (x : string) (l : list string) : bool :=
  existsb (String.eqb x) l.

(** The order of [sorted] on strings. *)
Definition str_le (a b : string) : Prop := (a <=? b)%string = true.

(** The [.sql] paths of a candidate directory, as [glob] gives them. *)
Definition sql_paths (w : World) (dir : string) : list string :=
  match dirs w dir with
  | Some names => map (path_join dir) (filter Guardian.matches_sql names)
  | None => []
  end.

(** The sorted [.sql] paths of each candidate directory, in the order of
    the candidates. *)
Definition sql_blocks (w : World) : list (list string) :=
  map (fun dir => Guardian.sorted (sql_paths w dir)) (Guardian.candidates w).

(** The migration loader as the specification words it: the files of the
    first candidate directory that has any, and nothing from the
    directories after it. *)
Fixpoint first_nonempty (blocks : list (list string)) : option (list string) :=
  match blocks with
  | [] => None
  | [] :: blocks' => first_nonempty blocks'
  | b :: _ => Some b
  end.

Definition spec_find_sql_migrations (w : World) : outcome (list string) :=
  match first_nonempty (sql_blocks w) with
  | Some b => Return b
  | None => Exit (Message Guardian.no_migrations)
  end.

(** One turn of the loop over the candidates: the sorted paths of the
    candidate are put after those found so far. *)
Definition probe (w : World) (sql_files : list string) (candidate : string)
  : M w (list string) :=
  e <- path_exists w candidate ;;
  if e : bool
  then found <- Guardian.glob_sql w candidate ;;
       ret (sql_files ++ Guardian.sorted found)%list
  else ret sql_files.

(** A case-insensitive occurrence of the token [tok] (given in small
    letters) in [s]. *)
Definition mentions (tok s : string) : Prop :=
  exists pre mid post, s = pre ++ mid ++ post /\ lower mid = tok.

(** What the verifier asks of the trigger text of a table. *)
Definition blocks_writes (blob : string) : Prop :=
  mentions "update" blob /\ mentions "delete" blob /\
  (mentions "raise" blob \/ mentions "abort" blob).

(** A database-level rejection, and a statement that ran. *)
Definition rejected {A : Type} (r : result A) : Prop :=
  exists msg, r = Raised (DatabaseError msg).

Definition ran {A : Type} (r : result A) : Prop := exists a, r = Ok a.

(** The state after the actions [d], the connection left as it is. *)
Definition extend {w : World} (st : state w) (d : list action) : state w :=
  MkState (st_conn st) (st_trace st ++ d).

(** The scan target: the first of the three fixed places where something
    exists. *)
Definition present (w : World) (p : string) : bool :=
  match dirs w p, files w p with
  | None, None => false
  | _, _ => true
  end.

Definition kernel_candidates (w : World) : list string :=
  [ path_join (repo_root w) "kernel.ts";
    path_join (path_join (repo_root w) "src") "kernel.ts";
    path_join (path_join (path_join (repo_root w) "src") "kernel") "kernel.ts" ].

Definition located (w : World) : option string :=
  find (present w) (kernel_candidates w).

(** A probe of the scanner: an existence test at one of the three places. *)
Definition kernel_probe (w : World) (a : action) : Prop :=
  exists p, a = PathExists p /\ In p (kernel_candidates w).

(** What the scanner does once the probes are over, and how it ends. *)
Definition scan_verdict (w : World) : outcome unit * list action :=
  match located w with
  | None => (Return tt, [PrintLine Guardian.kernel_missing])
  | Some p =>
      match files w p with
      | None => (Raise (OtherError ("cannot read " ++ p)), [ReadText p])
      | Some text =>
          match Guardian.ghost_hits text with
          | [] => (Return tt, [ReadText p; PrintLine Guardian.ghost_passed])
          | hits =>
              (Exit (Message Guardian.ghost_failed),
               ReadText p :: PrintLine Guardian.ghost_header ::
               map (fun h => PrintLine (Guardian.finding_line h)) (firstn 25 hits))
          end
      end
  end.

(** The five stages of a guardian run, in their order. *)
Inductive stage : Type := StLoad | StVerify | StSeed | StProve | StScan.

Definition rank (s : stage) : nat :=
  match s with
  | StLoad => 0
  | StVerify => 1
  | StSeed => 2
  | StProve => 3
  | StScan => 4
  end.

(** The stage a statement belongs to, by its verb. *)
Definition stage_of_sql (sql : string) : option stage :=
  let s := lstrip sql in
  if startswith "PRAGMA" s then Some StLoad
  else if startswith "SELECT" s then Some StVerify
  else if startswith "INSERT" s then Some StSeed
  else if startswith "UPDATE" s || startswith "DELETE" s then Some StProve
  else None.

(** The stage an action belongs to; printing, committing and rolling back
    belong to none. *)
Definition stage_of (a : action) : option stage :=
  match a with
  | PrintLine _ => None
  | PathExists p => Some (if endswith "kernel.ts" p then StScan else StLoad)
  | Glob _ => Some StLoad
  | OpenRead _ => Some StLoad
  | ReadText _ => Some StScan
  | Connect => Some StLoad
  | Execute sql _ => stage_of_sql sql
  | ExecuteScript _ => Some StLoad
  | Commit => None
  | Rollback => None
  | Clock => Some StSeed
  end.

(** The stages of a trace, as ranks, in the order of the trace. *)
Fixpoint stages (t : list action) : list nat :=
  match t with
  | [] => []
  | a :: t' =>
      match stage_of a with
      | Some s => rank s :: stages t'
      | None => stages t'
      end
  end.

Definition bounded (lo hi : nat) (d : list action) : Prop :=
  Forall (fun n => lo <= n <= hi) (stages d).

(** A statement with its parameters, and the statements of a trace. *)
Definition stmt : Type := (string * list value)%type.

Fixpoint executed (t : list action) : list stmt :=
  match t with
  | [] => []
  | Execute sql params :: t' => (sql, params) :: executed t'
  | _ :: t' => executed t'
  end.

(** The stage that exits with a given message. *)
Definition failing_stage (arg : exit_arg) : option stage :=
  match arg with
  | Status _ => None
  | Message s =>
      if String.eqb s Guardian.no_migrations
         || startswith "Failed applying migration " s
      then Some StLoad
      else if mem_string s [Guardian.not_immutable "events";
                            Guardian.not_immutable "receipts"]
      then Some StVerify
      else if mem_string s [Guardian.allowed "UPDATE on events";
                            Guardian.allowed "DELETE on events";
                            Guardian.allowed "UPDATE on receipts";
                            Guardian.allowed "DELETE on receipts"]
      then Some StProve
      else if String.eqb s Guardian.ghost_failed then Some StScan
      else None
  end.

(** The identifiers of the seeded rows. *)
Definition user_id (w : World) : string := "user_guardian_" ++ str_of_Z (now w).
Definition agent_id (w : World) : string := "agent_guardian_" ++ str_of_Z (now w).
Definition event_id (w : World) : string := "evt_guardian_" ++ str_of_Z (now w).
Definition receipt_id (w : World) : string := "rcpt_guardian_" ++ str_of_Z (now w).

(** The statements of a whole run, in their order. *)
Definition pipeline (w : World) : list stmt :=
  [ ("PRAGMA foreign_keys = ON", []);
    (Guardian.select_triggers, [VText "events"]);
    (Guardian.select_triggers, [VText "receipts"]);
    (Guardian.insert_user, [VText (user_id w); VInt (now w)]);
    (Guardian.insert_agent,
     [VText (agent_id w); VText (user_id w); VText "active";
      VInt (now w); VInt (now w)]);
    (Guardian.insert_event_sql,
     [VText (event_id w); VText (agent_id w); VText (user_id w);
      VText "kernel.guardian"; VText "{}"; VInt (now w); VInt (now w);
      VText "hash_guardian"; VNull]);
    (Guardian.insert_receipt_sql,
     [VText (receipt_id w); VText (agent_id w); VText (user_id w);
      VText "policy"; VText (event_id w); VText "guardian";
      VText "Guardian test insert."; VText "guardian";
      VText "Guardian will attempt mutation."; VInt (now w); VInt (now w)]);
    (Guardian.update_self "events" "event_id" "type", [VText (event_id w)]);
    (Guardian.delete_by_key "events" "event_id", [VText (event_id w)]);
    (Guardian.update_self "receipts" "receipt_id" "what_happened",
     [VText (receipt_id w)]);
    (Guardian.delete_by_key "receipts" "receipt_id", [VText (receipt_id w)]) ].

(** The lines a run prints when every check passes. *)
Definition passing_lines (w : World) : list string :=
  ([ Guardian.banner;
     Guardian.appears_immutable "events";
     Guardian.appears_immutable "receipts";
     Guardian.blocked "UPDATE on events";
     Guardian.blocked "DELETE on events";
     Guardian.blocked "UPDATE on receipts";
     Guardian.blocked "DELETE on receipts" ]
   ++ stdout (snd (scan_verdict w))
   ++ [Guardian.checks_passed])%list.

(** The [OK] lines among the lines printed. *)
Definition ok_lines (lines : list string) : list string :=
  filter (startswith "[OK]") lines.

(** Actions of the stage [s], or of no stage, that neither print nor
    execute a statement. *)
Definition quiet (s : stage) (d : list action) : Prop :=
  Forall (fun a => (stage_of a = Some s \/ stage_of a = None)
                   /\ executed [a] = [] /\ stdout [a] = []) d.

(** What is known of a call once it is over: the stages of its actions
    are in order and between [lo] and [hi]; when it returns, a value in
    [R], the statements [script] and the lines [lines]; when it stops, a
    part of [script], and for an exit the stage that exits so, with no
    action of a later stage. *)
Definition shaped {A : Type} (script : list stmt) (lo hi : nat)
  (lines : list string) (R : A -> Prop) (o : outcome A) (d : list action)
  : Prop :=
  StronglySorted le (stages d) /\ bounded lo hi d /\
  match o with
  | Return a => R a /\ executed d = script /\ stdout d = lines
  | Exit arg =>
      (exists rest, script = (executed d ++ rest)%list) /\
      exists s, failing_stage arg = Some s /\ lo <= rank s <= hi
                /\ bounded lo (rank s) d
  | Raise _ => exists rest, script = (executed d ++ rest)%list
  end.

(** Every run of [m] adds to the trace some actions [d] with [P]. *)
Definition triple {w : World} {A : Type} (m : M w A)
  (P : outcome A -> list action -> Prop) : Prop :=
  forall st, exists o c' d,
    m st = (o, MkState c' (st_trace st ++ d)) /\ P o d.

(** The text within 300 characters of a match, before and after, cut at
    the ends of the text. *)
Definition nearby (text : string) (m : rmatch) : string :=
  slice text (m_start m - 300) (Nat.min (String.length text) (m_end m + 300)).

(** A match with no word of an audit entry near it. *)
Definition unlogged (text : string) (m : rmatch) : Prop :=
  ~ mentions "event" (nearby text m)
  /\ ~ mentions "receipt" (nearby text m)
  /\ ~ mentions "append" (nearby text m).

(** The finding of a match. *)
Definition finding_of (table : string) (m : rmatch) : Guardian.finding :=
  (table, m_group0 m, m_start m).

(** The test of the scanner on a match. *)
Definition unlogged_b (text : string) (m : rmatch) : bool :=
  negb (contains "event" (Guardian.window text m))
  && negb (contains "receipt" (Guardian.window text m))
  && negb (contains "append" (Guardian.window text m)).

(** A run of whitespace, not empty. *)
Fixpoint all_space (s : string) : bool :=
  match s with
  | EmptyString => true
  | String c s' => isspace c && all_space s'
  end.

Definition spaces (ws : string) : Prop := ws <> "" /\ all_space ws = true.

(** A mutation statement on [table], in any case and with any whitespace
    between its words; nothing is asked of what comes before or after
    it. *)
Inductive mutation_stmt (table : string) : string -> Prop :=
| stmt_insert (kw ws1 into ws2 tb : string) :
    lower kw = "insert" -> spaces ws1 -> lower into = "into" -> spaces ws2 ->
    lower tb = table ->
    mutation_stmt table (kw ++ ws1 ++ into ++ ws2 ++ tb)
| stmt_update (kw ws tb : string) :
    lower kw = "update" -> spaces ws -> lower tb = table ->
    mutation_stmt table (kw ++ ws ++ tb)
| stmt_delete (kw ws1 from ws2 tb : string) :
    lower kw = "delete" -> spaces ws1 -> lower from = "from" -> spaces ws2 ->
    lower tb = table ->
    mutation_stmt table (kw ++ ws1 ++ from ++ ws2 ++ tb).

(** The cursor [n] characters further. *)
Fixpoint feed (c : cursor) (n : nat) : cursor :=
  match n with
  | 0 => c
  | S n' =>
      match rest c with
      | String x s' => feed (advance x s' c) n'
      | EmptyString => c
      end
  end.

(** The loop of [run] on [Star r'], with its fuel. *)
Fixpoint star_loop {A : Type} (ic : bool) (r' : regex)
  (k : cursor -> groups -> option A) (fuel : nat) (c : cursor) (g : groups)
  {struct fuel} : option A :=
  match fuel with
  | 0 => k c g
  | S fuel' =>
      match run ic r' c g (fun c' g' =>
              if pos c' =? pos c then None else star_loop ic r' k fuel' c' g') with
      | Some a => Some a
      | None => k c g
      end
  end.

(** The items a statement is made of, word or whitespace, and a text that
    spells them: each word in any case, each whitespace a run that ends
    where the next word starts. *)
Inductive item : Type := Word (w : string) | Blank.

Definition item_pattern (i : item) : regex :=
  match i with
  | Word w => lits w
  | Blank => Plus Space
  end.

Definition starts_with_space (s : string) : bool :=
  match s with
  | String x _ => isspace x
  | EmptyString => false
  end.

Inductive spells : list item -> string -> Prop :=
| spells_nil : spells [] ""
| spells_word (w kw : string) (l : list item) (s : string) :
    lower kw = lower w -> spells l s -> spells (Word w :: l) (kw ++ s)
| spells_blank (ws : string) (l : list item) (s : string) :
    spaces ws -> starts_with_space s = false -> s <> "" -> spells l s ->
    spells (Blank :: l) (ws ++ s).

(** The three shapes of a mutation statement. *)
Definition insert_items (table : string) : list item :=
  [Word "insert"; Blank; Word "into"; Blank; Word table].
Definition update_items (table : string) : list item :=
  [Word "update"; Blank; Word table].
Definition delete_items (table : string) : list item :=
  [Word "delete"; Blank; Word "from"; Blank; Word table].

(** What a pattern matches: [lang ic r c n caps] says that [r] matches
    the [n] characters at the cursor [c] and captures [caps], the last
    capture first. *)
Inductive lang (ic : bool) : regex -> cursor -> nat -> groups -> Prop :=
| lang_eps (c : cursor) : lang ic Eps c 0 []
| lang_lit (p x : ascii) (s' : string) (c : cursor) :
    rest c = String x s' -> char_eq ic p x = true -> lang ic (Lit p) c 1 []
| lang_cls (neg : bool) (cs : list ascii) (x : ascii) (s' : string) (c : cursor) :
    rest c = String x s' ->
    xorb neg (existsb (fun p => char_eq ic p x) cs) = true ->
    lang ic (Cls neg cs) c 1 []
| lang_dot (x : ascii) (s' : string) (c : cursor) :
    rest c = String x s' -> negb (code x =? 10) = true -> lang ic Dot c 1 []
| lang_space (x : ascii) (s' : string) (c : cursor) :
    rest c = String x s' -> isspace x = true -> lang ic Space c 1 []
| lang_wordb (c : cursor) :
    at_boundary c = true -> lang ic WordB c 0 []
| lang_cat (r1 r2 : regex) (c : cursor) (n1 n2 : nat) (caps1 caps2 : groups) :
    lang ic r1 c n1 caps1 -> lang ic r2 (feed c n1) n2 caps2 ->
    lang ic (Cat r1 r2) c (n1 + n2) (caps2 ++ caps1)%list
| lang_alt_l (r1 r2 : regex) (c : cursor) (n : nat) (caps : groups) :
    lang ic r1 c n caps -> lang ic (Alt r1 r2) c n caps
| lang_alt_r (r1 r2 : regex) (c : cursor) (n : nat) (caps : groups) :
    lang ic r2 c n caps -> lang ic (Alt r1 r2) c n caps
| lang_star_nil (r : regex) (c : cursor) : lang ic (Star r) c 0 []
| lang_star_cons (r : regex) (c : cursor) (n1 n2 : nat) (caps1 caps2 : groups) :
    lang ic r c n1 caps1 -> lang ic (Star r) (feed c n1) n2 caps2 ->
    lang ic (Star r) c (n1 + n2) (caps2 ++ caps1)%list
| lang_grp (i : nat) (r : regex) (c : cursor) (n : nat) (caps : groups) :
    lang ic r c n caps ->
    lang ic (Grp i r) c n ((i, substring 0 n (rest c)) :: caps).

(** The characters of a string. *)
Fixpoint chars (s : string) : list ascii :=
  match s with
  | EmptyString => []
  | String c s' => c :: chars s'
  end.

(** A pattern that captures nothing. *)
Fixpoint plain (r : regex) : bool :=
  match r with
  | Grp _ _ => false
  | Cat r1 r2 | Alt r1 r2 => plain r1 && plain r2
  | Star r' => plain r'
  | _ => true
  end.

(** The text between two quotes of the same kind on a line. *)
Definition quoted_in (line segment : string) : Prop :=
  exists pre q post,
    In q ["'"%char; SemanticsLint.quote; "`"%char]
    /\ line = pre ++ String q (segment ++ String q post).

(** A text that reads as the items: each word in any case, each
    whitespace a run that is not empty. *)
Inductive reads : list item -> string -> Prop :=
| reads_nil : reads [] ""
| reads_word (w kw : string) (l : list item) (s : string) :
    lower kw = lower w -> reads l s -> reads (Word w :: l) (kw ++ s)
| reads_blank (ws : string) (l : list item) (s : string) :
    spaces ws -> reads l s -> reads (Blank :: l) (ws ++ s).

(** A string without a line boundary. *)
Definition one_line (s : string) : Prop :=
  Forall (fun ch => islinebreak ch = false) (chars s).

(** A banned term found on a line of a scanned file: the file is one of
    those walked and can be read, the line is its line with that number,
    and the pattern of the term is found in one of the segments searched
    on that line. *)
Definition flagged (t : SemanticsLint.Tree) (args : list string)
  (h : SemanticsLint.hit) : Prop :=
  let '(path, line_no, term, shown) := h in
  exists text line segment,
    In (path, Some text) (SemanticsLint.iter_files t (SemanticsLint.find_roots t args))
    /\ 1 <= line_no /\ nth_error (splitlines text) (line_no - 1) = Some line
    /\ shown = strip line
    /\ In segment (SemanticsLint.segments (lower (SemanticsLint.suffix path)) line)
    /\ In term SemanticsLint.BANNED_TERMS
    /\ SemanticsLint.found (SemanticsLint.term_pattern term) segment = true.

Definition code_ext (ext : string) : bool :=
  SemanticsLint.mem ext [".ts"; ".tsx"; ".js"; ".jsx"].

Definition markup_ext (ext : string) : bool :=
  SemanticsLint.mem ext [".html"; ".htm"].

(** The hits of a segment, of a line, of a file. *)
Definition segment_hits (path : string) (line_no : nat) (line segment : string)
  : list SemanticsLint.hit :=
  flat_map (fun tp : string * regex =>
              if SemanticsLint.found (snd tp) segment
              then [(path, line_no, fst tp, strip line)] else [])
    SemanticsLint.patterns.

Definition line_hits (path ext : string) (nl : nat * string)
  : list SemanticsLint.hit :=
  flat_map (segment_hits path (fst nl) (snd nl))
    (SemanticsLint.segments ext (snd nl)).

Definition file_hits (pc : string * option string) : list SemanticsLint.hit :=
  match snd pc with
  | None => []
  | Some text =>
      flat_map (line_hits (fst pc) (lower (SemanticsLint.suffix (fst pc))))
        (SemanticsLint.enumerate1 (splitlines text))
  end.

(** The last character of [s], or [pv] when [s] is empty; the first
    character of a string. *)
Fixpoint last_or (pv : option ascii) (s : string) : option ascii :=
  match s with
  | EmptyString => pv
  | String x s' => last_or (Some x) s'
  end.

Definition first_char (s : string) : option ascii :=
  match s with
  | String x _ => Some x
  | EmptyString => None
  end.

(** A word boundary between two parts of a text: exactly one of the
    characters next to it is a word character. *)
Definition boundary_between (left right : string) : bool :=
  xorb (is_word_opt (last_or None left)) (is_word_opt (first_char right)).

(** The word [a] between [pre] and [post], with a word boundary at each
    of its ends. *)
Definition delimited (pre a post : string) : Prop :=
  boundary_between pre (a ++ post) = true
  /\ boundary_between (pre ++ a) post = true.

(** Two words, in any case, each between word boundaries, with
    whitespace between them, in a segment. *)
Definition word_pair_in (w1 w2 segment : string) : Prop :=
  exists pre a ws b post,
    segment = pre ++ a ++ ws ++ b ++ post
    /\ lower a = lower w1 /\ spaces ws /\ lower b = lower w2
    /\ delimited pre a (ws ++ b ++ post)
    /\ delimited (pre ++ a ++ ws) b post.

(** One word, in any case, in a segment. *)
Definition word_in (w segment : string) : Prop :=
  exists pre a post,
    segment = pre ++ a ++ post /\ lower a = lower w /\ delimited pre a post.

Module Examples.

(** The two triggers of an append-only table. *)
Definition no_update (t : string) : row :=
  [VText (t ++ "_no_update");
   VText ("CREATE TRIGGER " ++ t ++ "_no_update BEFORE UPDATE ON " ++ t
          ++ " BEGIN SELECT RAISE(ABORT, 'append-only'); END")].

Definition no_delete (t : string) : row :=
  [VText (t ++ "_no_delete");
   VText ("CREATE TRIGGER " ++ t ++ "_no_delete BEFORE DELETE ON " ++ t
          ++ " BEGIN SELECT RAISE(ABORT, 'append-only'); END")].

Definition both_triggers (t : string) : list row := [no_update t; no_delete t].

(** A schema that lacks the delete trigger of [receipts]. *)
Definition receipts_deletable (t : string) : list row :=
  if String.eqb t "receipts" then [no_update t] else both_triggers t.

(** An engine that answers the trigger query from [triggers] and rejects
    the updates and deletes that [blocks] names. *)
Definition engine (triggers : string -> list row) (blocks : string -> bool)
  : Sqlite :=
  {| conn := unit;
     connect := tt;
     execute := fun c sql params =>
       (c, if String.eqb sql Guardian.select_triggers
           then Ok (match params with
                    | [VText t] => triggers t
                    | _ => []
                    end)
           else if (startswith "UPDATE " sql || startswith "DELETE " sql)
                   && blocks sql
                then Raised (DatabaseError "append-only")
                else Ok []);
     executescript := fun c sql => (c, Ok tt) |}.

Definition kernel_logged : string :=
  "await db.run('INSERT INTO budgets (id) VALUES (?)'); emitEvent('budget.created');".

Definition kernel_unlogged : string :=
  "await db.run('INSERT INTO budgets (id) VALUES (?)');".

(** A repository with migrations in two of the candidate directories. *)
Definition repo (kernel : option string) (d : Sqlite) : World :=
  {| repo_root := "/repo";
     dirs := fun p =>
       if String.eqb p "/repo/migrations"
       then Some ["002_triggers.sql"; "001_init.sql"; "README.md"]
       else if String.eqb p "/repo/db/migrations"
            then Some ["000_legacy.sql"]
            else None;
     files := fun p =>
       if String.eqb p "/repo/kernel.ts" then kernel
       else if endswith ".sql" p then Some "CREATE TABLE t (x);"
            else None;
     now := 1700000000%Z;
     db := d |}.

Definition passing : World :=
  repo (Some kernel_logged) (engine both_triggers (fun _ => true)).

Definition without_kernel : World :=
  repo None (engine both_triggers (fun _ => true)).

Definition ghostly : World :=
  repo (Some kernel_unlogged) (engine both_triggers (fun _ => true)).

Definition unguarded : World :=
  repo (Some kernel_logged) (engine receipts_deletable (fun _ => true)).

Definition writable : World :=
  repo (Some kernel_logged)
    (engine both_triggers (fun sql => negb (startswith "DELETE FROM receipts" sql))).

(** A tree with a script, a page and a text. *)
Definition lf : string := String (ascii_of_nat 10) "".

Definition site : SemanticsLint.Tree :=
  {| SemanticsLint.tree_root := "/repo";
     SemanticsLint.at_path := fun p =>
       if String.eqb p "/repo/src"
       then Some (SemanticsLint.EDir "src"
                    [ SemanticsLint.EFile "app.ts"
                        (Some ("const wallet = open('Your account');" ++ lf
                               ++ "show(`Connect your wallet`);"));
                      SemanticsLint.EFile "index.html"
                        (Some ("<p class='wallet'>Keep your private" ++ lf
                               ++ "key safe</p>"));
                      SemanticsLint.EFile "notes.md" (Some "No gas fees.") ])
       else None |}.


End Examples.

(* ================================================================== *)
(** * Vocabulary of the further properties *)
(* ================================================================== *)

(** One turn of the loop of [apply_migrations]. *)
Definition migrate (w : World) (sql_file : string) : M w unit :=
  sql <- Guardian.open_read w sql_file ;;
  r <- db_executescript w sql ;;
  match r with
  | Ok _ => ret tt
  | Raised exc =>
      system_exit (Message ("Failed applying migration " ++ sql_file
                            ++ ": " ++ exn_message exc))
  end.

(** The files [sql_files] are applied one after the other from the
    connection [c]: each is read and its script runs; [c'] is the
    connection after the last one and [d] the actions, in their order. *)
Inductive applied (w : World)
  : conn (db w) -> list string -> conn (db w) -> list action -> Prop :=
| applied_nil (c : conn (db w)) : applied w c [] c []
| applied_cons (c c1 c' : conn (db w)) (f sql : string) (fs : list string)
    (d : list action) :
    files w f = Some sql ->
    executescript (db w) c sql = (c1, Ok tt) ->
    applied w c1 fs c' d ->
    applied w c (f :: fs) c' (OpenRead f :: ExecuteScript sql :: d).

(** An action of the loader: an existence test or a listing. *)
Definition probing (a : action) : bool :=
  match a with
  | PathExists _ | Glob _ => true
  | _ => false
  end.

(** Every character of [s] satisfies [ok]; [s] does not start with a
    character that satisfies [ok]. *)
Definition all_chars (ok : ascii -> bool) (s : string) : bool :=
  forallb ok (chars s).

Definition stops (ok : ascii -> bool) (s : string) : bool :=
  match s with
  | String x _ => negb (ok x)
  | EmptyString => true
  end.

(** A pattern without [\b]. *)
Fixpoint no_wordb (r : regex) : bool :=
  match r with
  | WordB => false
  | Cat r1 r2 | Alt r1 r2 => no_wordb r1 && no_wordb r2
  | Star r' | Grp _ r' => no_wordb r'
  | _ => true
  end.

(** Two cursors on the same text, the second [d] characters further in
    its count of offsets, and two results that end so. *)
Definition same_place (d : nat) (c1 c2 : cursor) : Prop :=
  rest c1 = rest c2 /\ pos c2 = pos c1 + d.

Definition same_result (d : nat) (o1 o2 : option (cursor * groups)) : Prop :=
  match o1, o2 with
  | None, None => True
  | Some (c1, g1), Some (c2, g2) => same_place d c1 c2 /\ g1 = g2
  | _, _ => False
  end.

(** The pattern of [strip_html_tags] and its character class. *)
Definition tag : regex :=
  cats [Lit "<"%char; Plus (Cls true [">"%char]); Lit ">"%char].

Definition not_gt (x : ascii) : bool := negb (Ascii.eqb x ">"%char).
Definition not_lt (x : ascii) : bool := negb (Ascii.eqb x "<"%char).

(** The three quotes of [STRING_LITERAL_RE], and a character that stands
    for itself between two quotes [q]. *)
Definition is_quote (x : ascii) : bool :=
  existsb (Ascii.eqb x) ["'"%char; SemanticsLint.quote; "`"%char].

Definition not_quote (x : ascii) : bool := negb (is_quote x).

Definition unescaped (q x : ascii) : bool :=
  negb (Ascii.eqb x q) && negb (Ascii.eqb x SemanticsLint.backslash).

(** What [extract_string_literals] takes from a match. *)
Definition captured (g : groups) : list string :=
  SemanticsLint.somes (map (fun i => group i g) (seq 1 3)).

(** The path [dirpath/n1/.../nk]. *)
Fixpoint descend (dirpath : string) (names : list string) : string :=
  match names with
  | [] => dirpath
  | n :: ns => descend (path_join dirpath n) ns
  end.

(** The file [filename], with [content], is found in the directory [e]
    through the directories [dnames]. *)
Inductive reach
  : SemanticsLint.entry -> list string -> string -> option string -> Prop :=
| reach_here (name : string) (children : list SemanticsLint.entry)
    (filename : string) (content : option string) :
    In (SemanticsLint.EFile filename content) children ->
    reach (SemanticsLint.EDir name children) [] filename content
| reach_down (name : string) (children : list SemanticsLint.entry)
    (d : string) (sub : list SemanticsLint.entry) (dnames : list string)
    (filename : string) (content : option string) :
    In (SemanticsLint.EDir d sub) children ->
    reach (SemanticsLint.EDir d sub) dnames filename content ->
    reach (SemanticsLint.EDir name children) (d :: dnames) filename content.

(** A file that the walk below a directory yields: its extension is
    listed and no directory on the way to it is skipped. *)
Definition walked (dirpath : string) (e : SemanticsLint.entry)
  (path : string) (content : option string) : Prop :=
  exists dnames filename,
    reach e dnames filename content
    /\ Forall (fun d => SemanticsLint.mem d SemanticsLint.SKIP_DIRS = false) dnames
    /\ path = path_join (descend dirpath dnames) filename
    /\ SemanticsLint.mem (lower (SemanticsLint.suffix path)) SemanticsLint.EXTENSIONS
       = true.

(** [x] stands at two places of [l]. *)
Definition twice {A : Type} (x : A) (l : list A) : Prop :=
  exists l1 l2 l3, l = (l1 ++ x :: l2 ++ x :: l3)%list.

Module Worlds.

(** An engine that keeps the scripts it ran and rejects a script that
    names a table that does not exist. *)
Definition strict_engine : Sqlite :=
  {| conn := list string;
     connect := [];
     execute := fun c sql params => (c, Ok []);
     executescript := fun c sql =>
       if contains "no_such_table" sql
       then (c, Raised (DatabaseError "no such table: no_such_table"))
       else ((c ++ [sql])%list, Ok tt) |}.

(** A repository with three migrations, the second of them broken. *)
Definition broken_migration : World :=
  {| repo_root := "/repo";
     dirs := fun p =>
       if String.eqb p "/repo/migrations"
       then Some ["001.sql"; "002.sql"; "003.sql"]
       else None;
     files := fun p =>
       if String.eqb p "/repo/migrations/001.sql"
       then Some "CREATE TABLE events (event_id);"
       else if String.eqb p "/repo/migrations/002.sql"
            then Some "ALTER TABLE no_such_table ADD x;"
            else if String.eqb p "/repo/migrations/003.sql"
                 then Some "CREATE TABLE receipts (receipt_id);"
                 else None;
     now := 1700000000%Z;
     db := strict_engine |}.

(** The passing repository of the examples, one second later. *)
Definition a_second_later : World :=
  {| repo_root := repo_root Examples.passing;
     dirs := dirs Examples.passing;
     files := files Examples.passing;
     now := 1700000001%Z;
     db := db Examples.passing |}.

(** A tree whose [src] holds a [presentation] directory with one page. *)
Definition pages : list SemanticsLint.entry :=
  [SemanticsLint.EFile "home.md" (Some "Connect your wallet")].

Definition nested_site : SemanticsLint.Tree :=
  {| SemanticsLint.tree_root := "/repo";
     SemanticsLint.at_path := fun p =>
       if String.eqb p "/repo/src"
       then Some (SemanticsLint.EDir "src" [SemanticsLint.EDir "presentation" pages])
       else if String.eqb p "/repo/src/presentation"
            then Some (SemanticsLint.EDir "presentation" pages)
            else None |}.

(** A tree with a note that lies outside the repository. *)
Definition with_outside_note : SemanticsLint.Tree :=
  {| SemanticsLint.tree_root := "/repo";
     SemanticsLint.at_path := fun p =>
       if String.eqb p "/tmp/note.txt"
       then Some (SemanticsLint.EFile "note.txt" (Some "low gas fees"))
       else None |}.

(** The passing repository with a directory named [kernel.ts] at its
    root: something exists at the first place of the scan, and it cannot
    be read as text. *)
Definition kernel_is_directory : World :=
  {| repo_root := repo_root Examples.passing;
     dirs := fun p =>
       if String.eqb p "/repo/kernel.ts" then Some []
       else dirs Examples.passing p;
     files := fun p =>
       if String.eqb p "/repo/kernel.ts" then None
       else files Examples.passing p;
     now := now Examples.passing;
     db := db Examples.passing |}.

End Worlds.

(* ================================================================== *)
(** * Vocabulary of the specification: tags, attempts, phases *)
(* ================================================================== *)


(** How a run fails: with [SystemExit], or with an exception that
    nothing catches. *)
Inductive failure : Type :=
| Exited (arg : exit_arg)
| Stopped (e : exn).

(** The states of a guardian run, as the specification names them.  The
    Prover is entered with the two identifiers the Seeder returned. *)
Inductive phase : Type :=
| AtLoad
| AtVerify
| AtSeed
| AtProve (event_id receipt_id : string)
| AtScan
| Passed
| Failed (f : failure).

Definition stage_at (ph : phase) : option stage :=
  match ph with
  | AtLoad => Some StLoad
  | AtVerify => Some StVerify
  | AtSeed => Some StSeed
  | AtProve _ _ => Some StProve
  | AtScan => Some StScan
  | Passed => None
  | Failed _ => None
  end.

(** The transitions of the specification: each stage to the next one,
    the last to [Passed], and every stage to [Failed]. *)
Inductive follows : phase -> phase -> Prop :=
| load_verify : follows AtLoad AtVerify
| verify_seed : follows AtVerify AtSeed
| seed_prove (event_id receipt_id : string) :
    follows AtSeed (AtProve event_id receipt_id)
| prove_scan (event_id receipt_id : string) :
    follows (AtProve event_id receipt_id) AtScan
| scan_passed : follows AtScan Passed
| stage_failed (ph : phase) (s : stage) (f : failure) :
    stage_at ph = Some s -> follows ph (Failed f).

(** A part of the body of the [with] block of [main]: when it stops, the
    connection rolls back and what was raised goes on. *)
Definition in_connection {w : World} {A : Type} (body : M w A) : M w A :=
  fun st =>
    match body st with
    | (Return a, st') => (Return a, st')
    | (Exit arg, st') => (emit Rollback ;;; system_exit arg) st'
    | (Raise e, st') => (emit Rollback ;;; raise e) st'
    end.

(** The lines of [main], stage by stage. *)
Definition load_stage (w : World) : M w unit :=
  print Guardian.banner ;;;
  sql_files <- Guardian.find_sql_migrations w ;;
  in_connection
    (emit Connect ;;;
     db_execute_ w "PRAGMA foreign_keys = ON" [] ;;;
     Guardian.apply_migrations w sql_files).

Definition verify_stage (w : World) : M w unit :=
  in_connection
    (Guardian.require_immutable_table w "events" ;;;
     Guardian.require_immutable_table w "receipts").

Definition seed_stage (w : World) : M w (string * string) :=
  in_connection
    ('(user_id, agent_id, now) <- Guardian.seed_actor w ;;
     event_id <- Guardian.insert_event w user_id agent_id now ;;
     receipt_id <- Guardian.insert_receipt w user_id agent_id event_id now ;;
     ret (event_id, receipt_id)).

Definition prove_stage (w : World) (event_id receipt_id : string) : M w unit :=
  in_connection
    (Guardian.prove_immutable_by_writes w "events" "event_id" event_id "type" ;;;
     Guardian.prove_immutable_by_writes w "receipts" "receipt_id" receipt_id
       "what_happened") ;;;
  emit Commit.

Definition scan_stage (w : World) : M w unit :=
  Guardian.scan_for_ghost_state w ;;;
  print Guardian.checks_passed.

(** One transition: the stage runs from the state [st]; when it returns
    the run moves to the phase [k] gives, and when it stops the run has
    failed. *)
Definition transition {w : World} {A : Type} (m : M w A) (k : A -> phase)
  (st : state w) : phase * state w :=
  match m st with
  | (Return a, st') => (k a, st')
  | (Exit arg, st') => (Failed (Exited arg), st')
  | (Raise e, st') => (Failed (Stopped e), st')
  end.

Definition next (w : World) (c : phase * state w) : phase * state w :=
  match fst c with
  | AtLoad => transition (load_stage w) (fun _ => AtVerify) (snd c)
  | AtVerify => transition (verify_stage w) (fun _ => AtSeed) (snd c)
  | AtSeed => transition (seed_stage w) (fun ids => AtProve (fst ids) (snd ids)) (snd c)
  | AtProve event_id receipt_id =>
      transition (prove_stage w event_id receipt_id) (fun _ => AtScan) (snd c)
  | AtScan => transition (scan_stage w) (fun _ => Passed) (snd c)
  | Passed => c
  | Failed _ => c
  end.

(** The phase a run ends in. *)
Definition final (o : outcome unit) : phase :=
  match o with
  | Return _ => Passed
  | Exit arg => Failed (Exited arg)
  | Raise e => Failed (Stopped e)
  end.

(** The machine after [n] transitions from the start of a run. *)
Definition at_step (w : World) (n : nat) : phase * state w :=
  Nat.iter n (next w) (AtLoad, start w).

(** What a stage adds to the trace: actions of the stage [s] or of no
    stage, one of the stage at least; and when it exits, its message is
    one of the stage. *)
Definition staged {A : Type} (s : stage) (o : outcome A) (d : list action)
  : Prop :=
  bounded (rank s) (rank s) d
  /\ forall arg, o = Exit arg -> failing_stage arg = Some s.

(** Every run of [m] adds actions to the trace, the action [a] among them. *)
Definition occurs {w : World} {A : Type} (a : action) (m : M w A) : Prop :=
  forall st, exists d, st_trace (snd (m st)) = (st_trace st ++ d)%list /\ In a d.

Definition grows {w : World} {A : Type} (m : M w A) : Prop :=
  forall st, exists d, st_trace (snd (m st)) = (st_trace st ++ d)%list.

(** An attempt of the Prover: the statement, its parameters, and the
    operation and table it is reported under. *)
Definition attempt : Type := (string * list value * string)%type.

(** The four attempts of the specification, on the seeded event and the
    seeded receipt: for each table the update of a column to itself, then
    the delete by primary key. *)
Definition attempts (event_id receipt_id : string) : list attempt :=
  [ ("UPDATE events SET type = type WHERE event_id = ?",
     [VText event_id], "UPDATE on events");
    ("DELETE FROM events WHERE event_id = ?",
     [VText event_id], "DELETE on events");
    ("UPDATE receipts SET what_happened = what_happened WHERE receipt_id = ?",
     [VText receipt_id], "UPDATE on receipts");
    ("DELETE FROM receipts WHERE receipt_id = ?",
     [VText receipt_id], "DELETE on receipts") ].

(** The attempts as the specification has them, against the engine: each
    statement is executed in its turn; one the database rejects is a pass,
    reported on a line, and the next one follows; one that runs without
    error ends the attempts with the append-only failure that names the
    operation and the table; any other exception ends them as it is. *)
Fixpoint attempt_all (d : Sqlite) (c : conn d) (l : list attempt)
  : list action * option failure :=
  match l with
  | [] => ([], None)
  | (sql, params, label) :: l' =>
      let (c', r) := execute d c sql params in
      match r with
      | Raised (DatabaseError _) =>
          let (acts, f) := attempt_all d c' l' in
          (Execute sql params
           :: PrintLine ("[OK] " ++ label ++ " blocked as expected.") :: acts, f)
      | Raised e => ([Execute sql params], Some (Stopped e))
      | Ok _ =>
          ([Execute sql params],
           Some (Exited (Message ("[FAIL] " ++ label
                                  ++ " was allowed; table is not append-only."))))
      end
  end.

(* ================================================================== *)
(** * Properties *)
(* ================================================================== *)

(** ** Strings *)

Lemma append_nil_r (s : string) : s ++ "" = s.
Proof. induction s; simpl; congruence. Qed.

Lemma append_assoc (a b c : string) : (a ++ b) ++ c = a ++ (b ++ c).
Proof. induction a; simpl; congruence. Qed.

Lemma length_append (a b : string) :
  String.length (a ++ b) = String.length a + String.length b.
Proof. induction a; simpl; congruence. Qed.

Lemma lower_append (a b : string) : lower (a ++ b) = lower a ++ lower b.
Proof. induction a; simpl; congruence. Qed.

Lemma lower_append_inv (s a b : string) :
  lower s = a ++ b -> exists a' b', s = a' ++ b' /\ lower a' = a /\ lower b' = b.
Proof.
  revert s. induction a as [|x a IH]; intros s H; simpl in H.
  - exists "", s. auto.
  - destruct s as [|y s]; simpl in H; [discriminate|].
    injection H as Hx Hs. destruct (IH _ Hs) as (a' & b' & -> & Ha & Hb).
    exists (String y a'), b'. simpl. rewrite Hx, Ha. auto.
Qed.

Lemma startswith_spec (p s : string) :
  startswith p s = true <-> exists post, s = p ++ post.
Proof.
  revert s. induction p as [|a p IH]; intros s; simpl.
  - split; eauto.
  - destruct s as [|b s].
    + split; [discriminate|]. intros [post H]. discriminate.
    + rewrite andb_true_iff, IH. split.
      * intros [Hab [post ->]]. apply Ascii.eqb_eq in Hab. subst. eauto.
      * intros [post H]. injection H as -> ->. split; [apply Ascii.eqb_refl|eauto].
Qed.

Lemma contains_spec (sub s : string) :
  contains sub s = true <-> exists pre post, s = pre ++ sub ++ post.
Proof.
  induction s as [|c s IH]; simpl; rewrite orb_true_iff, startswith_spec.
  - split.
    + intros [[post H]|H]; [|discriminate]. exists "", post. exact H.
    + intros (pre & post & H). left. destruct pre; [eauto|discriminate].
  - rewrite IH. split.
    + intros [[post H]|(pre & post & ->)].
      * exists "", post. exact H.
      * exists (String c pre), post. reflexivity.
    + intros (pre & post & H). destruct pre as [|x pre]; simpl in H.
      * left. eauto.
      * right. injection H as -> ->. eauto.
Qed.

(** [tok in s.lower()] is the case-insensitive occurrence of [tok]. *)
Lemma contains_lower (tok s : string) :
  contains tok (lower s) = true <-> mentions tok s.
Proof.
  rewrite contains_spec. unfold mentions. split.
  - intros (pre & post & H).
    apply lower_append_inv in H as (pre' & r & -> & _ & Hr).
    apply lower_append_inv in Hr as (mid & post' & -> & Hm & _).
    eauto.
  - intros (pre & mid & post & -> & <-).
    exists (lower pre), (lower post). now rewrite !lower_append.
Qed.

(** ** The run monad *)

Lemma bind_eq {w : World} {A B : Type} (m : M w A) (k : A -> M w B) (st : state w) :
  bind m k st =
  match m st with
  | (Return a, st') => k a st'
  | (Exit arg, st') => (Exit arg, st')
  | (Raise e, st') => (Raise e, st')
  end.
Proof. reflexivity. Qed.

(** ** The migration loader *)

Lemma insert_sorted_perm (x : string) (l : list string) :
  Permutation (x :: l) (Guardian.insert_sorted x l).
Proof.
  induction l as [|y l IH]; simpl.
  - apply Permutation_refl.
  - destruct (x <=? y)%string.
    + apply Permutation_refl.
    + eapply Permutation_trans; [apply perm_swap|].
      now apply perm_skip.
Qed.

Lemma sorted_perm (l : list string) : Permutation l (Guardian.sorted l).
Proof.
  induction l as [|x l IH]; simpl.
  - constructor.
  - eapply Permutation_trans; [|apply insert_sorted_perm].
    now apply perm_skip.
Qed.

Lemma insert_sorted_Sorted (x : string) (l : list string) :
  Sorted str_le l -> Sorted str_le (Guardian.insert_sorted x l).
Proof.
  induction 1 as [|y l Hs IH Hhd]; simpl.
  - repeat constructor.
  - destruct (x <=? y)%string eqn:E.
    + constructor; [constructor; assumption|]. constructor. exact E.
    + constructor; [exact IH|].
      assert (Hyx : str_le y x).
      { destruct (String.leb_total x y) as [H|H]; [congruence|exact H]. }
      destruct Hhd as [|z l' Hyz]; simpl.
      * constructor. exact Hyx.
      * destruct (x <=? z)%string; constructor; assumption.
Qed.

Lemma sorted_Sorted (l : list string) : Sorted str_le (Guardian.sorted l).
Proof.
  induction l; simpl; [constructor|]. now apply insert_sorted_Sorted.
Qed.

Lemma probe_returns (w : World) (acc : list string) (c : string) (st : state w) :
  exists st',
    probe w acc c st = (Return (acc ++ Guardian.sorted (sql_paths w c))%list, st').
Proof.
  unfold probe, path_exists, Guardian.glob_sql, sql_paths, bind, emit, ret.
  destruct (dirs w c) as [names|]; simpl.
  - eexists. reflexivity.
  - destruct (files w c); simpl; rewrite ?app_nil_r; eexists; reflexivity.
Qed.

Lemma probe_all (w : World) (l : list string) (acc : list string) (st : state w) :
  exists st',
    for_fold l acc (probe w) st =
    (Return (acc ++ concat (map (fun d => Guardian.sorted (sql_paths w d)) l))%list, st').
Proof.
  revert acc st. induction l as [|c l IH]; intros acc st; simpl.
  - rewrite app_nil_r. eexists. reflexivity.
  - rewrite bind_eq. destruct (probe_returns w acc c st) as [st1 ->].
    destruct (IH (acc ++ Guardian.sorted (sql_paths w c))%list st1) as [st2 ->].
    rewrite <- app_assoc. eexists. reflexivity.
Qed.

Lemma find_sql_migrations_eq (w : World) (st : state w) :
  fst (Guardian.find_sql_migrations w st) =
  match concat (sql_blocks w) with
  | [] => Exit (Message Guardian.no_migrations)
  | l => Return l
  end.
Proof.
  unfold Guardian.find_sql_migrations. rewrite bind_eq.
  change (fun sql_files candidate => _) with (probe w).
  destruct (probe_all w (Guardian.candidates w) [] st) as [st' ->].
  simpl app. fold (sql_blocks w).
  destruct (concat (sql_blocks w)); reflexivity.
Qed.

Lemma first_nonempty_prefix (blocks : list (list string)) :
  match first_nonempty blocks with
  | Some b => b <> [] /\ exists more, concat blocks = (b ++ more)%list
  | None => concat blocks = []
  end.
Proof.
  induction blocks as [|b blocks IH]; simpl; [reflexivity|].
  destruct b as [|x b]; simpl.
  - exact IH.
  - split; [discriminate|]. exists (concat blocks). reflexivity.
Qed.

(** C1 (as the code has it).  Migration discovery returns the sorted
    [.sql] paths of every candidate directory, one directory after the
    other in the order of the candidates: each block is sorted and holds
    exactly the matching paths of its directory; the result therefore
    starts with the files of the first directory that has any, and the
    files of the later directories follow.  It exits with the NotFound
    message exactly when no candidate has a file. *)
Theorem find_sql_migrations_concatenates (w : World) (st : state w) :
  fst (Guardian.find_sql_migrations w st) =
    match concat (sql_blocks w) with
    | [] => Exit (Message Guardian.no_migrations)
    | l => Return l
    end
  /\ Forall2 (fun dir b => Sorted str_le b /\ Permutation (sql_paths w dir) b)
       (Guardian.candidates w) (sql_blocks w)
  /\ match first_nonempty (sql_blocks w) with
     | Some b => b <> [] /\ exists more, concat (sql_blocks w) = (b ++ more)%list
     | None => concat (sql_blocks w) = []
     end.
Proof.
  split; [apply find_sql_migrations_eq|]. split.
  - unfold sql_blocks. induction (Guardian.candidates w) as [|c l IH]; simpl.
    + constructor.
    + constructor; [|exact IH]. split.
      * apply sorted_Sorted.
      * apply sorted_perm.
  - apply first_nonempty_prefix.
Qed.

(** C1 (as stated) fails: with [.sql] files in [migrations/] and in
    [db/migrations/], the result holds the files of both directories,
    not those of the first one alone. *)
Lemma find_sql_migrations_merges :
  spec_find_sql_migrations Examples.passing =
    Return ["/repo/migrations/001_init.sql"; "/repo/migrations/002_triggers.sql"]
  /\ fst (Guardian.find_sql_migrations Examples.passing (start Examples.passing)) =
    Return ["/repo/migrations/001_init.sql"; "/repo/migrations/002_triggers.sql";
            "/repo/db/migrations/000_legacy.sql"]
  /\ fst (Guardian.find_sql_migrations Examples.passing (start Examples.passing))
     <> spec_find_sql_migrations Examples.passing.
Proof.
  split; [vm_compute; reflexivity|]. split; [vm_compute; reflexivity|].
  vm_compute. discriminate.
Qed.

(** ** The immutability verifier *)

Lemma verdict_iff (blob : string) :
  contains "update" (lower blob) && contains "delete" (lower blob)
  && (contains "raise" (lower blob) || contains "abort" (lower blob)) = true
  <-> blocks_writes blob.
Proof.
  unfold blocks_writes.
  rewrite !andb_true_iff, orb_true_iff, !contains_lower. tauto.
Qed.




(** ** The write-attempt prover *)

Lemma assert_blocked_eq (w : World) (sql : string) (params : list value)
  (label : string) (st : state w) :
  Guardian.assert_blocked w sql params label st =
  let (c', r) := execute (db w) (st_conn st) sql params in
  match r with
  | Raised (DatabaseError _) =>
      (Return tt, MkState c' (st_trace st ++ [Execute sql params;
                                              PrintLine (Guardian.blocked label)]))
  | Raised e => (Raise e, MkState c' (st_trace st ++ [Execute sql params]))
  | Ok _ => (Exit (Message (Guardian.allowed label)),
             MkState c' (st_trace st ++ [Execute sql params]))
  end.
Proof.
  unfold Guardian.assert_blocked, db_execute, bind, print, emit, system_exit, raise.
  destruct (execute (db w) (st_conn st) sql params) as [c' [rows|[msg|msg]]];
    cbn [st_conn st_trace]; rewrite <- ?app_assoc; reflexivity.
Qed.

(** ** The ghost-state scanner *)

Lemma path_exists_eq (w : World) (p : string) (st : state w) :
  path_exists w p st = (Return (present w p), extend st [PathExists p]).
Proof.
  unfold path_exists, present, bind, emit, ret, extend. reflexivity.
Qed.

Lemma print_eq (w : World) (line : string) (st : state w) :
  print line st = (Return tt, extend st [PrintLine line]).
Proof. reflexivity. Qed.

Lemma extend_extend (w : World) (st : state w) (d1 d2 : list action) :
  extend (extend st d1) d2 = extend st (d1 ++ d2).
Proof. unfold extend. cbn. now rewrite app_assoc. Qed.

Lemma for_each_print {A : Type} (w : World) (f : A -> string) (l : list A)
  (st : state w) :
  for_each l (fun h => print (f h)) st =
  (Return tt, extend st (map (fun h => PrintLine (f h)) l)).
Proof.
  revert st. induction l as [|h l IH]; intros st; simpl.
  - unfold ret, extend. rewrite app_nil_r. now destruct st.
  - rewrite bind_eq, print_eq, IH, extend_extend. reflexivity.
Qed.

Lemma stdout_app (a b : list action) : stdout (a ++ b) = (stdout a ++ stdout b)%list.
Proof.
  induction a as [|x a IH]; simpl; [reflexivity|].
  destruct x; simpl; now rewrite IH.
Qed.

Lemma stdout_prints {A : Type} (f : A -> string) (l : list A) :
  stdout (map (fun h => PrintLine (f h)) l) = map f l.
Proof. induction l; simpl; congruence. Qed.

Lemma read_text_eq (w : World) (p : string) (st : state w) :
  Guardian.read_text w p st =
  match files w p with
  | Some text => (Return text, extend st [ReadText p])
  | None => (Raise (OtherError ("cannot read " ++ p)), extend st [ReadText p])
  end.
Proof.
  unfold Guardian.read_text, bind, emit, ret, raise, extend.
  destruct (files w p); reflexivity.
Qed.

(** One call of a sequence: unfold the [bind], rewrite the call with its
    equation, and go on with what follows. *)
Ltac mstep lem := rewrite bind_eq, lem; cbv beta iota.

(** The scanner after a path has been chosen. *)
Lemma scan_tail_eq (w : World) (p : string) (st : state w) :
  (text <- Guardian.read_text w p ;;
   match Guardian.ghost_hits text with
   | _ :: _ =>
       print Guardian.ghost_header ;;;
       for_each (firstn 25 (Guardian.ghost_hits text))
         (fun h => print (Guardian.finding_line h)) ;;;
       system_exit (Message Guardian.ghost_failed)
   | [] => print Guardian.ghost_passed
   end) st =
  match files w p with
  | None => (Raise (OtherError ("cannot read " ++ p)), extend st [ReadText p])
  | Some text =>
      match Guardian.ghost_hits text with
      | [] => (Return tt, extend st [ReadText p; PrintLine Guardian.ghost_passed])
      | hits =>
          (Exit (Message Guardian.ghost_failed),
           extend st (ReadText p :: PrintLine Guardian.ghost_header ::
                      map (fun h => PrintLine (Guardian.finding_line h)) (firstn 25 hits)))
      end
  end.
Proof.
  mstep read_text_eq.
  destruct (files w p) as [text|]; [|reflexivity].
  destruct (Guardian.ghost_hits text) as [|h hits] eqn:E.
  - rewrite print_eq, extend_extend. reflexivity.
  - mstep print_eq. mstep (for_each_print w Guardian.finding_line).
    unfold system_exit. rewrite !extend_extend. reflexivity.
Qed.

Lemma ret_bind {w : World} {A B : Type} (a : A) (k : A -> M w B) (st : state w) :
  bind (ret a) k st = k a st.
Proof. reflexivity. Qed.

Lemma bind_assoc {w : World} {A B C : Type} (m : M w A) (k : A -> M w B)
  (k' : B -> M w C) (st : state w) :
  bind (bind m k) k' st = bind m (fun a => bind (k a) k') st.
Proof. unfold bind. destruct (m st) as [[a|arg|e] st']; reflexivity. Qed.

Lemma scan_for_ghost_state_eq (w : World) :
  exists probes,
    Forall (kernel_probe w) probes /\
    forall st : state w,
      Guardian.scan_for_ghost_state w st =
      (fst (scan_verdict w), extend st (probes ++ snd (scan_verdict w))).
Proof.
  unfold Guardian.scan_for_ghost_state, scan_verdict, located, kernel_candidates.
  set (c1 := path_join (repo_root w) "kernel.ts").
  set (c2 := path_join (path_join (repo_root w) "src") "kernel.ts").
  set (c3 := path_join (path_join (path_join (repo_root w) "src") "kernel") "kernel.ts").
  assert (P1 : kernel_probe w (PathExists c1)) by (exists c1; simpl; auto).
  assert (P2 : kernel_probe w (PathExists c2)) by (exists c2; simpl; auto).
  assert (P3 : kernel_probe w (PathExists c3)) by (exists c3; simpl; auto).
  cbn [find].
  destruct (present w c1) eqn:E1;
    [|destruct (present w c2) eqn:E2; [|destruct (present w c3) eqn:E3]].
  - exists [PathExists c1; PathExists c1]. split; [repeat constructor; assumption|].
    intros st. mstep path_exists_eq. rewrite E1. cbv iota. rewrite ret_bind.
    mstep path_exists_eq. rewrite E1. cbn [negb].
    rewrite scan_tail_eq.
    destruct (files w c1) as [text|]; [destruct (Guardian.ghost_hits text)|];
      rewrite !extend_extend; reflexivity.
  - exists [PathExists c1; PathExists c2; PathExists c2].
    split; [repeat constructor; assumption|].
    intros st. mstep path_exists_eq. rewrite E1. cbv iota. rewrite bind_assoc.
    mstep path_exists_eq. rewrite E2. cbv iota. rewrite ret_bind.
    mstep path_exists_eq. rewrite E2. cbn [negb].
    rewrite scan_tail_eq.
    destruct (files w c2) as [text|]; [destruct (Guardian.ghost_hits text)|];
      rewrite !extend_extend; reflexivity.
  - exists [PathExists c1; PathExists c2; PathExists c3; PathExists c3].
    split; [repeat constructor; assumption|].
    intros st. mstep path_exists_eq. rewrite E1. cbv iota. rewrite bind_assoc.
    mstep path_exists_eq. rewrite E2. cbv iota. rewrite bind_assoc.
    mstep path_exists_eq. rewrite E3. cbv iota. rewrite ret_bind.
    mstep path_exists_eq. rewrite E3. cbn [negb].
    rewrite scan_tail_eq.
    destruct (files w c3) as [text|]; [destruct (Guardian.ghost_hits text)|];
      rewrite !extend_extend; reflexivity.
  - exists [PathExists c1; PathExists c2; PathExists c3; PathExists c1].
    split; [repeat constructor; assumption|].
    intros st. mstep path_exists_eq. rewrite E1. cbv iota. rewrite bind_assoc.
    mstep path_exists_eq. rewrite E2. cbv iota. rewrite bind_assoc.
    mstep path_exists_eq. rewrite E3. cbv iota. rewrite ret_bind.
    mstep path_exists_eq. rewrite E1. cbn [negb].
    rewrite print_eq, !extend_extend. reflexivity.
Qed.

Lemma stdout_probes (w : World) (probes : list action) :
  Forall (kernel_probe w) probes -> stdout probes = [].
Proof.
  induction 1 as [|a l [p [-> _]] _ IH]; simpl; [reflexivity|exact IH].
Qed.

Lemma firstn_25_length {A : Type} (l : list A) : List.length (firstn 25 l) <= 25.
Proof. apply firstn_le_length. Qed.

(** ** The shape of a run *)

Lemma stages_app (a b : list action) : stages (a ++ b) = (stages a ++ stages b)%list.
Proof.
  induction a as [|x a IH]; simpl; [reflexivity|].
  destruct (stage_of x); simpl; now rewrite IH.
Qed.

Lemma executed_app (a b : list action) :
  executed (a ++ b) = (executed a ++ executed b)%list.
Proof.
  induction a as [|x a IH]; simpl; [reflexivity|].
  destruct x; simpl; now rewrite IH.
Qed.

Lemma bounded_app (lo hi : nat) (a b : list action) :
  bounded lo hi a -> bounded lo hi b -> bounded lo hi (a ++ b).
Proof.
  unfold bounded. rewrite stages_app. intros Ha Hb. apply Forall_app. now split.
Qed.

Lemma bounded_weaken (lo hi lo' hi' : nat) (d : list action) :
  lo' <= lo -> hi <= hi' -> bounded lo hi d -> bounded lo' hi' d.
Proof.
  unfold bounded. intros Hlo Hhi H.
  eapply Forall_impl; [|exact H]. simpl. lia.
Qed.

Lemma sorted_app (l1 l2 : list nat) (m : nat) :
  StronglySorted le l1 -> StronglySorted le l2 ->
  Forall (fun n => n <= m) l1 -> Forall (fun n => m <= n) l2 ->
  StronglySorted le (l1 ++ l2).
Proof.
  intros H1 H2 B1 B2. induction H1 as [|x l1 Hs IH Hx]; simpl; [exact H2|].
  inversion B1 as [|? ? Bx Bl]; subst.
  constructor; [apply IH; assumption|].
  apply Forall_app. split; [exact Hx|].
  eapply Forall_impl; [|exact B2]. simpl. lia.
Qed.

Lemma stages_sorted_app (lo1 hi1 lo2 hi2 : nat) (d1 d2 : list action) :
  hi1 <= lo2 ->
  StronglySorted le (stages d1) -> StronglySorted le (stages d2) ->
  bounded lo1 hi1 d1 -> bounded lo2 hi2 d2 ->
  StronglySorted le (stages (d1 ++ d2)).
Proof.
  intros H S1 S2 B1 B2. rewrite stages_app.
  apply (sorted_app _ _ hi1); try assumption.
  - eapply Forall_impl; [|exact B1]. simpl. lia.
  - eapply Forall_impl; [|exact B2]. simpl. lia.
Qed.

(** A call, then what follows it. *)
Lemma shaped_bind {w : World} {A B : Type} (m : M w A) (k : A -> M w B)
  (s1 s2 : list stmt) (lo1 hi1 lo2 hi2 : nat) (l1 l2 : list string)
  (R : A -> Prop) (R' : B -> Prop) :
  lo1 <= hi1 -> hi1 <= lo2 -> lo2 <= hi2 ->
  triple m (shaped s1 lo1 hi1 l1 R) ->
  (forall a, R a -> triple (k a) (shaped s2 lo2 hi2 l2 R')) ->
  triple (bind m k) (shaped (s1 ++ s2) lo1 hi2 (l1 ++ l2) R').
Proof.
  intros H1 H12 H2 Hm Hk st.
  destruct (Hm st) as (o1 & c1 & d1 & E1 & S1 & B1 & P1).
  rewrite bind_eq, E1. destruct o1 as [a|arg|e].
  - destruct P1 as (Ra & X1 & L1).
    destruct (Hk a Ra (MkState c1 (st_trace st ++ d1)))
      as (o2 & c2 & d2 & E2 & S2 & B2 & P2).
    exists o2, c2, (d1 ++ d2)%list. cbn [st_trace] in E2.
    rewrite E2, app_assoc. split; [reflexivity|].
    split; [apply (stages_sorted_app lo1 hi1 lo2 hi2); assumption|].
    split; [apply bounded_app;
            [apply (bounded_weaken lo1 hi1); [lia|lia|exact B1]
            |apply (bounded_weaken lo2 hi2); [lia|lia|exact B2]]|].
    rewrite executed_app, stdout_app, X1, L1.
    destruct o2 as [b|arg|e].
    + destruct P2 as (Rb & X2 & L2). rewrite X2, L2. auto.
    + destruct P2 as ((rest & ->) & s & Fs & Hs & Bs). split.
      * exists rest. now rewrite app_assoc.
      * exists s. split; [exact Fs|]. split; [lia|].
        apply bounded_app;
          [apply (bounded_weaken lo1 hi1); [lia|lia|exact B1]
          |apply (bounded_weaken lo2 (rank s)); [lia|lia|exact Bs]].
    + destruct P2 as (rest & ->). exists rest. now rewrite app_assoc.
  - exists (Exit arg), c1, d1. split; [reflexivity|].
    split; [exact S1|].
    split; [apply (bounded_weaken lo1 hi1); [lia|lia|exact B1]|].
    destruct P1 as ((rest & ->) & s & Fs & Hs & Bs). split.
    + exists (rest ++ s2)%list. now rewrite app_assoc.
    + exists s. split; [exact Fs|]. split; [lia|exact Bs].
  - exists (Raise e), c1, d1. split; [reflexivity|].
    split; [exact S1|].
    split; [apply (bounded_weaken lo1 hi1); [lia|lia|exact B1]|].
    destruct P1 as (rest & ->). exists (rest ++ s2)%list. now rewrite app_assoc.
Qed.

Lemma shaped_cast {w : World} {A : Type} (m : M w A)
  (s s' : list stmt) (lo hi : nat) (l l' : list string) (R : A -> Prop) :
  s = s' -> l = l' ->
  triple m (shaped s lo hi l R) -> triple m (shaped s' lo hi l' R).
Proof. intros <- <-. auto. Qed.

(** The calls that make up a run. *)
Lemma shaped_print {w : World} (line : string) (lo hi : nat) :
  triple (w := w) (print line) (shaped [] lo hi [line] (fun _ => True)).
Proof.
  intros st. exists (Return tt), (st_conn st), [PrintLine line].
  split; [reflexivity|]. repeat split; constructor.
Qed.

Lemma shaped_emit_staged {w : World} (a : action) (s : stage) :
  stage_of a = Some s -> stdout [a] = [] -> executed [a] = [] ->
  triple (w := w) (emit a) (shaped [] (rank s) (rank s) [] (fun _ => True)).
Proof.
  intros Hs Ho He st. exists (Return tt), (st_conn st), [a].
  split; [reflexivity|]. unfold shaped, bounded. simpl stages. rewrite Hs.
  repeat split; try assumption; repeat constructor.
Qed.

Lemma shaped_execute {w : World} (sql : string) (params : list value) (s : stage) :
  stage_of_sql sql = Some s ->
  triple (db_execute_ w sql params)
    (shaped [(sql, params)] (rank s) (rank s) [] (fun _ => True)).
Proof.
  intros Hs st. unfold db_execute_, db_execute. rewrite bind_eq.
  destruct (execute (db w) (st_conn st) sql params) as [c' [rows|e]];
    [exists (Return rows) | exists (Raise e)];
    exists c', [Execute sql params]; (split; [reflexivity|]);
    unfold shaped, bounded; simpl stages; rewrite Hs;
    (split; [repeat constructor|]); (split; [repeat constructor|]).
  - simpl. auto.
  - exists []. reflexivity.
Qed.

Lemma substring_skip (a b : string) (n m : nat) :
  substring (String.length a + n) m (a ++ b) = substring n m b.
Proof. induction a; simpl; auto. Qed.

Lemma endswith_append (p a b : string) :
  String.length p <= String.length b -> endswith p (a ++ b) = endswith p b.
Proof.
  intros H. unfold endswith. rewrite length_append.
  replace (String.length a + String.length b - String.length p)
    with (String.length a + (String.length b - String.length p)) by lia.
  rewrite substring_skip. f_equal.
  assert (H1 : (String.length p <=? String.length b) = true)
    by (apply Nat.leb_le; exact H).
  rewrite H1. apply Nat.leb_le. lia.
Qed.

Lemma migrations_not_kernel (a : string) :
  endswith "kernel.ts" (path_join a "migrations") = false.
Proof. unfold path_join. rewrite endswith_append; [reflexivity|simpl; lia]. Qed.

Lemma kernel_is_kernel (a : string) :
  endswith "kernel.ts" (path_join a "kernel.ts") = true.
Proof. unfold path_join. rewrite endswith_append; [reflexivity|simpl; lia]. Qed.

Lemma quiet_app (s : stage) (a b : list action) :
  quiet s a -> quiet s b -> quiet s (a ++ b).
Proof. intros Ha Hb. apply Forall_app. now split. Qed.

Lemma quiet_stages (s : stage) (d : list action) :
  quiet s d -> Forall (fun n => n = rank s) (stages d).
Proof.
  induction 1 as [|a d [[Hs|Hs] _] _ IH]; simpl; [constructor| |];
    rewrite Hs; [constructor; auto|exact IH].
Qed.

Lemma quiet_sorted (s : stage) (d : list action) :
  quiet s d -> StronglySorted le (stages d).
Proof.
  intros H. apply quiet_stages in H.
  induction H as [|n l -> Hl IH]; constructor; [exact IH|].
  eapply Forall_impl; [|exact Hl]. simpl. lia.
Qed.

Lemma quiet_bounded (s : stage) (d : list action) :
  quiet s d -> bounded (rank s) (rank s) d.
Proof.
  intros H. apply quiet_stages in H. unfold bounded.
  eapply Forall_impl; [|exact H]. simpl. lia.
Qed.

Lemma quiet_executed (s : stage) (d : list action) : quiet s d -> executed d = [].
Proof.
  induction 1 as [|a d (_ & Ha & _) _ IH]; [reflexivity|].
  change (a :: d) with ([a] ++ d)%list. now rewrite executed_app, Ha, IH.
Qed.

Lemma quiet_stdout (s : stage) (d : list action) : quiet s d -> stdout d = [].
Proof.
  induction 1 as [|a d (_ & _ & Ha) _ IH]; [reflexivity|].
  change (a :: d) with ([a] ++ d)%list. now rewrite stdout_app, Ha, IH.
Qed.

(** A call that only adds quiet actions of the stage [s]. *)
Lemma shaped_quiet {A : Type} (s : stage) (R : A -> Prop) (o : outcome A)
  (d : list action) :
  quiet s d ->
  match o with
  | Return a => R a
  | Exit arg => failing_stage arg = Some s
  | Raise _ => True
  end ->
  shaped [] (rank s) (rank s) [] R o d.
Proof.
  intros Hq Ho. split; [eapply quiet_sorted; eassumption|].
  split; [apply quiet_bounded; assumption|].
  rewrite (quiet_executed s d Hq), (quiet_stdout s d Hq).
  destruct o as [a|arg|e].
  - auto.
  - split; [exists []; reflexivity|]. exists s. split; [exact Ho|].
    split; [lia|apply quiet_bounded; assumption].
  - exists []. reflexivity.
Qed.

(** The loader. *)
Lemma probe_quiet (w : World) (acc : list string) (c : string) (st : state w) :
  endswith "kernel.ts" c = false ->
  exists d, quiet StLoad d /\
    probe w acc c st =
    (Return (acc ++ Guardian.sorted (sql_paths w c))%list, extend st d).
Proof.
  intros Hc.
  assert (Q1 : quiet StLoad [PathExists c]).
  { repeat constructor. simpl. rewrite Hc. auto. }
  assert (Q2 : quiet StLoad [PathExists c; Glob (path_join c "*.sql")]).
  { repeat constructor; simpl; rewrite ?Hc; auto. }
  unfold probe. rewrite bind_eq, path_exists_eq. cbv beta iota.
  unfold present, sql_paths.
  destruct (dirs w c) as [names|] eqn:Ed.
  - exists [PathExists c; Glob (path_join c "*.sql")]. split; [exact Q2|].
    unfold Guardian.glob_sql. rewrite Ed.
    unfold bind, emit, ret, extend. cbn. rewrite <- app_assoc. reflexivity.
  - destruct (files w c).
    + exists [PathExists c; Glob (path_join c "*.sql")]. split; [exact Q2|].
      unfold Guardian.glob_sql. rewrite Ed.
      unfold bind, emit, ret, extend. cbn. rewrite <- app_assoc, app_nil_r.
      reflexivity.
    + exists [PathExists c]. split; [exact Q1|].
      unfold ret. cbn. rewrite app_nil_r. reflexivity.
Qed.

Lemma probes_quiet (w : World) (l : list string) (acc : list string) (st : state w) :
  Forall (fun c => endswith "kernel.ts" c = false) l ->
  exists d, quiet StLoad d /\
    for_fold l acc (probe w) st =
    (Return (acc ++ concat (map (fun c => Guardian.sorted (sql_paths w c)) l))%list,
     extend st d).
Proof.
  intros Hl. revert acc st. induction Hl as [|c l Hc _ IH]; intros acc st; simpl.
  - exists []. split; [constructor|]. unfold ret, extend.
    rewrite !app_nil_r. now destruct st.
  - rewrite bind_eq.
    destruct (probe_quiet w acc c st Hc) as (d1 & Q1 & ->).
    destruct (IH (acc ++ Guardian.sorted (sql_paths w c))%list (extend st d1))
      as (d2 & Q2 & ->).
    exists (d1 ++ d2)%list. split; [apply quiet_app; assumption|].
    rewrite <- app_assoc, extend_extend. reflexivity.
Qed.

Lemma candidates_not_kernel (w : World) :
  Forall (fun c => endswith "kernel.ts" c = false) (Guardian.candidates w).
Proof. repeat constructor; apply migrations_not_kernel. Qed.

Lemma shaped_find (w : World) :
  triple (Guardian.find_sql_migrations w) (shaped [] 0 0 [] (fun _ => True)).
Proof.
  intros st. unfold Guardian.find_sql_migrations. rewrite bind_eq.
  change (fun sql_files candidate => _) with (probe w).
  destruct (probes_quiet w (Guardian.candidates w) [] st (candidates_not_kernel w))
    as (d & Q & ->).
  cbn [app]. destruct (concat _) as [|f l].
  - exists (Exit (Message Guardian.no_migrations)), (st_conn st), d.
    split; [reflexivity|]. apply (shaped_quiet StLoad); [exact Q|reflexivity].
  - exists (Return (f :: l)), (st_conn st), d.
    split; [reflexivity|]. apply (shaped_quiet StLoad); [exact Q|exact I].
Qed.

Lemma shaped_ret {w : World} {A : Type} (a : A) (lo hi : nat) :
  triple (w := w) (ret a) (shaped [] lo hi [] (eq a)).
Proof.
  intros st. exists (Return a), (st_conn st), [].
  rewrite app_nil_r. split; [now destruct st|].
  repeat split; constructor.
Qed.

Lemma failed_applying_stage (sql_file msg : string) :
  failing_stage (Message ("Failed applying migration " ++ sql_file ++ ": " ++ msg))
  = Some StLoad.
Proof. reflexivity. Qed.

Lemma apply_each (w : World) (sql_files : list string) (st : state w) :
  exists o c' d,
    for_each sql_files
      (fun sql_file =>
         sql <- Guardian.open_read w sql_file ;;
         r <- db_executescript w sql ;;
         match r with
         | Ok _ => ret tt
         | Raised exc =>
             system_exit (Message ("Failed applying migration " ++ sql_file
                                   ++ ": " ++ exn_message exc))
         end) st = (o, MkState c' (st_trace st ++ d))
    /\ quiet StLoad d
    /\ match o with
       | Return _ => True
       | Exit arg => failing_stage arg = Some StLoad
       | Raise _ => True
       end.
Proof.
  revert st. induction sql_files as [|f l IH]; intros st.
  - exists (Return tt), (st_conn st), []. rewrite app_nil_r.
    split; [now destruct st|]. split; [constructor|exact I].
  - cbn [for_each]. rewrite bind_eq, bind_eq.
    unfold Guardian.open_read at 1. rewrite bind_eq. unfold emit at 1.
    cbv beta iota.
    destruct (files w f) as [text|].
    + unfold ret at 1. cbv beta iota. rewrite bind_eq.
      unfold db_executescript at 1. cbn [st_conn st_trace].
      destruct (executescript (db w) (st_conn st) text) as [c1 [[]|exc]];
        cbv beta iota.
      * unfold ret at 1. cbv beta iota.
        destruct (IH (MkState c1 ((st_trace st ++ [OpenRead f]) ++ [ExecuteScript text])))
          as (o & c' & d & E & Q & Ho).
        rewrite E. cbn [st_trace]. exists o, c', ([OpenRead f; ExecuteScript text] ++ d)%list.
        split; [now rewrite <- !app_assoc|].
        split; [|exact Ho].
        apply quiet_app; [|exact Q]. repeat constructor; simpl; auto.
      * unfold system_exit.
        eexists _, c1, [OpenRead f; ExecuteScript text].
        split; [now rewrite <- !app_assoc|].
        split; [repeat constructor; simpl; auto|]. apply failed_applying_stage.
    + unfold raise. cbv beta iota.
      eexists _, (st_conn st), [OpenRead f].
      split; [reflexivity|]. split; [repeat constructor; simpl; auto|exact I].
Qed.

Lemma shaped_apply (w : World) (sql_files : list string) :
  triple (Guardian.apply_migrations w sql_files)
    (shaped [] 0 0 [] (fun _ => True)).
Proof.
  intros st. unfold Guardian.apply_migrations. rewrite bind_eq.
  destruct (apply_each w sql_files st) as (o & c' & d & -> & Q & Ho).
  destruct o as [[]|arg|e].
  - exists (Return tt), c', (d ++ [Commit])%list.
    split; [unfold emit; cbn; now rewrite app_assoc|].
    apply (shaped_quiet StLoad); [|exact I].
    apply quiet_app; [exact Q|].
    constructor; [|constructor]. split; [right; reflexivity|split; reflexivity].
  - exists (Exit arg), c', d. split; [reflexivity|].
    apply (shaped_quiet StLoad); assumption.
  - exists (Raise e), c', d. split; [reflexivity|].
    apply (shaped_quiet StLoad); assumption.
Qed.

(** The verifier, on a table whose message the stages know. *)
Lemma shaped_require (w : World) (table : string) :
  failing_stage (Message (Guardian.not_immutable table)) = Some StVerify ->
  triple (Guardian.require_immutable_table w table)
    (shaped [(Guardian.select_triggers, [VText table])] 1 1
       [Guardian.appears_immutable table] (fun _ => True)).
Proof.
  intros Hf st.
  unfold Guardian.require_immutable_table, db_execute_, db_execute,
    bind, print, emit, system_exit, raise, ret.
  destruct (execute (db w) (st_conn st) Guardian.select_triggers [VText table])
    as [c' [triggers|e]]; cbn [st_conn st_trace].
  - destruct (Guardian.trigger_sqls triggers) as [sqls|e].
    + match goal with |- context [if ?b then _ else _] => destruct b end.
      * exists (Exit (Message (Guardian.not_immutable table))), c',
          [Execute Guardian.select_triggers [VText table]].
        split; [reflexivity|].
        split; [repeat constructor|]. split; [repeat constructor|].
        split; [exists []; reflexivity|]. exists StVerify.
        split; [exact Hf|]. split; [simpl; lia|repeat constructor].
      * exists (Return tt), c',
          [Execute Guardian.select_triggers [VText table];
           PrintLine (Guardian.appears_immutable table)].
        split; [cbn [st_conn st_trace]; rewrite <- ?app_assoc; reflexivity|].
        split; [repeat constructor|]. split; [repeat constructor|].
        repeat split.
    + exists (Raise e), c', [Execute Guardian.select_triggers [VText table]].
      split; [reflexivity|].
      split; [repeat constructor|]. split; [repeat constructor|].
      exists []. reflexivity.
  - exists (Raise e), c', [Execute Guardian.select_triggers [VText table]].
    split; [reflexivity|].
    split; [repeat constructor|]. split; [repeat constructor|].
    exists []. reflexivity.
Qed.

(** The seeder. *)
Lemma shaped_seed_actor (w : World) :
  triple (Guardian.seed_actor w)
    (shaped [ (Guardian.insert_user, [VText (user_id w); VInt (now w)]);
              (Guardian.insert_agent,
               [VText (agent_id w); VText (user_id w); VText "active";
                VInt (now w); VInt (now w)]) ] 2 2 []
       (eq (user_id w, agent_id w, now w))).
Proof.
  unfold Guardian.seed_actor.
  apply (shaped_cast _ ([] ++ [_] ++ [_] ++ []) _ 2 2 ([] ++ [] ++ [] ++ []) _ _
           eq_refl eq_refl).
  apply (shaped_bind _ _ _ _ 2 2 2 2 _ _ (fun _ => True)); try lia.
  { apply (shaped_emit_staged Clock StSeed); reflexivity. }
  intros _ _.
  apply (shaped_bind _ _ _ _ 2 2 2 2 _ _ (fun _ => True)); try lia.
  { apply (shaped_execute _ _ StSeed). reflexivity. }
  intros _ _.
  apply (shaped_bind _ _ _ _ 2 2 2 2 _ _ (fun _ => True)); try lia.
  { apply (shaped_execute _ _ StSeed). reflexivity. }
  intros _ _. apply shaped_ret.
Qed.

Lemma shaped_insert_event (w : World) :
  triple (Guardian.insert_event w (user_id w) (agent_id w) (now w))
    (shaped [ (Guardian.insert_event_sql,
               [VText (event_id w); VText (agent_id w); VText (user_id w);
                VText "kernel.guardian"; VText "{}"; VInt (now w); VInt (now w);
                VText "hash_guardian"; VNull]) ] 2 2 [] (eq (event_id w))).
Proof.
  unfold Guardian.insert_event.
  apply (shaped_cast _ ([_] ++ []) _ 2 2 ([] ++ []) _ _ eq_refl eq_refl).
  apply (shaped_bind _ _ _ _ 2 2 2 2 _ _ (fun _ => True)); try lia.
  { apply (shaped_execute _ _ StSeed). reflexivity. }
  intros _ _. apply shaped_ret.
Qed.

Lemma shaped_insert_receipt (w : World) :
  triple (Guardian.insert_receipt w (user_id w) (agent_id w) (event_id w) (now w))
    (shaped [ (Guardian.insert_receipt_sql,
               [VText (receipt_id w); VText (agent_id w); VText (user_id w);
                VText "policy"; VText (event_id w); VText "guardian";
                VText "Guardian test insert."; VText "guardian";
                VText "Guardian will attempt mutation."; VInt (now w);
                VInt (now w)]) ] 2 2 [] (eq (receipt_id w))).
Proof.
  unfold Guardian.insert_receipt.
  apply (shaped_cast _ ([_] ++ []) _ 2 2 ([] ++ []) _ _ eq_refl eq_refl).
  apply (shaped_bind _ _ _ _ 2 2 2 2 _ _ (fun _ => True)); try lia.
  { apply (shaped_execute _ _ StSeed). reflexivity. }
  intros _ _. apply shaped_ret.
Qed.

(** The prover. *)
Lemma shaped_assert_blocked (w : World) (sql : string) (params : list value)
  (label : string) :
  stage_of_sql sql = Some StProve ->
  failing_stage (Message (Guardian.allowed label)) = Some StProve ->
  triple (Guardian.assert_blocked w sql params label)
    (shaped [(sql, params)] 3 3 [Guardian.blocked label] (fun _ => True)).
Proof.
  intros Hs Hf st. rewrite assert_blocked_eq.
  assert (S1 : stages [Execute sql params] = [3]) by (simpl; now rewrite Hs).
  assert (S2 : stages [Execute sql params; PrintLine (Guardian.blocked label)] = [3])
    by (simpl; now rewrite Hs).
  destruct (execute (db w) (st_conn st) sql params) as [c' [rows|[msg|msg]]].
  - exists (Exit (Message (Guardian.allowed label))), c', [Execute sql params].
    split; [reflexivity|]. unfold shaped, bounded. rewrite S1.
    split; [repeat constructor|]. split; [repeat constructor|].
    split; [exists []; reflexivity|]. exists StProve.
    split; [exact Hf|]. split; [simpl; lia|repeat constructor].
  - exists (Return tt), c', [Execute sql params; PrintLine (Guardian.blocked label)].
    split; [reflexivity|]. unfold shaped, bounded. rewrite S2.
    split; [repeat constructor|]. split; [repeat constructor|]. repeat split.
  - exists (Raise (OtherError msg)), c', [Execute sql params].
    split; [reflexivity|]. unfold shaped, bounded. rewrite S1.
    split; [repeat constructor|]. split; [repeat constructor|].
    exists []. reflexivity.
Qed.

Lemma shaped_prove (w : World) (table pk_col pk_value update_col : string) :
  stage_of_sql (Guardian.update_self table pk_col update_col) = Some StProve ->
  stage_of_sql (Guardian.delete_by_key table pk_col) = Some StProve ->
  failing_stage (Message (Guardian.allowed ("UPDATE on " ++ table))) = Some StProve ->
  failing_stage (Message (Guardian.allowed ("DELETE on " ++ table))) = Some StProve ->
  triple (Guardian.prove_immutable_by_writes w table pk_col pk_value update_col)
    (shaped [ (Guardian.update_self table pk_col update_col, [VText pk_value]);
              (Guardian.delete_by_key table pk_col, [VText pk_value]) ] 3 3
       [ Guardian.blocked ("UPDATE on " ++ table);
         Guardian.blocked ("DELETE on " ++ table) ] (fun _ => True)).
Proof.
  intros H1 H2 H3 H4. unfold Guardian.prove_immutable_by_writes.
  apply (shaped_cast _ ([_] ++ [_]) _ 3 3 ([_] ++ [_]) _ _ eq_refl eq_refl).
  apply (shaped_bind _ _ _ _ 3 3 3 3 _ _ (fun _ => True)); try lia.
  { apply shaped_assert_blocked; assumption. }
  intros _ _. apply shaped_assert_blocked; assumption.
Qed.

(** The connection around the stages that use the database. *)
Lemma shaped_with_connection {w : World} {A : Type} (body : M w A)
  (s : list stmt) (hi : nat) (l : list string) (R : A -> Prop) :
  triple body (shaped s 0 hi l R) ->
  triple (Guardian.with_connection body) (shaped s 0 hi l R).
Proof.
  intros Hb st. unfold Guardian.with_connection.
  rewrite bind_eq. unfold emit at 1. cbv beta iota.
  destruct (Hb (MkState (st_conn st) (st_trace st ++ [Connect])))
    as (o & c' & d & E & S & B & P).
  rewrite E. cbn [st_trace].
  assert (Sc : forall d', stages (Connect :: d') = 0 :: stages d') by reflexivity.
  assert (S0 : StronglySorted le (0 :: stages d)).
  { constructor; [exact S|]. eapply Forall_impl; [|exact B]. simpl. lia. }
  destruct o as [a|arg|e].
  - exists (Return a), c', (Connect :: d ++ [Commit])%list.
    split.
    { unfold bind, emit, ret. cbn [st_conn st_trace].
      now rewrite <- !app_assoc. }
    destruct P as (Ra & X & L).
    unfold shaped, bounded.
    rewrite Sc, stages_app. cbn [stages stage_of]. rewrite app_nil_r.
    split; [exact S0|]. split; [constructor; [lia|exact B]|].
    cbn [executed stdout]. rewrite executed_app, stdout_app. cbn.
    rewrite !app_nil_r. auto.
  - exists (Exit arg), c', (Connect :: d ++ [Rollback])%list.
    split.
    { unfold bind, emit, system_exit. cbn [st_conn st_trace].
      now rewrite <- !app_assoc. }
    destruct P as ((rest & X) & s0 & Fs & Hs & Bs).
    unfold shaped, bounded.
    rewrite Sc, stages_app. cbn [stages stage_of]. rewrite app_nil_r.
    split; [exact S0|]. split; [constructor; [lia|exact B]|].
    cbn [executed]. rewrite executed_app. cbn [executed]. rewrite app_nil_r.
    split; [exists rest; exact X|]. exists s0. split; [exact Fs|].
    split; [exact Hs|]. constructor; [lia|exact Bs].
  - exists (Raise e), c', (Connect :: d ++ [Rollback])%list.
    split.
    { unfold bind, emit, raise. cbn [st_conn st_trace].
      now rewrite <- !app_assoc. }
    destruct P as (rest & X).
    unfold shaped, bounded.
    rewrite Sc, stages_app. cbn [stages stage_of]. rewrite app_nil_r.
    split; [exact S0|]. split; [constructor; [lia|exact B]|].
    cbn [executed]. rewrite executed_app. cbn [executed]. rewrite app_nil_r.
    exists rest; exact X.
Qed.

(** The scanner. *)
Lemma probes_scan (w : World) (probes : list action) :
  Forall (kernel_probe w) probes -> quiet StScan probes.
Proof.
  induction 1 as [|a l (p & -> & Hin) _ IH]; constructor; [|exact IH].
  split; [|split; reflexivity]. left. simpl.
  assert (H : endswith "kernel.ts" p = true).
  { simpl in Hin. destruct Hin as [<-|[<-|[<-|[]]]]; apply kernel_is_kernel. }
  now rewrite H.
Qed.

Lemma shaped_scan (w : World) :
  triple (Guardian.scan_for_ghost_state w)
    (shaped [] 4 4 (stdout (snd (scan_verdict w))) (fun _ => True)).
Proof.
  intros st. destruct (scan_for_ghost_state_eq w) as (probes & Hp & Heq).
  rewrite (Heq st).
  exists (fst (scan_verdict w)), (st_conn st), (probes ++ snd (scan_verdict w))%list.
  split; [reflexivity|].
  pose proof (probes_scan w probes Hp) as Q.
  assert (Hv : exists n, stages (snd (scan_verdict w)) = repeat 4 n
                         /\ executed (snd (scan_verdict w)) = []).
  { unfold scan_verdict. destruct (located w) as [p|].
    - destruct (files w p) as [text|].
      + destruct (Guardian.ghost_hits text) as [|h hits].
        * exists 1. split; reflexivity.
        * exists 1. cbn [snd]. generalize (firstn 25 (h :: hits)). intros l. split.
          -- cbn. f_equal. induction l; [reflexivity|assumption].
          -- cbn. induction l; [reflexivity|assumption].
      + exists 1. split; reflexivity.
    - exists 0. split; reflexivity. }
  destruct Hv as (n & Hn & Hx).
  assert (F4 : Forall (fun k => k = 4) (stages (probes ++ snd (scan_verdict w)))).
  { rewrite stages_app, Hn. apply Forall_app. split.
    - apply (quiet_stages StScan). exact Q.
    - clear. induction n; simpl; constructor; auto. }
  assert (S : StronglySorted le (stages (probes ++ snd (scan_verdict w)))).
  { induction F4 as [|k l -> Hl IH]; constructor; [exact IH|].
    eapply Forall_impl; [|exact Hl]. simpl. lia. }
  assert (B : bounded 4 4 (probes ++ snd (scan_verdict w))).
  { unfold bounded. eapply Forall_impl; [|exact F4]. simpl. lia. }
  split; [exact S|]. split; [exact B|].
  rewrite executed_app, stdout_app, Hx,
    (quiet_executed _ _ Q), (quiet_stdout _ _ Q). cbn [app].
  destruct (fst (scan_verdict w)) as [[]|arg|e] eqn:Ev.
  - auto.
  - split; [exists []; reflexivity|]. exists StScan.
    split; [|split; [simpl; lia|exact B]].
    revert Ev. unfold scan_verdict. destruct (located w) as [p|]; [|discriminate].
    destruct (files w p) as [text|]; [|discriminate].
    destruct (Guardian.ghost_hits text); [discriminate|].
    cbn [fst]. intros H. injection H as <-. reflexivity.
  - exists []. reflexivity.
Qed.

(** The stages that use the database, as [main] runs them. *)
Lemma shaped_database (w : World) (sql_files : list string) :
  triple
    (db_execute_ w "PRAGMA foreign_keys = ON" [] ;;;
     Guardian.apply_migrations w sql_files ;;;
     Guardian.require_immutable_table w "events" ;;;
     Guardian.require_immutable_table w "receipts" ;;;
     '(user_id, agent_id, now) <- Guardian.seed_actor w ;;
     event_id <- Guardian.insert_event w user_id agent_id now ;;
     receipt_id <- Guardian.insert_receipt w user_id agent_id event_id now ;;
     Guardian.prove_immutable_by_writes w "events" "event_id" event_id "type" ;;;
     Guardian.prove_immutable_by_writes w "receipts" "receipt_id" receipt_id
       "what_happened")
    (shaped (pipeline w) 0 3
       [ Guardian.appears_immutable "events";
         Guardian.appears_immutable "receipts";
         Guardian.blocked "UPDATE on events";
         Guardian.blocked "DELETE on events";
         Guardian.blocked "UPDATE on receipts";
         Guardian.blocked "DELETE on receipts" ] (fun _ => True)).
Proof.
  eapply shaped_cast; cycle 2.
  - eapply (shaped_bind _ _ _ _ 0 0 0 3 _ _ (fun _ => True)); try lia.
    { apply (shaped_execute _ _ StLoad). reflexivity. }
    intros _ _.
    eapply (shaped_bind _ _ _ _ 0 0 1 3 _ _ (fun _ => True)); try lia.
    { apply shaped_apply. }
    intros _ _.
    eapply (shaped_bind _ _ _ _ 1 1 1 3 _ _ (fun _ => True)); try lia.
    { apply shaped_require. reflexivity. }
    intros _ _.
    eapply (shaped_bind _ _ _ _ 1 1 2 3 _ _ (fun _ => True)); try lia.
    { apply shaped_require. reflexivity. }
    intros _ _.
    eapply (shaped_bind _ _ _ _ 2 2 2 3 _ _ _); try lia.
    { apply shaped_seed_actor. }
    intros x <-. cbv beta iota.
    eapply (shaped_bind _ _ _ _ 2 2 2 3 _ _ _); try lia.
    { apply shaped_insert_event. }
    intros x <-.
    eapply (shaped_bind _ _ _ _ 2 2 3 3 _ _ _); try lia.
    { apply shaped_insert_receipt. }
    intros x <-.
    eapply (shaped_bind _ _ _ _ 3 3 3 3 _ _ (fun _ => True)); try lia.
    { apply shaped_prove; reflexivity. }
    intros _ _. apply shaped_prove; reflexivity.
  - reflexivity.
  - reflexivity.
Qed.

(** The whole run: its statements are those of [pipeline], its stages
    come in their order, and its lines are those of a passing run when it
    returns. *)
Lemma shaped_main (w : World) :
  triple (Guardian.main w)
    (shaped (pipeline w) 0 4 (passing_lines w) (fun _ => True)).
Proof.
  unfold Guardian.main.
  eapply shaped_cast; cycle 2.
  - eapply (shaped_bind _ _ _ _ 0 0 0 4 _ _ (fun _ => True)); try lia.
    { apply shaped_print. }
    intros _ _.
    eapply (shaped_bind _ _ _ _ 0 0 0 4 _ _ (fun _ => True)); try lia.
    { apply shaped_find. }
    intros sql_files _.
    eapply (shaped_bind _ _ _ _ 0 3 4 4 _ _ (fun _ => True)); try lia.
    { apply shaped_with_connection. apply shaped_database. }
    intros _ _.
    eapply (shaped_bind _ _ _ _ 4 4 4 4 _ _ (fun _ => True)); try lia.
    { apply shaped_scan. }
    intros _ _. apply shaped_print.
  - rewrite !app_nil_r. reflexivity.
  - reflexivity.
Qed.

Lemma run_main_shaped (w : World) :
  shaped (pipeline w) 0 4 (passing_lines w) (fun _ => True)
    (fst (Guardian.run_main w)) (snd (Guardian.run_main w)).
Proof.
  unfold Guardian.run_main.
  destruct (shaped_main w (start w)) as (o & c' & d & E & H).
  rewrite E. exact H.
Qed.

(** The statements of a run are the first ones of [pipeline]. *)
Lemma guardian_statements (w : World) :
  StronglySorted le (stages (snd (Guardian.run_main w)))
  /\ (exists rest, pipeline w = (executed (snd (Guardian.run_main w)) ++ rest)%list)
  /\ (fst (Guardian.run_main w) = Return tt ->
      executed (snd (Guardian.run_main w)) = pipeline w).
Proof.
  pose proof (run_main_shaped w) as (S & B & H).
  split; [exact S|].
  destruct (fst (Guardian.run_main w)) as [[]|arg|e].
  - destruct H as (_ & -> & _). split; [|reflexivity].
    exists []. now rewrite app_nil_r.
  - destruct H as (X & _). split; [exact X|discriminate].
  - split; [exact H|discriminate].
Qed.

(** ** A whole run *)

Lemma bind_returns {w : World} {A B : Type} (m : M w A) (k : A -> M w B)
  (st st' : state w) (b : B) :
  bind m k st = (Return b, st') ->
  exists a st1, m st = (Return a, st1) /\ k a st1 = (Return b, st').
Proof.
  rewrite bind_eq. destruct (m st) as [[a|arg|e] st1]; try discriminate. eauto.
Qed.

(** A run that returns has come through the scanner. *)
Lemma main_returns_scan (w : World) :
  fst (Guardian.run_main w) = Return tt -> fst (scan_verdict w) = Return tt.
Proof.
  unfold Guardian.run_main, Guardian.main.
  destruct (bind _ _ (start w)) as [o st'] eqn:E. cbn [fst]. intros ->.
  apply bind_returns in E as (? & st1 & _ & E).
  apply bind_returns in E as (sql_files & st2 & _ & E).
  apply bind_returns in E as (? & st3 & _ & E).
  apply bind_returns in E as ([] & st4 & E & _).
  destruct (scan_for_ghost_state_eq w) as (probes & _ & Heq).
  rewrite Heq in E. now injection E.
Qed.

Lemma scan_verdict_returns (w : World) :
  fst (scan_verdict w) = Return tt ->
  stdout (snd (scan_verdict w)) =
  [match located w with
   | None => Guardian.kernel_missing
   | Some _ => Guardian.ghost_passed
   end].
Proof.
  unfold scan_verdict. destruct (located w) as [p|]; [|reflexivity].
  destruct (files w p) as [text|]; [|discriminate].
  destruct (Guardian.ghost_hits text); [reflexivity|discriminate].
Qed.

(** C2 (as the code has it).  A run that passes every check exits with
    status zero, and it prints the banner and then eight lines: the two
    [OK] lines of the verifier, the four [OK] lines of the prover (update
    and delete, on events and on receipts), the line of the scanner, which
    is an [OK] line when a scan target was located and the [WARN] line when
    none was, and the closing [OK] line.  So there are eight [OK] lines
    with a scan target and seven without, and the banner is not one. *)
Theorem passing_run_output (w : World) :
  fst (Guardian.run_main w) = Return tt ->
  exit_code (fst (Guardian.run_main w)) = 0%Z
  /\ stdout (snd (Guardian.run_main w)) =
     [ Guardian.banner;
       Guardian.appears_immutable "events";
       Guardian.appears_immutable "receipts";
       Guardian.blocked "UPDATE on events";
       Guardian.blocked "DELETE on events";
       Guardian.blocked "UPDATE on receipts";
       Guardian.blocked "DELETE on receipts";
       match located w with
       | None => Guardian.kernel_missing
       | Some _ => Guardian.ghost_passed
       end;
       Guardian.checks_passed ]
  /\ List.length (ok_lines (stdout (snd (Guardian.run_main w)))) =
     match located w with
     | None => 7
     | Some _ => 8
     end.
Proof.
  intros Hret.
  pose proof (run_main_shaped w) as (_ & _ & H).
  pose proof (scan_verdict_returns w (main_returns_scan w Hret)) as Hs.
  rewrite Hret in H |- *. destruct H as (_ & _ & L).
  unfold passing_lines in L. rewrite Hs in L. cbn [app] in L.
  rewrite L. split; [reflexivity|]. split; [reflexivity|].
  destruct (located w); reflexivity.
Qed.

(** The passing run of the examples: eight [OK] lines. *)
Lemma passing_run_output_witness :
  fst (Guardian.run_main Examples.passing) = Return tt
  /\ List.length (ok_lines (stdout (snd (Guardian.run_main Examples.passing)))) = 8.
Proof.
  split; [vm_compute; reflexivity|].
  exact (proj2 (proj2 (passing_run_output Examples.passing eq_refl))).
Defined.

(** The same run with no scan target: the scanner warns, and seven [OK]
    lines are printed. *)
Lemma passing_run_without_kernel :
  Guardian.run_main Examples.without_kernel
  = (Return tt, snd (Guardian.run_main Examples.without_kernel))
  /\ ok_lines (stdout (snd (Guardian.run_main Examples.without_kernel)))
     = [ Guardian.appears_immutable "events";
         Guardian.appears_immutable "receipts";
         Guardian.blocked "UPDATE on events";
         Guardian.blocked "DELETE on events";
         Guardian.blocked "UPDATE on receipts";
         Guardian.blocked "DELETE on receipts";
         Guardian.checks_passed ]
  /\ In Guardian.kernel_missing
       (stdout (snd (Guardian.run_main Examples.without_kernel))).
Proof. split; [|split]; vm_compute; auto 20. Qed.

(** C2 (as stated) fails: on a run that passes every check the lines
    printed hold eight [OK] lines, not five, and the banner, which is not
    an [OK] line. *)
Lemma passing_run_has_eight_ok_lines :
  fst (Guardian.run_main Examples.passing) = Return tt
  /\ exit_code (fst (Guardian.run_main Examples.passing)) = 0%Z
  /\ List.length (ok_lines (stdout (snd (Guardian.run_main Examples.passing)))) = 8
  /\ List.length (ok_lines (stdout (snd (Guardian.run_main Examples.passing)))) <> 5
  /\ ok_lines (stdout (snd (Guardian.run_main Examples.passing)))
     <> stdout (snd (Guardian.run_main Examples.passing)).
Proof.
  split; [vm_compute; reflexivity|]. split; [vm_compute; reflexivity|].
  split; [vm_compute; reflexivity|]. split; vm_compute; discriminate.
Qed.

Lemma stages_le (n : nat) (t : list action) (a : action) (s : stage) :
  Forall (fun k => k <= n) (stages t) -> In a t -> stage_of a = Some s ->
  rank s <= n.
Proof.
  induction t as [|x t IH]; simpl; intros H Hin Hs; [contradiction|].
  destruct Hin as [->|Hin].
  - rewrite Hs in H. now inversion H.
  - apply IH; try assumption. destruct (stage_of x); [now inversion H|exact H].
Qed.

(** ** The findings of the scanner *)

Lemma scan_start_ge (ic : bool) (r : regex) (s : string) :
  forall pv p skip m, In m (scan ic r pv s p skip) -> p <= m_start m.
Proof.
  induction s as [|x s IH]; intros pv p skip m; simpl.
  - destruct (match skip with 0 => _ | S _ => None end) as [[c' g]|]; simpl.
    + intros [<-|[]]. simpl. lia.
    + intros [].
  - destruct (match skip with 0 => _ | S _ => None end) as [[c' g]|]; simpl.
    + intros [<-|H]; [simpl; lia|]. apply IH in H. lia.
    + intros H. apply IH in H. lia.
Qed.

Lemma scan_starts_sorted (ic : bool) (r : regex) (s : string) :
  forall pv p skip,
    StronglySorted (fun a b => m_start a < m_start b) (scan ic r pv s p skip).
Proof.
  induction s as [|x s IH]; intros pv p skip; simpl.
  - destruct (match skip with 0 => _ | S _ => None end) as [[c' g]|];
      repeat constructor.
  - destruct (match skip with 0 => _ | S _ => None end) as [[c' g]|].
    + constructor; [apply IH|]. apply Forall_forall. intros m H.
      apply scan_start_ge in H. simpl. lia.
    + apply IH.
Qed.

Lemma sorted_start_inj (l : list rmatch) (a b : rmatch) :
  StronglySorted (fun a b => m_start a < m_start b) l ->
  In a l -> In b l -> m_start a = m_start b -> a = b.
Proof.
  induction 1 as [|x l Hs IH Hx]; simpl; [contradiction|].
  rewrite Forall_forall in Hx.
  intros [<-|Ha] [<-|Hb] E; auto.
  - apply Hx in Hb. lia.
  - apply Hx in Ha. lia.
Qed.

(** Two matches of one [finditer] that start at the same offset are the
    same match. *)
Lemma finditer_start_inj (ic : bool) (r : regex) (text : string) (a b : rmatch) :
  In a (finditer ic r text) -> In b (finditer ic r text) ->
  m_start a = m_start b -> a = b.
Proof. apply sorted_start_inj, scan_starts_sorted. Qed.

Lemma unlogged_b_iff (text : string) (m : rmatch) :
  unlogged_b text m = true <-> unlogged text m.
Proof.
  unfold unlogged_b, unlogged, Guardian.window, nearby.
  rewrite Nat.max_0_l, !andb_true_iff, !negb_true_iff.
  rewrite <- !contains_lower.
  split.
  - intros [[A B] C]. rewrite A, B, C. repeat split; discriminate.
  - intros (A & B & C). repeat split; apply not_true_is_false; assumption.
Qed.

Lemma scan_table_eq (text table : string) (hits : list Guardian.finding) :
  Guardian.scan_table text hits table =
  (hits ++ map (finding_of table)
             (filter (unlogged_b text)
                (finditer true (Guardian.mutation_pattern table) text)))%list.
Proof.
  unfold Guardian.scan_table.
  generalize (finditer true (Guardian.mutation_pattern table) text).
  intros l. revert hits. induction l as [|m l IH]; intros hits; simpl.
  - now rewrite app_nil_r.
  - rewrite IH. unfold Guardian.scan_match. fold (unlogged_b text m).
    destruct (unlogged_b text m); simpl; [now rewrite <- app_assoc|reflexivity].
Qed.

Lemma ghost_hits_eq (text : string) :
  Guardian.ghost_hits text =
  flat_map (fun table =>
              map (finding_of table)
                (filter (unlogged_b text)
                   (finditer true (Guardian.mutation_pattern table) text)))
    Guardian.suspicious_tables.
Proof.
  unfold Guardian.ghost_hits.
  assert (H : forall l hits,
    fold_left (Guardian.scan_table text) l hits =
    (hits ++ flat_map (fun table =>
              map (finding_of table)
                (filter (unlogged_b text)
                   (finditer true (Guardian.mutation_pattern table) text))) l)%list).
  { induction l as [|t l IH]; intros hits; simpl.
    - now rewrite app_nil_r.
    - rewrite IH, scan_table_eq, <- app_assoc. reflexivity. }
  apply (H _ []).
Qed.

(** C4.  The findings are those of the matches that have none of the
    words event, receipt, append, in any case, within 300 characters
    before their start and after their end, the text ends being the
    limit: a match of a sensitive table gives its finding (table, matched
    text, offset) if and only if it is such a match.  So the statement
    [INSERT INTO budgets (...)] alone gives one finding, for budgets, and
    none when [emitEvent(...)] follows it. *)
Theorem ghost_finding_iff :
  (forall (text table : string) (m : rmatch),
     In table Guardian.suspicious_tables ->
     In m (finditer true (Guardian.mutation_pattern table) text) ->
     (In (table, m_group0 m, m_start m) (Guardian.ghost_hits text)
      <-> unlogged text m))
  /\ (forall text,
        Guardian.ghost_hits text =
        flat_map (fun table =>
                    map (finding_of table)
                      (filter (unlogged_b text)
                         (finditer true (Guardian.mutation_pattern table) text)))
          Guardian.suspicious_tables)
  /\ Guardian.ghost_hits "INSERT INTO budgets (...)"
     = [("budgets", "INSERT INTO budgets", 0)]
  /\ Guardian.ghost_hits "INSERT INTO budgets (...) emitEvent(...)" = [].
Proof.
  split; [|split; [exact ghost_hits_eq|split; vm_compute; reflexivity]].
  intros text table m Ht Hm. rewrite ghost_hits_eq, <- unlogged_b_iff.
  rewrite in_flat_map. split.
  - intros (t' & _ & H). apply in_map_iff in H as (m' & E & H).
    apply filter_In in H as (Hm' & U).
    unfold finding_of in E. injection E as -> E0 Es.
    assert (m' = m) by (eapply finditer_start_inj; eassumption).
    now subst m'.
  - intros U. exists table. split; [exact Ht|].
    apply in_map_iff. exists m. split; [reflexivity|].
    apply filter_In. split; assumption.
Qed.

(** The insert into budgets of the example, as a match. *)
Lemma ghost_finding_iff_witness :
  In "budgets" Guardian.suspicious_tables
  /\ In {| m_start := 0; m_end := 19; m_group0 := "INSERT INTO budgets";
           m_groups := [(1, "INSERT INTO budgets")] |}
        (finditer true (Guardian.mutation_pattern "budgets")
           "INSERT INTO budgets (...)")
  /\ (In ("budgets", "INSERT INTO budgets", 0)
        (Guardian.ghost_hits "INSERT INTO budgets (...)")
      <-> unlogged "INSERT INTO budgets (...)"
            {| m_start := 0; m_end := 19; m_group0 := "INSERT INTO budgets";
               m_groups := [(1, "INSERT INTO budgets")] |}).
Proof.
  split; [simpl; auto|]. split; [vm_compute; auto|].
  apply (proj1 ghost_finding_iff "INSERT INTO budgets (...)" "budgets"
           {| m_start := 0; m_end := 19; m_group0 := "INSERT INTO budgets";
              m_groups := [(1, "INSERT INTO budgets")] |}).
  - simpl; auto.
  - vm_compute; auto.
Defined.

(** ** The matcher on words and whitespace *)

Lemma feed_add (n m : nat) : forall c, feed (feed c n) m = feed c (n + m).
Proof.
  induction n as [|n IH]; intros c; simpl; [reflexivity|].
  destruct (rest c) as [|x s'] eqn:E; [|apply IH].
  destruct m; simpl; now rewrite ?E.
Qed.

Lemma feed_rest (a b : string) :
  forall c, rest c = a ++ b ->
            rest (feed c (String.length a)) = b
            /\ pos (feed c (String.length a)) = pos c + String.length a.
Proof.
  induction a as [|x a IH]; intros c H; simpl.
  - split; [exact H|lia].
  - simpl in H. rewrite H.
    destruct (IH (advance x (a ++ b) c) eq_refl) as [R P].
    split; [exact R|]. rewrite P. simpl. lia.
Qed.

Lemma run_cat {A : Type} (ic : bool) (r1 r2 : regex) (c : cursor) (g : groups)
  (k : cursor -> groups -> option A) :
  run ic (Cat r1 r2) c g k = run ic r1 c g (fun c' g' => run ic r2 c' g' k).
Proof. reflexivity. Qed.

(** A word of the pattern against the same word in any case. *)
Lemma run_lits {A : Type} (w : string) :
  forall (kw s : string) (c : cursor) (g : groups)
         (k : cursor -> groups -> option A),
    lower kw = lower w -> rest c = kw ++ s ->
    run true (lits w) c g k = k (feed c (String.length kw)) g.
Proof.
  induction w as [|p w IH]; intros kw s c g k Hl Hr.
  - destruct kw; [reflexivity|discriminate].
  - destruct kw as [|x kw]; [discriminate|]. simpl in Hl, Hr.
    injection Hl as Hx Hl.
    cbn [lits]. rewrite run_cat. cbn [run]. unfold one. rewrite Hr.
    unfold char_eq. rewrite Hx, Ascii.eqb_refl.
    rewrite (IH kw s); [|exact Hl|reflexivity].
    cbn [feed String.length]. rewrite Hr. reflexivity.
Qed.

(** A word of the pattern against a text that starts with another
    letter. *)
Lemma run_lits_mismatch {A : Type} (p : ascii) (w : string) (x : ascii)
  (s : string) (c : cursor) (g : groups) (k : cursor -> groups -> option A) :
  rest c = String x s -> lower_char p <> lower_char x ->
  run true (lits (String p w)) c g k = None.
Proof.
  intros Hr Hne. cbn [lits]. rewrite run_cat. cbn [run]. unfold one. rewrite Hr.
  unfold char_eq. destruct (Ascii.eqb_spec (lower_char p) (lower_char x));
    [contradiction|reflexivity].
Qed.

(** The loop inside [run] is [star_loop]. *)
Lemma star_fix_eq {A : Type} (ic : bool) (r' : regex)
  (k : cursor -> groups -> option A)
  (IH : forall c g (k1 k2 : cursor -> groups -> option A),
          (forall c' g', k1 c' g' = k2 c' g') ->
          run ic r' c g k1 = run ic r' c g k2) :
  forall fuel c g,
    (fix loop (fuel : nat) (c : cursor) (g : groups) {struct fuel} : option A :=
       match fuel with
       | 0 => k c g
       | S fuel' =>
           match run ic r' c g (fun c' g' =>
                   if pos c' =? pos c then None else loop fuel' c' g') with
           | Some a => Some a
           | None => k c g
           end
       end) fuel c g = star_loop ic r' k fuel c g.
Proof.
  induction fuel as [|fuel IHf]; intros c g; [reflexivity|].
  cbn [star_loop].
  erewrite IH; [reflexivity|]. intros c' g'. cbv beta.
  destruct (pos c' =? pos c); [reflexivity|apply IHf].
Qed.

Lemma star_loop_ext {A : Type} (ic : bool) (r' : regex)
  (k1 k2 : cursor -> groups -> option A)
  (IH : forall c g (k1 k2 : cursor -> groups -> option A),
          (forall c' g', k1 c' g' = k2 c' g') ->
          run ic r' c g k1 = run ic r' c g k2) :
  (forall c g, k1 c g = k2 c g) ->
  forall fuel c g, star_loop ic r' k1 fuel c g = star_loop ic r' k2 fuel c g.
Proof.
  intros H. induction fuel as [|fuel IHf]; intros c g; cbn [star_loop]; [apply H|].
  rewrite H. erewrite IH; [reflexivity|]. intros c' g'. cbv beta.
  destruct (pos c' =? pos c); [reflexivity|apply IHf].
Qed.

(** The matcher depends on what its continuation returns, not on how it
    is written. *)
Lemma run_ext {A : Type} (ic : bool) (r : regex) :
  forall c g (k1 k2 : cursor -> groups -> option A),
    (forall c' g', k1 c' g' = k2 c' g') ->
    run ic r c g k1 = run ic r c g k2.
Proof.
  induction r as [| p | neg cs | | | | r1 IH1 r2 IH2 | r1 IH1 r2 IH2 | r' IH | i r' IH];
    intros c g k1 k2 H.
  - apply H.
  - cbn [run]. unfold one. destruct (rest c); [reflexivity|].
    destruct (char_eq ic p a); [apply H|reflexivity].
  - cbn [run]. unfold one. destruct (rest c); [reflexivity|].
    destruct (xorb _ _); [apply H|reflexivity].
  - cbn [run]. unfold one. destruct (rest c); [reflexivity|].
    destruct (negb _); [apply H|reflexivity].
  - cbn [run]. unfold one. destruct (rest c); [reflexivity|].
    destruct (isspace a); [apply H|reflexivity].
  - cbn [run]. destruct (at_boundary c); [apply H|reflexivity].
  - cbn [run]. apply IH1. intros c' g'. apply IH2. exact H.
  - cbn [run]. rewrite (IH1 c g k1 k2 H), (IH2 c g k1 k2 H). reflexivity.
  - assert (E : forall k : cursor -> groups -> option A,
              run ic (Star r') c g k
              = star_loop ic r' k (S (String.length (rest c))) c g)
      by (intros k; exact (star_fix_eq ic r' k IH (S (String.length (rest c))) c g)).
    rewrite !E. apply star_loop_ext; assumption.
  - cbn [run]. apply IH. intros c' g'. apply H.
Qed.

Lemma run_star {A : Type} (ic : bool) (r' : regex) (c : cursor) (g : groups)
  (k : cursor -> groups -> option A) :
  run ic (Star r') c g k = star_loop ic r' k (S (String.length (rest c))) c g.
Proof.
  exact (star_fix_eq ic r' k (fun c g k1 k2 => run_ext ic r' c g k1 k2)
           (S (String.length (rest c))) c g).
Qed.

(** The greedy whitespace: when what follows matches after the whole run
    of whitespace, that is the match. *)
Lemma star_space_greedy {A : Type} (k : cursor -> groups -> option A)
  (s : string) (a : A) (g : groups) :
  starts_with_space s = false ->
  forall (ws : string) (fuel : nat) (c : cursor),
    all_space ws = true -> rest c = ws ++ s -> String.length ws <= fuel ->
    k (feed c (String.length ws)) g = Some a ->
    star_loop true Space k fuel c g = Some a.
Proof.
  intros Hs. induction ws as [|x ws IH]; intros fuel c Hw Hr Hf Hk.
  - simpl in Hr, Hk. destruct fuel as [|fuel]; [exact Hk|].
    cbn [star_loop run]. unfold one. rewrite Hr.
    destruct s as [|y s]; [exact Hk|]. simpl in Hs. rewrite Hs. exact Hk.
  - simpl in Hw. apply andb_true_iff in Hw as [Hx Hw]. simpl in Hr, Hf.
    destruct fuel as [|fuel]; [lia|].
    cbn [star_loop run]. unfold one. rewrite Hr, Hx.
    cbn [advance pos].
    replace (S (pos c) =? pos c) with false by (symmetry; apply Nat.eqb_neq; lia).
    rewrite (IH fuel (advance x (ws ++ s) c)); try reflexivity; try assumption.
    + lia.
    + cbn [feed String.length] in Hk. rewrite Hr in Hk. exact Hk.
Qed.

Lemma run_space {A : Type} (ic : bool) (c : cursor) (g : groups)
  (k : cursor -> groups -> option A) :
  run ic Space c g k = one isspace c g k.
Proof. reflexivity. Qed.

Lemma run_plus_space {A : Type} (k : cursor -> groups -> option A)
  (ws s : string) (c : cursor) (g : groups) (a : A) :
  spaces ws -> starts_with_space s = false -> rest c = ws ++ s ->
  k (feed c (String.length ws)) g = Some a ->
  run true (Plus Space) c g k = Some a.
Proof.
  intros [Hne Hw] Hs Hr Hk. destruct ws as [|x ws]; [contradiction|].
  simpl in Hw. apply andb_true_iff in Hw as [Hx Hw]. simpl in Hr.
  unfold Plus. rewrite run_cat, run_space. unfold one. rewrite Hr, Hx.
  rewrite run_star.
  apply (star_space_greedy k s a g Hs ws); try assumption; try reflexivity.
  - cbn [advance rest]. rewrite length_append. lia.
  - cbn [feed String.length] in Hk. rewrite Hr in Hk. exact Hk.
Qed.

Lemma starts_with_space_append (s suf : string) :
  s <> "" -> starts_with_space (s ++ suf) = starts_with_space s.
Proof. destruct s; [contradiction|reflexivity]. Qed.

(** A text that spells the items is matched by their pattern, whatever
    follows it. *)
Lemma run_spells {A : Type} (l : list item) (s : string) :
  spells l s ->
  forall (suf : string) (c : cursor) (g : groups)
         (k : cursor -> groups -> option A) (a : A),
    rest c = s ++ suf -> k (feed c (String.length s)) g = Some a ->
    run true (cats (map item_pattern l)) c g k = Some a.
Proof.
  induction 1 as [|w kw l s Hl Hs IH|ws l s Hw Hn Hne Hs IH];
    intros suf c g k a Hr Hk.
  - exact Hk.
  - cbn [map cats item_pattern]. rewrite run_cat.
    rewrite append_assoc in Hr.
    rewrite (run_lits w kw (s ++ suf) c g _ Hl Hr).
    destruct (feed_rest kw (s ++ suf) c Hr) as [R P].
    apply (IH suf); [exact R|].
    rewrite feed_add, <- length_append. exact Hk.
  - cbn [map cats item_pattern]. rewrite run_cat.
    rewrite append_assoc in Hr.
    apply (run_plus_space _ ws (s ++ suf)); try assumption.
    + now rewrite starts_with_space_append.
    + destruct (feed_rest ws (s ++ suf) c Hr) as [R P].
      apply (IH suf); [exact R|].
      rewrite feed_add, <- length_append. exact Hk.
Qed.

(** ** The pattern of the scanner *)

Lemma space_lower (x : ascii) : isspace x = true -> lower_char x = x.
Proof.
  destruct x as [[] [] [] [] [] [] [] []]; vm_compute; intros H;
    first [reflexivity | discriminate H].
Qed.

Lemma lower_starts (s t : string) (y : ascii) :
  lower s = String y t -> isspace y = false ->
  starts_with_space s = false /\ s <> "".
Proof.
  destruct s as [|x s]; [discriminate|]. simpl. intros H Hy.
  injection H as Hx _. split; [|discriminate].
  destruct (isspace x) eqn:E; [|reflexivity].
  rewrite (space_lower x E) in Hx. congruence.
Qed.

Lemma starts_append (a b : string) :
  starts_with_space a = false -> a <> "" ->
  starts_with_space (a ++ b) = false /\ a ++ b <> "".
Proof. destruct a; [contradiction|]. simpl. intros H _. split; [exact H|discriminate]. Qed.

Lemma substring_prefix (a b : string) : substring 0 (String.length a) (a ++ b) = a.
Proof. induction a; simpl; [now destruct b|congruence]. Qed.

Lemma sensitive_table (table : string) :
  In table Guardian.suspicious_tables ->
  lower table = table /\ exists y t, table = String y t /\ isspace y = false.
Proof.
  simpl. intros [<-|[<-|[<-|[<-|[<-|[]]]]]]; (split; [reflexivity|]);
    eexists _, _; split; reflexivity.
Qed.

(** A mutation statement spells the items of its shape. *)
Lemma mutation_stmt_spells (table stmt : string) :
  In table Guardian.suspicious_tables -> mutation_stmt table stmt ->
  (spells (insert_items table) stmt /\ lower (substring 0 1 stmt) = "i")
  \/ (spells (update_items table) stmt /\ lower (substring 0 1 stmt) = "u")
  \/ (spells (delete_items table) stmt /\ lower (substring 0 1 stmt) = "d").
Proof.
  intros Ht H. destruct (sensitive_table table Ht) as (Hlow & y & t & Hy & Hsp).
  assert (Htb : forall tb, lower tb = table ->
            spells [Word table] tb /\ starts_with_space tb = false /\ tb <> "").
  { intros tb E. split.
    - rewrite <- (append_nil_r tb). constructor; [congruence|constructor].
    - apply (lower_starts tb t y); [congruence|exact Hsp]. }
  destruct H as [kw ws1 into ws2 tb Hk H1 Hi H2 Hb
                |kw ws tb Hk H1 Hb
                |kw ws1 from ws2 tb Hk H1 Hf H2 Hb].
  - left. destruct (Htb tb Hb) as (S & N & E).
    destruct (lower_starts into "nto" "i" Hi eq_refl) as (Ni & Ei).
    destruct (starts_append into (ws2 ++ tb) Ni Ei) as (Ni' & Ei').
    split.
    + unfold insert_items.
      constructor; [exact Hk|]. constructor; [exact H1|exact Ni'|exact Ei'|].
      constructor; [exact Hi|]. constructor; [exact H2|exact N|exact E|exact S].
    + destruct kw as [|x kw]; [discriminate|]. simpl in Hk |- *.
      injection Hk as -> _. now destruct (kw ++ _).
  - right; left. destruct (Htb tb Hb) as (S & N & E). split.
    + unfold update_items.
      constructor; [exact Hk|]. constructor; [exact H1|exact N|exact E|exact S].
    + destruct kw as [|x kw]; [discriminate|]. simpl in Hk |- *.
      injection Hk as -> _. now destruct (kw ++ _).
  - right; right. destruct (Htb tb Hb) as (S & N & E).
    destruct (lower_starts from "rom" "f" Hf eq_refl) as (Nf & Ef).
    destruct (starts_append from (ws2 ++ tb) Nf Ef) as (Nf' & Ef').
    split.
    + unfold delete_items.
      constructor; [exact Hk|]. constructor; [exact H1|exact Nf'|exact Ef'|].
      constructor; [exact Hf|]. constructor; [exact H2|exact N|exact E|exact S].
    + destruct kw as [|x kw]; [discriminate|]. simpl in Hk |- *.
      injection Hk as -> _. now destruct (kw ++ _).
Qed.

Lemma first_letter (stmt : string) (y : ascii) :
  lower (substring 0 1 stmt) = String y "" ->
  exists x s, stmt = String x s /\ lower_char x = y.
Proof.
  destruct stmt as [|x s]; [discriminate|]. simpl.
  intros H. injection H as H _. eauto.
Qed.

Lemma run_alt {A : Type} (ic : bool) (r1 r2 : regex) (c : cursor) (g : groups)
  (k : cursor -> groups -> option A) :
  run ic (Alt r1 r2) c g k =
  match run ic r1 c g k with
  | Some a => Some a
  | None => run ic r2 c g k
  end.
Proof. reflexivity. Qed.

Lemma run_grp {A : Type} (ic : bool) (i : nat) (r : regex) (c : cursor)
  (g : groups) (k : cursor -> groups -> option A) :
  run ic (Grp i r) c g k =
  run ic r c g (fun c' g' => k c' ((i, substring 0 (pos c' - pos c) (rest c)) :: g')).
Proof. reflexivity. Qed.

(** The pattern at the start of a mutation statement: it matches the
    statement, whatever comes before and after. *)
Lemma mutation_match_at (table stmt suf : string) (pv : option ascii) (p : nat) :
  In table Guardian.suspicious_tables -> mutation_stmt table stmt ->
  match_at true (Guardian.mutation_pattern table)
    {| prev := pv; rest := stmt ++ suf; pos := p |}
  = Some (feed {| prev := pv; rest := stmt ++ suf; pos := p |} (String.length stmt),
          [(1, stmt)]).
Proof.
  intros Ht Hm. set (c := {| prev := pv; rest := stmt ++ suf; pos := p |}).
  unfold match_at, Guardian.mutation_pattern. rewrite run_grp. cbv beta.
  match goal with |- run _ _ _ _ ?K = _ => set (k := K) end.
  assert (Hk : k (feed c (String.length stmt)) []
               = Some (feed c (String.length stmt), [(1, stmt)])).
  { unfold k. destruct (feed_rest stmt suf c eq_refl) as [_ P]. rewrite P.
    replace (pos c + String.length stmt - pos c) with (String.length stmt) by lia.
    subst c. cbn [rest]. now rewrite substring_prefix. }
  change (cats [lits "insert"; Plus Space; lits "into"; Plus Space; lits table])
    with (cats (map item_pattern (insert_items table))).
  change (cats [lits "update"; Plus Space; lits table])
    with (cats (map item_pattern (update_items table))).
  change (cats [lits "delete"; Plus Space; lits "from"; Plus Space; lits table])
    with (cats (map item_pattern (delete_items table))).
  destruct (mutation_stmt_spells table stmt Ht Hm) as [[S F]|[[S F]|[S F]]];
    apply first_letter in F as (x & s & Hx & Hl).
  - rewrite run_alt, (run_spells _ _ S suf c [] k _ eq_refl Hk). reflexivity.
  - rewrite run_alt.
    assert (N : run true (cats (map item_pattern (insert_items table))) c [] k = None).
    { unfold insert_items. cbn [map cats item_pattern]. rewrite run_cat.
      apply (run_lits_mismatch "i" "nsert" x (s ++ suf)).
      - subst c stmt. reflexivity.
      - rewrite Hl. discriminate. }
    rewrite N, run_alt, (run_spells _ _ S suf c [] k _ eq_refl Hk). reflexivity.
  - rewrite run_alt.
    assert (N1 : run true (cats (map item_pattern (insert_items table))) c [] k = None).
    { unfold insert_items. cbn [map cats item_pattern]. rewrite run_cat.
      apply (run_lits_mismatch "i" "nsert" x (s ++ suf)).
      - subst c stmt. reflexivity.
      - rewrite Hl. discriminate. }
    assert (N2 : run true (cats (map item_pattern (update_items table))) c [] k = None).
    { unfold update_items. cbn [map cats item_pattern]. rewrite run_cat.
      apply (run_lits_mismatch "u" "pdate" x (s ++ suf)).
      - subst c stmt. reflexivity.
      - rewrite Hl. discriminate. }
    rewrite N1, run_alt, N2. apply (run_spells _ _ S suf c [] k _ eq_refl Hk).
Qed.

Lemma scan_head (ic : bool) (r : regex) (pv : option ascii) (s : string) (p : nat)
  (c' : cursor) (g : groups) :
  match_at ic r {| prev := pv; rest := s; pos := p |} = Some (c', g) ->
  hd_error (scan ic r pv s p 0) =
  Some {| m_start := p; m_end := pos c';
          m_group0 := substring 0 (pos c' - p) s; m_groups := g |}.
Proof. intros H. destruct s; simpl; rewrite H; reflexivity. Qed.

(** ** What a match is *)

Lemma feed_one (c : cursor) (x : ascii) (s' : string) :
  rest c = String x s' -> feed c 1 = advance x s' c.
Proof. intros H. simpl. now rewrite H. Qed.

(** The cursor never goes past the end: its offset counts the characters
    read. *)
Lemma feed_pos_rest (n : nat) :
  forall c, pos (feed c n) + String.length (rest (feed c n))
            = pos c + String.length (rest c).
Proof.
  induction n as [|n IH]; intros c; simpl; [reflexivity|].
  destruct (rest c) as [|x s'] eqn:E; [now rewrite E|].
  rewrite IH. simpl. lia.
Qed.

(** A match reads characters that are there. *)
Lemma lang_length (ic : bool) (r : regex) (c : cursor) (n : nat) (caps : groups) :
  lang ic r c n caps ->
  n <= String.length (rest c) /\ pos (feed c n) = pos c + n.
Proof.
  assert (One : forall c x s', rest c = String x s' ->
            1 <= String.length (rest c) /\ pos (feed c 1) = pos c + 1).
  { intros c0 x s' E. rewrite (feed_one c0 x s' E), E. simpl. lia. }
  induction 1 as [c | p x s' c E _ | neg cs x s' c E _ | x s' c E _ | x s' c E _
                 | c _ | r1 r2 c n1 n2 caps1 caps2 _ IH1 _ IH2
                 | r1 r2 c n caps _ IH | r1 r2 c n caps _ IH
                 | r c | r c n1 n2 caps1 caps2 _ IH1 _ IH2
                 | i r c n caps _ IH];
    try (simpl; lia); try (eapply One; eassumption); try exact IH.
  - pose proof (feed_pos_rest n1 c). rewrite <- feed_add. lia.
  - pose proof (feed_pos_rest n1 c). rewrite <- feed_add. lia.
Qed.

Lemma one_sound {A : Type} (ok : ascii -> bool) (c : cursor) (g : groups)
  (k : cursor -> groups -> option A) (a : A) :
  one ok c g k = Some a ->
  exists x s', rest c = String x s' /\ ok x = true /\ k (feed c 1) g = Some a.
Proof.
  unfold one. destruct (rest c) as [|x s'] eqn:E; [discriminate|].
  destruct (ok x) eqn:Hx; [|discriminate]. intros H.
  exists x, s'. rewrite (feed_one c x s' E). auto.
Qed.

(** The matcher is sound: what it hands to its continuation is a match of
    the pattern. *)
Lemma star_loop_sound {A : Type} (ic : bool) (r : regex)
  (IH : forall c g (k : cursor -> groups -> option A) a,
          run ic r c g k = Some a ->
          exists n caps, lang ic r c n caps /\ k (feed c n) (caps ++ g)%list = Some a)
  (k : cursor -> groups -> option A) (a : A) :
  forall fuel c g,
    star_loop ic r k fuel c g = Some a ->
    exists n caps, lang ic (Star r) c n caps /\ k (feed c n) (caps ++ g)%list = Some a.
Proof.
  induction fuel as [|fuel IHf]; intros c g H; cbn [star_loop] in H.
  - exists 0, []. split; [constructor|exact H].
  - destruct (run ic r c g _) as [a'|] eqn:E.
    + injection H as ->. apply IH in E as (n1 & caps1 & L1 & E).
      destruct (pos (feed c n1) =? pos c); [discriminate|].
      apply IHf in E as (n2 & caps2 & L2 & E).
      exists (n1 + n2), (caps2 ++ caps1)%list.
      split; [econstructor; eassumption|].
      rewrite <- feed_add, <- app_assoc. exact E.
    + exists 0, []. split; [constructor|exact H].
Qed.

Lemma run_sound {A : Type} (ic : bool) (r : regex) :
  forall c g (k : cursor -> groups -> option A) a,
    run ic r c g k = Some a ->
    exists n caps, lang ic r c n caps /\ k (feed c n) (caps ++ g)%list = Some a.
Proof.
  induction r as [| p | neg cs | | | | r1 IH1 r2 IH2 | r1 IH1 r2 IH2 | r' IH | i r' IH];
    intros c g k a H.
  - exists 0, []. split; [constructor|exact H].
  - apply one_sound in H as (x & s' & Hr & Hx & H).
    exists 1, []. split; [econstructor; eassumption|exact H].
  - apply one_sound in H as (x & s' & Hr & Hx & H).
    exists 1, []. split; [econstructor; eassumption|exact H].
  - apply one_sound in H as (x & s' & Hr & Hx & H).
    exists 1, []. split; [econstructor; eassumption|exact H].
  - apply one_sound in H as (x & s' & Hr & Hx & H).
    exists 1, []. split; [econstructor; eassumption|exact H].
  - cbn [run] in H. destruct (at_boundary c) eqn:E; [|discriminate].
    exists 0, []. split; [constructor; exact E|exact H].
  - rewrite run_cat in H. apply IH1 in H as (n1 & caps1 & L1 & H).
    apply IH2 in H as (n2 & caps2 & L2 & H).
    exists (n1 + n2), (caps2 ++ caps1)%list.
    split; [econstructor; eassumption|].
    rewrite <- feed_add, <- app_assoc. exact H.
  - rewrite run_alt in H. destruct (run ic r1 c g k) as [a'|] eqn:E.
    + injection H as ->. apply IH1 in E as (n & caps & L & E).
      exists n, caps. split; [now apply lang_alt_l|exact E].
    + apply IH2 in H as (n & caps & L & H).
      exists n, caps. split; [now apply lang_alt_r|exact H].
  - rewrite run_star in H. eapply star_loop_sound; eassumption.
  - rewrite run_grp in H. apply IH in H as (n & caps & L & H).
    exists n, ((i, substring 0 n (rest c)) :: caps).
    split; [now constructor|].
    replace (pos (feed c n) - pos c) with n in H; [exact H|].
    pose proof (lang_length ic r' c n caps L). lia.
Qed.

Lemma match_at_sound (ic : bool) (r : regex) (c c' : cursor) (g : groups) :
  match_at ic r c = Some (c', g) ->
  exists n, lang ic r c n g /\ c' = feed c n.
Proof.
  unfold match_at. intros H. apply run_sound in H as (n & caps & L & H).
  injection H as <- <-. rewrite app_nil_r. eauto.
Qed.

(** Every match of [finditer] is a match of the pattern at its offset. *)
Lemma scan_sound (ic : bool) (r : regex) (s : string) :
  forall pv p skip m,
    In m (scan ic r pv s p skip) ->
    exists pre suf pv' n,
      s = pre ++ suf /\ m_start m = p + String.length pre
      /\ lang ic r {| prev := pv'; rest := suf; pos := m_start m |} n (m_groups m)
      /\ m_end m = m_start m + n /\ m_group0 m = substring 0 n suf
      /\ pv' = last_or pv pre.
Proof.
  assert (Here : forall pv s p c' g,
    match_at ic r {| prev := pv; rest := s; pos := p |} = Some (c', g) ->
    exists pre suf pv' n,
      s = pre ++ suf /\ p = p + String.length pre
      /\ lang ic r {| prev := pv'; rest := suf; pos := p |} n g
      /\ pos c' = p + n /\ substring 0 (pos c' - p) s = substring 0 n suf
      /\ pv' = last_or pv pre).
  { intros pv s0 p c' g H. apply match_at_sound in H as (n & L & ->).
    destruct (lang_length _ _ _ _ _ L) as [_ P]. cbn [pos] in P.
    exists "", s0, pv, n. rewrite P. simpl.
    replace (p + n - p) with n by lia. repeat split; try lia. exact L. }
  induction s as [|x s IH]; intros pv p skip m; simpl.
  - destruct skip as [|skip]; [|intros []].
    destruct (match_at ic r _) as [[c' g]|] eqn:E; [|intros []].
    intros [<-|[]]. cbn [m_start m_end m_group0 m_groups].
    apply (Here pv "" p c' g E).
  - assert (Tail : forall skip',
      In m (scan ic r (Some x) s (S p) skip') ->
      exists pre suf pv' n,
        String x s = pre ++ suf /\ m_start m = p + String.length pre
        /\ lang ic r {| prev := pv'; rest := suf; pos := m_start m |} n (m_groups m)
        /\ m_end m = m_start m + n /\ m_group0 m = substring 0 n suf
        /\ pv' = last_or pv pre).
    { intros skip' H.
      apply IH in H as (pre & suf & pv' & n & -> & Hs & L & He & Hg & Hp).
      exists (String x pre), suf, pv', n. simpl.
      repeat split; try assumption. lia. }
    destruct skip as [|skip]; [|apply Tail].
    destruct (match_at ic r _) as [[c' g]|] eqn:E; [|apply Tail].
    intros [<-|H]; [|exact (Tail _ H)].
    cbn [m_start m_end m_group0 m_groups].
    apply (Here pv (String x s) p c' g E).
Qed.

Lemma finditer_sound (ic : bool) (r : regex) (text : string) (m : rmatch) :
  In m (finditer ic r text) ->
  exists pre suf pv n,
    text = pre ++ suf /\ m_start m = String.length pre
    /\ lang ic r {| prev := pv; rest := suf; pos := m_start m |} n (m_groups m)
    /\ m_end m = m_start m + n /\ m_group0 m = substring 0 n suf
    /\ pv = last_or None pre.
Proof. intros H. apply scan_sound in H. exact H. Qed.

Lemma lang_plain (ic : bool) (r : regex) (c : cursor) (n : nat) (caps : groups) :
  lang ic r c n caps -> plain r = true -> caps = [].
Proof.
  induction 1 as [c | p x s' c E _ | neg cs x s' c E _ | x s' c E _ | x s' c E _
                 | c _ | r1 r2 c n1 n2 caps1 caps2 _ IH1 _ IH2
                 | r1 r2 c n caps _ IH | r1 r2 c n caps _ IH
                 | r c | r c n1 n2 caps1 caps2 _ IH1 _ IH2
                 | i r c n caps _ IH]; simpl; intros P; try reflexivity.
  - apply andb_true_iff in P as [P1 P2]. now rewrite IH1, IH2.
  - apply andb_true_iff in P as [P1 P2]. auto.
  - apply andb_true_iff in P as [P1 P2]. auto.
  - now rewrite IH1, IH2.
  - discriminate.
Qed.

Lemma feed_split (n : nat) :
  forall c, rest c = substring 0 n (rest c) ++ rest (feed c n).
Proof.
  induction n as [|n IH]; intros c; simpl.
  - now destruct (rest c).
  - destruct (rest c) as [|x s'] eqn:E; simpl; [now rewrite E|].
    f_equal. apply (IH (advance x s' c)).
Qed.

(** A word of the pattern matches that word, in any case. *)
Lemma lang_lits (w : string) :
  forall c n caps,
    lang true (lits w) c n caps ->
    n = String.length w /\ caps = []
    /\ lower (substring 0 n (rest c)) = lower w.
Proof.
  induction w as [|p w IH]; intros c n caps H; cbn [lits] in H.
  - inversion H; subst. simpl. now destruct (rest c).
  - inversion H as [| | | | | | r1 r2 c0 n1 n2 caps1 caps2 H1 H2 | | | | |]; subst.
    inversion H1 as [|p0 x s' c0 E Hx| | | | | | | | | |]; subst.
    apply IH in H2 as (-> & -> & Hl).
    split; [reflexivity|]. split; [reflexivity|].
    rewrite (feed_one c x s' E) in Hl. cbn [rest advance] in Hl.
    rewrite E. simpl. rewrite Hl. f_equal.
    unfold char_eq in Hx. apply Ascii.eqb_eq in Hx. congruence.
Qed.

Lemma lang_star_space (ic : bool) (c : cursor) (n : nat) (caps : groups) :
  lang ic (Star Space) c n caps ->
  caps = [] /\ all_space (substring 0 n (rest c)) = true.
Proof.
  remember (Star Space) as r eqn:Hr. intros H. revert Hr.
  induction H as [c | p x s' c E _ | neg cs x s' c E _ | x s' c E _ | x s' c E _
                 | c _ | r1 r2 c n1 n2 caps1 caps2 _ IH1 _ IH2
                 | r1 r2 c n caps _ IH | r1 r2 c n caps _ IH
                 | r c | r c n1 n2 caps1 caps2 H1 _ H2 IH2
                 | i r c n caps _ IH]; intros Hr; try discriminate.
  - split; [reflexivity|]. simpl. now destruct (rest c).
  - injection Hr as ->. destruct (IH2 eq_refl) as [-> Hs].
    inversion H1 as [| | | |x s' c0 E Hx| | | | | | |]; subst.
    split; [reflexivity|].
    rewrite (feed_one c x s' E) in Hs. cbn [rest advance] in Hs.
    rewrite E. simpl. now rewrite Hx, Hs.
Qed.

(** Whitespace of the pattern matches a run of whitespace, not empty. *)
Lemma lang_plus_space (ic : bool) (c : cursor) (n : nat) (caps : groups) :
  lang ic (Plus Space) c n caps ->
  caps = [] /\ 1 <= n /\ all_space (substring 0 n (rest c)) = true.
Proof.
  unfold Plus. intros H.
  inversion H as [| | | | | | r1 r2 c0 n1 n2 caps1 caps2 H1 H2 | | | | |]; subst.
  inversion H1 as [| | | |x s' c0 E Hx| | | | | | |]; subst.
  apply lang_star_space in H2 as [-> Hs].
  split; [reflexivity|]. split; [lia|].
  rewrite (feed_one c x s' E) in Hs. cbn [rest advance] in Hs.
  rewrite E. simpl. now rewrite Hx, Hs.
Qed.

Lemma substring_add (n1 n2 : nat) :
  forall c, n1 <= String.length (rest c) ->
            substring 0 (n1 + n2) (rest c)
            = substring 0 n1 (rest c) ++ substring 0 n2 (rest (feed c n1)).
Proof.
  induction n1 as [|n1 IH]; intros c H; simpl.
  - now destruct (rest c); destruct n2.
  - destruct (rest c) as [|x s'] eqn:E; simpl in H; [lia|].
    simpl. f_equal. apply (IH (advance x s' c)). simpl. lia.
Qed.

(** A match of the pattern of some items reads as the items. *)
Lemma lang_items (l : list item) :
  forall c n caps,
    lang true (cats (map item_pattern l)) c n caps ->
    reads l (substring 0 n (rest c)).
Proof.
  induction l as [|i l IH]; intros c n caps H; cbn [map cats] in H.
  - inversion H; subst. simpl. destruct (rest c); constructor.
  - inversion H as [| | | | | | r1 r2 c0 n1 n2 caps1 caps2 H1 H2 | | | | |]; subst.
    destruct (lang_length _ _ _ _ _ H1) as [Hn _].
    rewrite (substring_add n1 n2 c Hn). apply IH in H2.
    destruct i as [w|]; cbn [item_pattern] in H1.
    + apply lang_lits in H1 as (_ & _ & Hl). now constructor.
    + apply lang_plus_space in H1 as (_ & H1 & Hs). constructor; [|exact H2].
      split; [|exact Hs]. destruct n1; [lia|].
      destruct (rest c); [simpl in Hn; lia|discriminate].
Qed.

Lemma reads_last (table tb : string) :
  reads [Word table] tb -> lower tb = lower table.
Proof.
  intros H. inversion H as [|w kw l s Hl Hr|]; subst.
  inversion Hr; subst. now rewrite append_nil_r.
Qed.

Lemma reads_insert (table stmt : string) :
  lower table = table -> reads (insert_items table) stmt -> mutation_stmt table stmt.
Proof.
  intros Ht HA. unfold insert_items in HA.
  inversion HA as [|w kw l s Hk R1|]; subst.
  inversion R1 as [| |ws1 l s1 Hw1 R2]; subst.
  inversion R2 as [|w into l s2 Hi R3|]; subst.
  inversion R3 as [| |ws2 l s3 Hw2 R4]; subst.
  apply reads_last in R4. rewrite Ht in R4. now constructor.
Qed.

Lemma reads_update (table stmt : string) :
  lower table = table -> reads (update_items table) stmt -> mutation_stmt table stmt.
Proof.
  intros Ht HU. unfold update_items in HU.
  inversion HU as [|w kw l s Hk R1|]; subst.
  inversion R1 as [| |ws1 l s1 Hw1 R2]; subst.
  apply reads_last in R2. rewrite Ht in R2. now constructor.
Qed.

Lemma reads_delete (table stmt : string) :
  lower table = table -> reads (delete_items table) stmt -> mutation_stmt table stmt.
Proof.
  intros Ht HD. unfold delete_items in HD.
  inversion HD as [|w kw l s Hk R1|]; subst.
  inversion R1 as [| |ws1 l s1 Hw1 R2]; subst.
  inversion R2 as [|w from l s2 Hi R3|]; subst.
  inversion R3 as [| |ws2 l s3 Hw2 R4]; subst.
  apply reads_last in R4. rewrite Ht in R4. now constructor.
Qed.

(** What the pattern of the scanner matches is a mutation statement. *)
Lemma mutation_lang_stmt (table : string) (c : cursor) (n : nat) (caps : groups) :
  lower table = table ->
  lang true (Guardian.mutation_pattern table) c n caps ->
  mutation_stmt table (substring 0 n (rest c))
  /\ caps = [(1, substring 0 n (rest c))].
Proof.
  intros Ht H. unfold Guardian.mutation_pattern in H.
  inversion H as [| | | | | | | | | | |i r c0 n0 caps0 H0]; subst.
  assert (P : caps0 = []).
  { apply (lang_plain _ _ _ _ _ H0). simpl.
    assert (Pl : forall w, plain (lits w) = true) by (induction w; simpl; auto).
    now rewrite !Pl. }
  subst caps0. split; [|reflexivity].
  inversion H0 as [| | | | | | |r1 r2 c0 n0 caps0 HA|r1 r2 c0 n0 caps0 HB| | |]; subst.
  - apply reads_insert; [exact Ht|].
    exact (lang_items (insert_items table) _ _ _ HA).
  - inversion HB as [| | | | | | |r1 r2 c0 n0 caps0 HU|r1 r2 c0 n0 caps0 HD| | |]; subst.
    + apply reads_update; [exact Ht|].
      exact (lang_items (update_items table) _ _ _ HU).
    + apply reads_delete; [exact Ht|].
      exact (lang_items (delete_items table) _ _ _ HD).
Qed.

(** C3 (as the code has it).  The scanner matches the mutation statements
    on a sensitive table without regard to case, and with no condition on
    the characters around them.  Every match is such a statement, cut from
    the text at its offset; and at the start of a statement the pattern
    matches the statement, whatever the character before it and whatever
    text follows the table name.  A statement on a longer identifier that
    starts with the table name is therefore matched, up to the end of the
    table name. *)
Theorem mutation_match_ignores_context (table : string) :
  In table Guardian.suspicious_tables ->
  (forall (text : string) (m : rmatch),
     In m (finditer true (Guardian.mutation_pattern table) text) ->
     mutation_stmt table (m_group0 m)
     /\ m_group0 m = substring (m_start m) (m_end m - m_start m) text)
  /\ (forall (stmt suf : string) (pv : option ascii) (p : nat),
        mutation_stmt table stmt ->
        match_at true (Guardian.mutation_pattern table)
          {| prev := pv; rest := stmt ++ suf; pos := p |}
        = Some (feed {| prev := pv; rest := stmt ++ suf; pos := p |}
                  (String.length stmt),
                [(1, stmt)])
        /\ hd_error (finditer true (Guardian.mutation_pattern table) (stmt ++ suf))
           = Some {| m_start := 0; m_end := String.length stmt; m_group0 := stmt;
                     m_groups := [(1, stmt)] |}).
Proof.
  intros Ht. split.
  - intros text m Hm.
    apply finditer_sound in Hm as (pre & suf & pv & n & -> & Hs & L & He & Hg & _).
    destruct (sensitive_table table Ht) as [Hl _].
    apply (mutation_lang_stmt table _ _ _ Hl) in L as [L _]. cbn [rest] in L.
    rewrite Hg. split; [exact L|].
    rewrite He, Hs. replace (String.length pre + n - String.length pre) with n by lia.
    replace (String.length pre) with (String.length pre + 0) by lia.
    now rewrite substring_skip.
  - intros stmt suf pv p Hm. split; [now apply mutation_match_at|].
    unfold finditer.
    rewrite (scan_head _ _ _ _ _ _ _ (mutation_match_at table stmt suf None 0 Ht Hm)).
    destruct (feed_rest stmt suf {| prev := None; rest := stmt ++ suf; pos := 0 |} eq_refl)
      as [_ P].
    rewrite P. cbn [pos]. rewrite Nat.add_0_l, Nat.sub_0_r, substring_prefix.
    reflexivity.
Qed.

(** An update of [budgets_archive], read as an update of budgets. *)
Lemma mutation_match_ignores_context_witness :
  In "budgets" Guardian.suspicious_tables
  /\ mutation_stmt "budgets" "UPDATE budgets"
  /\ hd_error (finditer true (Guardian.mutation_pattern "budgets")
                 "UPDATE budgets_archive SET spent = 0")
     = Some {| m_start := 0; m_end := 14; m_group0 := "UPDATE budgets";
               m_groups := [(1, "UPDATE budgets")] |}.
Proof.
  assert (Ht : In "budgets" Guardian.suspicious_tables) by (simpl; auto).
  assert (Hs : mutation_stmt "budgets" "UPDATE budgets").
  { apply (stmt_update "budgets" "UPDATE" " " "budgets");
      [reflexivity|split; [discriminate|reflexivity]|reflexivity]. }
  split; [exact Ht|]. split; [exact Hs|].
  exact (proj2 (proj2 (mutation_match_ignores_context "budgets" Ht)
                  "UPDATE budgets" "_archive SET spent = 0" None 0 Hs)).
Defined.

(** C3 (as stated) fails: an update of [budgets_archive] is counted as a
    match for the sensitive table [budgets], and it is reported as a
    finding for it. *)
Lemma archive_statement_is_matched :
  finditer true (Guardian.mutation_pattern "budgets")
    "UPDATE budgets_archive SET spent = 0"
  = [ {| m_start := 0; m_end := 14; m_group0 := "UPDATE budgets";
         m_groups := [(1, "UPDATE budgets")] |} ]
  /\ Guardian.ghost_hits "UPDATE budgets_archive SET spent = 0"
     = [("budgets", "UPDATE budgets", 0)].
Proof. split; vm_compute; reflexivity. Qed.

(** ** The string literals and the tags of a line *)

Ltac inv H := inversion H; subst; clear H.

Lemma lang_quoted (q : ascii) (i : nat) (c : cursor) (n : nat) (caps : groups) :
  lang false (SemanticsLint.quoted q i) c n caps ->
  exists seg post, rest c = String q (seg ++ String q post) /\ caps = [(i, seg)].
Proof.
  unfold SemanticsLint.quoted. cbn [cats]. intros H.
  repeat match goal with
         | H : lang _ (Cat _ _) _ _ _ |- _ => inv H
         | H : lang _ (Lit _) _ _ _ |- _ => inv H
         | H : lang _ (Grp _ _) _ _ _ |- _ => inv H
         | H : lang _ Eps _ _ _ |- _ => inv H
         end.
  repeat match goal with
         | H : lang _ (Star _) _ _ _ |- _ =>
             apply lang_plain in H; [subst|reflexivity]
         | H : char_eq false _ _ = true |- _ =>
             unfold char_eq in H; apply Ascii.eqb_eq in H; subst
         end.
  match goal with
  | H0 : rest (feed (feed c 1) ?m) = String ?x ?s', H3 : rest c = String ?x ?s0 |- _ =>
      pose proof (feed_split m (feed c 1)) as F; rewrite H0 in F;
      exists (substring 0 m (rest (feed c 1))), s'; split; [|reflexivity];
      rewrite H3; f_equal; rewrite (feed_one c x s0 H3) in F |- *; exact F
  end.
Qed.

Lemma lang_string_literal (c : cursor) (n : nat) (caps : groups) :
  lang false SemanticsLint.STRING_LITERAL_RE c n caps ->
  exists q i seg post,
    In q ["'"%char; SemanticsLint.quote; "`"%char] /\ In i [1; 2; 3]
    /\ rest c = String q (seg ++ String q post) /\ caps = [(i, seg)].
Proof.
  unfold SemanticsLint.STRING_LITERAL_RE. intros H.
  inversion H as [| | | | | | |r1 r2 c0 n0 caps0 H1|r1 r2 c0 n0 caps0 H1| | |]; subst.
  - apply lang_quoted in H1 as (seg & post & R & ->).
    exists "'"%char, 1, seg, post. simpl. repeat split; auto 10.
  - inversion H1 as [| | | | | | |r1 r2 c0 n0 caps0 H2|r1 r2 c0 n0 caps0 H2| | |]; subst.
    + apply lang_quoted in H2 as (seg & post & R & ->).
      exists SemanticsLint.quote, 2, seg, post. simpl. repeat split; auto 10.
    + apply lang_quoted in H2 as (seg & post & R & ->).
      exists "`"%char, 3, seg, post. simpl. repeat split; auto 10.
Qed.

(** What [extract_string_literals] returns stands between two quotes of
    the same kind on the line. *)
Lemma extract_string_literals_quoted (line segment : string) :
  In segment (SemanticsLint.extract_string_literals line) ->
  quoted_in line segment.
Proof.
  unfold SemanticsLint.extract_string_literals. rewrite in_flat_map.
  intros (m & Hm & Hs).
  apply finditer_sound in Hm as (pre & suf & pv & n & -> & _ & L & _ & _ & _).
  apply lang_string_literal in L as (q & i & seg & post & Hq & Hi & R & G).
  cbn [rest] in R. subst suf.
  assert (segment = seg).
  { unfold groups_tuple in Hs. rewrite G in Hs.
    simpl in Hi. destruct Hi as [<-|[<-|[<-|[]]]]; simpl in Hs;
      destruct Hs as [<-|[]]; reflexivity. }
  subst seg. exists pre, q, post. auto.
Qed.

Lemma chars_append (a b : string) : chars (a ++ b) = (chars a ++ chars b)%list.
Proof. induction a; simpl; congruence. Qed.

Lemma chars_of_list (l : list ascii) : chars (string_of_list_ascii l) = l.
Proof. induction l; simpl; congruence. Qed.

Lemma one_line_append (a b : string) :
  one_line (a ++ b) <-> one_line a /\ one_line b.
Proof. unfold one_line. rewrite chars_append. apply Forall_app. Qed.

(** The lines of [splitlines] hold no line boundary. *)
Lemma splitlines_from_one_line (s : string) :
  forall cur after_cr line,
    Forall (fun ch => islinebreak ch = false) cur ->
    In line (splitlines_from cur after_cr s) -> one_line line.
Proof.
  assert (Cur : forall cur, Forall (fun ch => islinebreak ch = false) cur ->
                            one_line (rev_string cur)).
  { intros cur H. unfold one_line, rev_string. rewrite chars_of_list.
    apply Forall_rev. exact H. }
  induction s as [|c s IH]; intros cur after_cr line Hc; simpl.
  - unfold flush. destruct cur; [intros []|]. intros [<-|[]]. now apply Cur.
  - destruct (after_cr && (code c =? 10)).
    + apply IH. constructor.
    + destruct (islinebreak c) eqn:E.
      * intros [<-|H]; [now apply Cur|]. eapply IH; [|exact H]. constructor.
      * apply IH. constructor; assumption.
Qed.

Lemma splitlines_one_line (text line : string) :
  In line (splitlines text) -> one_line line.
Proof. apply splitlines_from_one_line. constructor. Qed.

(** A substitution brings in the characters of the replacement only. *)
Lemma sub_from_chars (ic : bool) (r : regex) (repl : string) (s : string) :
  forall pv skip ch,
    In ch (chars (sub_from ic r repl pv s skip)) ->
    In ch (chars repl) \/ In ch (chars s).
Proof.
  induction s as [|x s IH]; intros pv skip ch; simpl.
  - destruct skip; [|intros []].
    destruct (match_at ic r _) as [[c' g]|]; [|intros []].
    rewrite append_nil_r. auto.
  - destruct skip as [|skip].
    + destruct (match_at ic r _) as [[c' g]|].
      * rewrite chars_append, in_app_iff. intros [H|H]; [auto|].
        apply IH in H. tauto.
      * simpl. intros [->|H]; [auto|]. apply IH in H. tauto.
    + intros H. apply IH in H. tauto.
Qed.

(** What is searched on a line holds no line boundary either. *)
Lemma segments_one_line (ext line segment : string) :
  one_line line -> In segment (SemanticsLint.segments ext line) -> one_line segment.
Proof.
  intros Hl. unfold SemanticsLint.segments.
  destruct (SemanticsLint.mem ext _).
  - intros H. apply extract_string_literals_quoted in H as (pre & q & post & _ & ->).
    apply one_line_append in Hl as [_ Hl].
    change (String q (segment ++ String q post))
      with (String q "" ++ (segment ++ String q post)) in Hl.
    apply one_line_append in Hl as [_ Hl].
    apply one_line_append in Hl as [Hl _]. exact Hl.
  - destruct (SemanticsLint.mem ext _).
    + intros [<-|[]]. unfold one_line, SemanticsLint.strip_html_tags, sub.
      apply Forall_forall. intros ch H. apply sub_from_chars in H as [H|H].
      * simpl in H. destruct H as [<-|[]]. reflexivity.
      * unfold one_line in Hl. rewrite Forall_forall in Hl. auto.
    + intros [<-|[]]. exact Hl.
Qed.

(** ** The hits of the lint *)

Lemma fold_left_append {A B : Type} (f : list B -> A -> list B) (g : A -> list B) :
  (forall acc x, f acc x = (acc ++ g x)%list) ->
  forall l acc, fold_left f l acc = (acc ++ flat_map g l)%list.
Proof.
  intros H. induction l as [|x l IH]; intros acc; simpl.
  - now rewrite app_nil_r.
  - now rewrite IH, H, <- app_assoc.
Qed.

Lemma enumerate1_in {A : Type} (l : list A) (i : nat) (x : A) :
  In (i, x) (SemanticsLint.enumerate1 l) <-> 1 <= i /\ nth_error l (i - 1) = Some x.
Proof.
  unfold SemanticsLint.enumerate1. generalize 1 as s.
  induction l as [|y l IH]; intros s; simpl.
  - split; [intros []|]. intros [_ H]. now destruct (i - s).
  - rewrite IH. split.
    + intros [E|[Hi Hn]].
      * injection E as <- <-. rewrite Nat.sub_diag. split; [lia|reflexivity].
      * split; [lia|]. replace (i - s) with (S (i - S s)) by lia. exact Hn.
    + intros [Hi Hn]. destruct (i - s) as [|k] eqn:E.
      * left. injection Hn as <-. f_equal. lia.
      * right. split; [lia|]. replace (i - S s) with k by lia. exact Hn.
Qed.

Lemma lint_hits_eq (t : SemanticsLint.Tree) (args : list string) :
  SemanticsLint.lint_hits t args =
  flat_map file_hits (SemanticsLint.iter_files t (SemanticsLint.find_roots t args)).
Proof.
  unfold SemanticsLint.lint_hits.
  rewrite (fold_left_append SemanticsLint.scan_file file_hits); [reflexivity|].
  intros acc [path [text|]]; unfold SemanticsLint.scan_file, file_hits; cbn [fst snd];
    [|now rewrite app_nil_r].
  apply fold_left_append. intros acc1 nl.
  unfold SemanticsLint.scan_line, line_hits.
  apply fold_left_append. intros acc2 segment.
  unfold SemanticsLint.scan_segment, segment_hits.
  apply fold_left_append. intros acc3 tp.
  destruct (SemanticsLint.found (snd tp) segment); [reflexivity|now rewrite app_nil_r].
Qed.

Lemma lint_hits_flagged (t : SemanticsLint.Tree) (args : list string)
  (h : SemanticsLint.hit) :
  In h (SemanticsLint.lint_hits t args) <-> flagged t args h.
Proof.
  rewrite lint_hits_eq, in_flat_map. destruct h as [[[path line_no] term] shown].
  unfold flagged. split.
  - intros ([p [text|]] & Hf & H); unfold file_hits in H; cbn [fst snd] in H;
      [|contradiction].
    apply in_flat_map in H as ([no line] & Hl & H).
    apply enumerate1_in in Hl as [H1 Hn].
    unfold line_hits in H. cbn [fst snd] in H.
    apply in_flat_map in H as (segment & Hs & H).
    unfold segment_hits in H. apply in_flat_map in H as ([term' pat] & Hp & H).
    cbn [fst snd] in H.
    destruct (SemanticsLint.found pat segment) eqn:Ef; [|contradiction].
    destruct H as [E|[]]. injection E as E1 E2 E3 E4. subst.
    unfold SemanticsLint.patterns in Hp. apply in_map_iff in Hp as (term0 & E & Ht).
    injection E as E1 E2. subst.
    exists text, line, segment. auto 10.
  - intros (text & line & segment & Hf & H1 & Hn & -> & Hs & Ht & Ef).
    exists (path, Some text). split; [exact Hf|].
    unfold file_hits. cbn [fst snd]. apply in_flat_map.
    exists (line_no, line). split; [apply enumerate1_in; auto|].
    unfold line_hits. cbn [fst snd]. apply in_flat_map.
    exists segment. split; [exact Hs|].
    unfold segment_hits. apply in_flat_map.
    exists (term, SemanticsLint.term_pattern term). split.
    + unfold SemanticsLint.patterns. apply in_map_iff. eauto.
    + cbn [fst snd]. rewrite Ef. left. reflexivity.
Qed.


(** ** The patterns of the terms *)

Lemma lang_word_pattern (w : string) (c : cursor) (n : nat) (caps : groups) :
  lang true (SemanticsLint.word_pattern w) c n caps ->
  caps = [] /\ lower (substring 0 n (rest c)) = lower w
  /\ at_boundary c = true /\ at_boundary (feed c n) = true.
Proof.
  unfold SemanticsLint.word_pattern. cbn [cats]. intros H.
  inversion H as [| | | | | | r1 r2 c0 n1 n2 caps1 caps2 H1 H2 | | | | |]; subst.
  inversion H1 as [| | | | |c0 B1| | | | | |]; subst.
  inversion H2 as [| | | | | | r1 r2 c0 n1 n3 caps1 caps3 H3 H4 | | | | |]; subst.
  inversion H4 as [| | | | | | r1 r2 c0 n4 n5 caps4 caps5 H5 H6 | | | | |]; subst.
  inversion H5 as [| | | | |c0 B2| | | | | |]; subst.
  inversion H6; subst.
  apply lang_lits in H3 as (-> & -> & Hl).
  cbn [feed] in *. rewrite !Nat.add_0_r. simpl. auto.
Qed.

Lemma hd_error_in {A : Type} (l : list A) (x : A) : hd_error l = Some x -> In x l.
Proof. destruct l; simpl; [discriminate|]. intros H. injection H as ->. now left. Qed.

Lemma last_or_append (pv : option ascii) (a b : string) :
  last_or pv (a ++ b) = last_or (last_or pv a) b.
Proof. revert pv. induction a; intros pv; simpl; auto. Qed.

Lemma feed_prev (n : nat) :
  forall c, prev (feed c n) = last_or (prev c) (substring 0 n (rest c)).
Proof.
  induction n as [|n IH]; intros c; simpl.
  - now destruct (rest c).
  - destruct (rest c) as [|x s'] eqn:E; [reflexivity|].
    rewrite IH. reflexivity.
Qed.

(** The cursor after a prefix of the text, and the boundary there. *)
Lemma feed_after (pre : string) (n : nat) (c : cursor) :
  prev c = last_or None pre ->
  prev (feed c n) = last_or None (pre ++ substring 0 n (rest c)).
Proof. intros H. now rewrite feed_prev, last_or_append, H. Qed.

Lemma at_boundary_between (pre : string) (c : cursor) :
  prev c = last_or None pre -> at_boundary c = boundary_between pre (rest c).
Proof.
  intros H. unfold at_boundary, boundary_between, next_char, first_char.
  rewrite H. reflexivity.
Qed.

(** Where the pattern of one word is found, the word stands in the
    segment between two word boundaries. *)
Lemma found_word (w segment : string) :
  SemanticsLint.found (SemanticsLint.word_pattern w) segment = true ->
  word_in w segment.
Proof.
  unfold SemanticsLint.found, search.
  destruct (hd_error _) as [m|] eqn:E; [|discriminate]. intros _.
  apply hd_error_in, finditer_sound in E
    as (pre & suf & pv & n & -> & _ & L & _ & _ & Hpv).
  set (c := {| prev := pv; rest := suf; pos := m_start m |}) in *.
  apply lang_word_pattern in L as (_ & La & B1 & B2).
  exists pre, (substring 0 n (rest c)), (rest (feed c n)).
  split; [f_equal; apply (feed_split n c)|]. split; [exact La|].
  unfold delimited. rewrite <- (feed_split n c).
  rewrite <- (at_boundary_between pre c Hpv).
  rewrite <- (at_boundary_between _ (feed c n) (feed_after pre n c Hpv)).
  auto.
Qed.

(** Where the pattern of two words is found, the two words stand in the
    segment with whitespace between them. *)
Lemma found_word_pair (w1 w2 segment : string) :
  SemanticsLint.found
    (Cat (SemanticsLint.word_pattern w1)
         (Cat (Plus Space) (SemanticsLint.word_pattern w2))) segment = true ->
  word_pair_in w1 w2 segment.
Proof.
  unfold SemanticsLint.found, search.
  destruct (hd_error _) as [m|] eqn:E; [|discriminate]. intros _.
  apply hd_error_in, finditer_sound in E
    as (pre & suf & pv & n & -> & _ & L & _ & _ & Hpv).
  inversion L as [| | | | | | r1 r2 c0 n1 n2 caps1 caps2 H1 H2 | | | | |]; subst.
  inversion H2 as [| | | | | | r1 r2 c0 n3 n4 caps3 caps4 H3 H4 | | | | |]; subst.
  set (c := {| prev := last_or None pre; rest := suf; pos := m_start m |}) in *.
  destruct (lang_length _ _ _ _ _ H3) as [Hn3 _].
  apply lang_word_pattern in H1 as (_ & La & B1 & B2).
  apply lang_plus_space in H3 as (_ & Hp & Hs).
  apply lang_word_pattern in H4 as (_ & Lb & B3 & B4).
  set (a := substring 0 n1 (rest c)) in *.
  set (c1 := feed c n1) in *.
  set (ws := substring 0 n3 (rest c1)) in *.
  set (c2 := feed c1 n3) in *.
  set (b := substring 0 n4 (rest c2)) in *.
  assert (R0 : rest c = a ++ rest c1) by apply feed_split.
  assert (R1 : rest c1 = ws ++ rest c2) by apply feed_split.
  assert (R2 : rest c2 = b ++ rest (feed c2 n4)) by apply feed_split.
  assert (P0 : prev c = last_or None pre) by reflexivity.
  assert (P1 : prev c1 = last_or None (pre ++ a)) by (apply feed_after; exact P0).
  assert (P2 : prev c2 = last_or None (pre ++ a ++ ws)).
  { rewrite <- append_assoc. apply feed_after. exact P1. }
  assert (P3 : prev (feed c2 n4) = last_or None ((pre ++ a ++ ws) ++ b))
    by (apply feed_after; exact P2).
  exists pre, a, ws, b, (rest (feed c2 n4)).
  split; [change suf with (rest c); now rewrite R0, R1, R2|].
  split; [exact La|]. split.
  { split; [|exact Hs]. subst ws.
    destruct n3; [lia|]. destruct (rest c1); [simpl in Hn3; lia|discriminate]. }
  split; [exact Lb|].
  rewrite (at_boundary_between _ _ P0) in B1.
  rewrite (at_boundary_between _ _ P1) in B2.
  rewrite (at_boundary_between _ _ P2) in B3.
  rewrite (at_boundary_between _ _ P3) in B4.
  unfold delimited. rewrite <- R2, <- R1, <- R0. auto.
Qed.

(** C10.  The lint matches line by line.  The lines it reads hold no line
    boundary, and neither does anything it searches on them; every hit
    comes from one line of a file, with the pattern of the term found in a
    segment of that line.  Where a term of one word is found, the word
    stands in that segment, in any case, between two word boundaries;
    where a term of two words is found, its two words stand there so, with
    whitespace between them and no line boundary in it.  So a term whose
    words are on two lines is not flagged, and the same term on one line
    is. *)
Theorem lint_matches_within_a_line (t : SemanticsLint.Tree) (args : list string) :
  (forall text line, In line (splitlines text) -> one_line line)
  /\ (forall path line_no term shown,
        In (path, line_no, term, shown) (SemanticsLint.lint_hits t args) ->
        exists text line segment,
          In (path, Some text)
            (SemanticsLint.iter_files t (SemanticsLint.find_roots t args))
          /\ nth_error (splitlines text) (line_no - 1) = Some line
          /\ In segment (SemanticsLint.segments (lower (SemanticsLint.suffix path)) line)
          /\ SemanticsLint.found (SemanticsLint.term_pattern term) segment = true
          /\ one_line line /\ one_line segment)
  /\ (forall w segment,
        In w ["wallet"; "gas"; "chain"] ->
        SemanticsLint.found (SemanticsLint.term_pattern w) segment = true ->
        exists pre a post,
          segment = pre ++ a ++ post /\ lower a = w /\ delimited pre a post)
  /\ (forall w1 w2 segment,
        In (w1, w2) [("private", "key"); ("seed", "phrase")] ->
        SemanticsLint.found (SemanticsLint.term_pattern (w1 ++ " " ++ w2)) segment
          = true ->
        one_line segment ->
        exists pre a ws b post,
          segment = pre ++ a ++ ws ++ b ++ post
          /\ lower a = w1 /\ spaces ws /\ one_line ws /\ lower b = w2
          /\ delimited pre a (ws ++ b ++ post)
          /\ delimited (pre ++ a ++ ws) b post)
  /\ SemanticsLint.BANNED_TERMS
     = ["wallet"; "gas"; "chain"; "private" ++ " " ++ "key"; "seed" ++ " " ++ "phrase"]
  /\ SemanticsLint.scan_file []
       ("/repo/notes.md", Some ("Keep your private" ++ Examples.lf ++ "key safe."))
     = []
  /\ SemanticsLint.scan_file []
       ("/repo/notes.md", Some "Keep your Private   KEY safe.")
     = [("/repo/notes.md", 1, "private key", "Keep your Private   KEY safe.")].
Proof.
  split; [exact splitlines_one_line|].
  split; [|split; [|split; [|split; [reflexivity|split; vm_compute; reflexivity]]]].
  - intros path line_no term shown H. apply lint_hits_flagged in H.
    destruct H as (text & line & segment & Hf & H1 & Hn & _ & Hs & _ & Ef).
    assert (Hl : one_line line)
      by (eapply splitlines_one_line, nth_error_In; exact Hn).
    exists text, line, segment.
    split; [exact Hf|]. split; [exact Hn|]. split; [exact Hs|].
    split; [exact Ef|]. split; [exact Hl|].
    eapply segments_one_line; eassumption.
  - intros w segment Hw Ef.
    assert (P : word_in w segment /\ lower w = w).
    { simpl in Hw. destruct Hw as [<-|[<-|[<-|[]]]];
        (split; [apply found_word; exact Ef|reflexivity]). }
    destruct P as ((pre & a & post & -> & Ha & Hd) & L).
    exists pre, a, post. rewrite L in Ha. auto.
  - intros w1 w2 segment Hw Ef Hl.
    assert (P : word_pair_in w1 w2 segment /\ lower w1 = w1 /\ lower w2 = w2).
    { simpl in Hw. destruct Hw as [E|[E|[]]]; injection E as <- <-;
        (split; [apply found_word_pair; exact Ef|split; reflexivity]). }
    destruct P as ((pre & a & ws & b & post & -> & Ha & Hs & Hb & D1 & D2) & L1 & L2).
    exists pre, a, ws, b, post.
    rewrite L1 in Ha. rewrite L2 in Hb.
    split; [reflexivity|]. split; [exact Ha|]. split; [exact Hs|].
    split; [|auto].
    apply one_line_append in Hl as [_ Hl]. apply one_line_append in Hl as [_ Hl].
    apply one_line_append in Hl as [Hl _]. exact Hl.
Qed.

(** The two words of a term on one line, in capitals and three spaces
    apart. *)
Lemma lint_matches_within_a_line_witness :
  SemanticsLint.found (SemanticsLint.term_pattern ("private" ++ " " ++ "key"))
    "Keep your Private   KEY safe." = true
  /\ one_line "Keep your Private   KEY safe."
  /\ exists pre a ws b post,
       "Keep your Private   KEY safe." = pre ++ a ++ ws ++ b ++ post
       /\ lower a = "private" /\ spaces ws /\ one_line ws /\ lower b = "key"
       /\ delimited pre a (ws ++ b ++ post)
       /\ delimited (pre ++ a ++ ws) b post.
Proof.
  assert (F : SemanticsLint.found
                (SemanticsLint.term_pattern ("private" ++ " " ++ "key"))
                "Keep your Private   KEY safe." = true) by (vm_compute; reflexivity).
  assert (L : one_line "Keep your Private   KEY safe.")
    by (repeat constructor).
  split; [exact F|]. split; [exact L|].
  exact (proj1 (proj2 (proj2 (proj2 (lint_matches_within_a_line Examples.site []))))
           "private" "key" _ (or_introl eq_refl) F L).
Defined.

(* ================================================================== *)
(** * Further properties *)
(* ================================================================== *)

(** ** The migration runner *)

Lemma migrate_eq (w : World) (f : string) (st : state w) :
  migrate w f st =
  match files w f with
  | None => (Raise (OtherError ("cannot read " ++ f)), extend st [OpenRead f])
  | Some sql =>
      match executescript (db w) (st_conn st) sql with
      | (c', Ok _) =>
          (Return tt, MkState c' (st_trace st ++ [OpenRead f; ExecuteScript sql]))
      | (c', Raised exc) =>
          (Exit (Message ("Failed applying migration " ++ f ++ ": "
                          ++ exn_message exc)),
           MkState c' (st_trace st ++ [OpenRead f; ExecuteScript sql]))
      end
  end.
Proof.
  unfold migrate, Guardian.open_read, db_executescript, bind, emit, ret, raise,
    system_exit, extend.
  destruct (files w f) as [sql|]; [|reflexivity].
  cbv beta iota delta [st_conn st_trace].
  destruct (executescript (db w) (let (st_conn, _) := st in st_conn) sql)
    as [c' [u|exc]]; rewrite <- app_assoc; reflexivity.
Qed.

Lemma apply_migrations_loop (w : World) (sql_files : list string) :
  Guardian.apply_migrations w sql_files = (for_each sql_files (migrate w) ;;; emit Commit).
Proof. reflexivity. Qed.

Lemma applied_loop (w : World) (sql_files : list string) :
  forall (st : state w) (c : conn (db w)) (d : list action),
    applied w (st_conn st) sql_files c d ->
    for_each sql_files (migrate w) st = (Return tt, MkState c (st_trace st ++ d)).
Proof.
  induction sql_files as [|f fs IH]; intros st c d H; inv H.
  - cbn. unfold ret. rewrite app_nil_r. destruct st; reflexivity.
  - cbn [for_each]. rewrite bind_eq, migrate_eq, H2, H4.
    rewrite (IH _ c d0) by exact H7.
    cbn [st_trace]. rewrite <- app_assoc. reflexivity.
Qed.

Lemma loop_returns_applied (w : World) (sql_files : list string) :
  forall (st st' : state w),
    for_each sql_files (migrate w) st = (Return tt, st') ->
    exists d, applied w (st_conn st) sql_files (st_conn st') d
              /\ st_trace st' = (st_trace st ++ d)%list.
Proof.
  induction sql_files as [|f fs IH]; intros st st' H.
  - cbn in H. unfold ret in H. injection H as <-. exists []. split; [constructor|].
    now rewrite app_nil_r.
  - cbn [for_each] in H. rewrite bind_eq, migrate_eq in H.
    destruct (files w f) as [sql|] eqn:Ef; [|discriminate H].
    destruct (executescript (db w) (st_conn st) sql) as [c1 [[]|exc]] eqn:Ex;
      [|discriminate H].
    apply IH in H. cbn [st_conn st_trace] in H. destruct H as (d & Ha & Ht).
    exists (OpenRead f :: ExecuteScript sql :: d). split.
    + econstructor; eassumption.
    + rewrite Ht, <- app_assoc. reflexivity.
Qed.

Lemma for_each_app {w : World} {A : Type} (a b : list A) (body : A -> M w unit)
  (st : state w) :
  for_each (a ++ b) body st = (for_each a body ;;; for_each b body) st.
Proof.
  revert st. induction a as [|x a IH]; intros st.
  - reflexivity.
  - cbn [for_each app]. rewrite bind_assoc, !bind_eq.
    destruct (body x st) as [[[]|arg|e] st1]; try reflexivity.
    rewrite IH, bind_eq. reflexivity.
Qed.

Lemma loop_trace (w : World) (sql_files : list string) :
  forall (st st' : state w) (o : outcome unit),
    for_each sql_files (migrate w) st = (o, st') ->
    exists d, st_trace st' = (st_trace st ++ d)%list /\ ~ In Commit d.
Proof.
  induction sql_files as [|f fs IH]; intros st st' o H.
  - cbn in H. unfold ret in H. injection H as <- <-. exists []. split; [|intros []].
    now rewrite app_nil_r.
  - cbn [for_each] in H. rewrite bind_eq, migrate_eq in H.
    destruct (files w f) as [sql|] eqn:Ef.
    + destruct (executescript (db w) (st_conn st) sql) as [c1 [[]|exc]] eqn:Ex.
      * apply IH in H. cbn [st_trace] in H. destruct H as (d & Ht & Hn).
        exists (OpenRead f :: ExecuteScript sql :: d). split.
        -- rewrite Ht, <- app_assoc. reflexivity.
        -- intros [E|[E|E]]; [discriminate E|discriminate E|exact (Hn E)].
      * injection H as <- <-. exists [OpenRead f; ExecuteScript sql]. split; [reflexivity|].
        intros [E|[E|[]]]; discriminate E.
    + injection H as <- <-. exists [OpenRead f]. split; [reflexivity|].
      intros [E|[]]; discriminate E.
Qed.

(** X1.  [apply_migrations] returns exactly when every file can be read
    and its script runs, one file after the other; the connection is then
    committed once, after the last script.  A call that does not return
    commits nothing. *)
Theorem apply_migrations_commits_after_all (w : World) (sql_files : list string)
  (st : state w) :
  (fst (Guardian.apply_migrations w sql_files st) = Return tt
   <-> exists c d, applied w (st_conn st) sql_files c d)
  /\ (forall c d,
        applied w (st_conn st) sql_files c d ->
        Guardian.apply_migrations w sql_files st
        = (Return tt, MkState c (st_trace st ++ d ++ [Commit])))
  /\ (fst (Guardian.apply_migrations w sql_files st) <> Return tt ->
      exists d, st_trace (snd (Guardian.apply_migrations w sql_files st))
                = (st_trace st ++ d)%list
                /\ ~ In Commit d).
Proof.
  assert (Hall : forall c d,
            applied w (st_conn st) sql_files c d ->
            Guardian.apply_migrations w sql_files st
            = (Return tt, MkState c (st_trace st ++ d ++ [Commit]))).
  { intros c d H. rewrite apply_migrations_loop, bind_eq, (applied_loop w _ st c d H).
    unfold emit. cbn [st_conn st_trace]. rewrite <- app_assoc. reflexivity. }
  split; [split|split].
  - intros H. rewrite apply_migrations_loop, bind_eq in H.
    destruct (for_each sql_files (migrate w) st) as [[[]|arg|e] st1] eqn:E;
      try discriminate H.
    apply loop_returns_applied in E. destruct E as (d & Ha & _).
    exists (st_conn st1), d. exact Ha.
  - intros (c & d & H). rewrite (Hall c d H). reflexivity.
  - exact Hall.
  - intros H. rewrite apply_migrations_loop, bind_eq in *.
    destruct (for_each sql_files (migrate w) st) as [[[]|arg|e] st1] eqn:E.
    + exfalso. apply H. reflexivity.
    + apply loop_trace in E. exact E.
    + apply loop_trace in E. exact E.
Qed.

Lemma apply_migrations_commits_after_all_witness :
  applied Worlds.broken_migration [] ["/repo/migrations/001.sql"]
    ["CREATE TABLE events (event_id);"]
    [OpenRead "/repo/migrations/001.sql";
     ExecuteScript "CREATE TABLE events (event_id);"]
  /\ Guardian.apply_migrations Worlds.broken_migration ["/repo/migrations/001.sql"]
       (start Worlds.broken_migration)
     = (Return tt,
        MkState (w := Worlds.broken_migration) ["CREATE TABLE events (event_id);"]
          [OpenRead "/repo/migrations/001.sql";
           ExecuteScript "CREATE TABLE events (event_id);"; Commit]).
Proof.
  assert (H : applied Worlds.broken_migration [] ["/repo/migrations/001.sql"]
                ["CREATE TABLE events (event_id);"]
                [OpenRead "/repo/migrations/001.sql";
                 ExecuteScript "CREATE TABLE events (event_id);"]).
  { eapply applied_cons; [reflexivity|reflexivity|apply applied_nil]. }
  split; [exact H|].
  exact (proj1 (proj2 (apply_migrations_commits_after_all Worlds.broken_migration
                         ["/repo/migrations/001.sql"] (start Worlds.broken_migration)))
           _ _ H).
Defined.

(** X2.  [apply_migrations] stops at the first file that fails: when the
    files before it were applied and its script raises, the call exits
    with a message that names this file and carries the text of the
    exception; when it cannot be read, the exception goes on uncaught.  In
    both cases no later file is opened and nothing is committed. *)
Theorem apply_migrations_stops_at_first_failure (w : World)
  (pre post : list string) (f : string) (st : state w) (c : conn (db w))
  (d : list action) :
  applied w (st_conn st) pre c d ->
  (forall sql c' exc,
     files w f = Some sql ->
     executescript (db w) c sql = (c', Raised exc) ->
     Guardian.apply_migrations w (pre ++ f :: post) st
     = (Exit (Message ("Failed applying migration " ++ f ++ ": " ++ exn_message exc)),
        MkState c' (st_trace st ++ d ++ [OpenRead f; ExecuteScript sql])))
  /\ (files w f = None ->
      Guardian.apply_migrations w (pre ++ f :: post) st
      = (Raise (OtherError ("cannot read " ++ f)),
         MkState c (st_trace st ++ d ++ [OpenRead f]))).
Proof.
  intros H. split.
  - intros sql c' exc Hf Hx.
    rewrite apply_migrations_loop, bind_eq, for_each_app, bind_eq,
      (applied_loop w _ st c d H).
    cbn [for_each]. rewrite bind_eq, migrate_eq, Hf. cbn [st_conn st_trace].
    rewrite Hx, <- app_assoc. reflexivity.
  - intros Hf.
    rewrite apply_migrations_loop, bind_eq, for_each_app, bind_eq,
      (applied_loop w _ st c d H).
    cbn [for_each]. rewrite bind_eq, migrate_eq, Hf. unfold extend.
    cbn [st_conn st_trace]. rewrite <- app_assoc. reflexivity.
Qed.

Lemma apply_migrations_stops_at_first_failure_witness :
  applied Worlds.broken_migration [] ["/repo/migrations/001.sql"]
    ["CREATE TABLE events (event_id);"]
    [OpenRead "/repo/migrations/001.sql";
     ExecuteScript "CREATE TABLE events (event_id);"]
  /\ Guardian.apply_migrations Worlds.broken_migration
       ["/repo/migrations/001.sql"; "/repo/migrations/002.sql";
        "/repo/migrations/003.sql"]
       (start Worlds.broken_migration)
     = (Exit (Message "Failed applying migration /repo/migrations/002.sql: no such table: no_such_table"),
        MkState (w := Worlds.broken_migration) ["CREATE TABLE events (event_id);"]
          [OpenRead "/repo/migrations/001.sql";
           ExecuteScript "CREATE TABLE events (event_id);";
           OpenRead "/repo/migrations/002.sql";
           ExecuteScript "ALTER TABLE no_such_table ADD x;"]).
Proof.
  assert (H : applied Worlds.broken_migration [] ["/repo/migrations/001.sql"]
                ["CREATE TABLE events (event_id);"]
                [OpenRead "/repo/migrations/001.sql";
                 ExecuteScript "CREATE TABLE events (event_id);"]).
  { eapply applied_cons; [reflexivity|reflexivity|apply applied_nil]. }
  split; [exact H|].
  exact (proj1 (apply_migrations_stops_at_first_failure Worlds.broken_migration
                  ["/repo/migrations/001.sql"] ["/repo/migrations/003.sql"]
                  "/repo/migrations/002.sql" (start Worlds.broken_migration) _ _ H)
           "ALTER TABLE no_such_table ADD x;" ["CREATE TABLE events (event_id);"]
           (DatabaseError "no such table: no_such_table") eq_refl eq_refl).
Defined.

(** ** The seeder *)

Lemma str_of_Z_inj (a b : Z) : str_of_Z a = str_of_Z b -> a = b.
Proof.
  unfold str_of_Z. intros H. apply DecimalZ.to_int_inj.
  assert (R : forall z, NilZero.int_of_string (NilZero.string_of_int (Z.to_int z))
                        = Some (Z.to_int z)).
  { intros z. apply NilZero.isi; destruct z; cbn; try discriminate;
      intros E; injection E; apply DecimalPos.Unsigned.to_uint_nonnil. }
  pose proof (R a) as Ra. rewrite H, R in Ra. now injection Ra.
Qed.

Lemma append_inj_l (p a b : string) : p ++ a = p ++ b -> a = b.
Proof.
  induction p as [|x p IH]; cbn; intros H; [exact H|].
  injection H as H. exact (IH H).
Qed.

Lemma seed_actor_returns (w : World) (st st' : state w) (x : string * string * Z) :
  Guardian.seed_actor w st = (Return x, st') -> x = (user_id w, agent_id w, now w).
Proof.
  intros H. destruct (shaped_seed_actor w st) as (o & c' & d & E & _ & _ & S).
  rewrite H in E. injection E as <- _. destruct S as (S & _). now symmetry.
Qed.

Lemma insert_event_returns (w : World) (u a : string) (n : Z) (st st' : state w)
  (e : string) :
  Guardian.insert_event w u a n st = (Return e, st') ->
  e = "evt_guardian_" ++ str_of_Z n.
Proof.
  unfold Guardian.insert_event. intros H. apply bind_returns in H.
  destruct H as (x & st1 & _ & H). unfold ret in H. now injection H as <- _.
Qed.

Lemma insert_receipt_returns (w : World) (u a ev : string) (n : Z)
  (st st' : state w) (r : string) :
  Guardian.insert_receipt w u a ev n st = (Return r, st') ->
  r = "rcpt_guardian_" ++ str_of_Z n.
Proof.
  unfold Guardian.insert_receipt. intros H. apply bind_returns in H.
  destruct H as (x & st1 & _ & H). unfold ret in H. now injection H as <- _.
Qed.

(** X3.  The identifiers of the seeded rows follow the clock: two runs
    seed the same user, agent, event or receipt identifier exactly when
    their clocks read the same second. *)
Theorem seeded_ids_follow_the_clock (w1 w2 : World)
  (s1 s1' t1 t1' r1 r1' : state w1) (s2 s2' t2 t2' r2 r2' : state w2)
  (u1 a1 e1 p1 u2 a2 e2 p2 : string) (n1 n2 : Z) :
  Guardian.seed_actor w1 s1 = (Return (u1, a1, n1), s1') ->
  Guardian.seed_actor w2 s2 = (Return (u2, a2, n2), s2') ->
  Guardian.insert_event w1 u1 a1 n1 t1 = (Return e1, t1') ->
  Guardian.insert_event w2 u2 a2 n2 t2 = (Return e2, t2') ->
  Guardian.insert_receipt w1 u1 a1 e1 n1 r1 = (Return p1, r1') ->
  Guardian.insert_receipt w2 u2 a2 e2 n2 r2 = (Return p2, r2') ->
  (u1 = u2 <-> now w1 = now w2) /\ (a1 = a2 <-> now w1 = now w2)
  /\ (e1 = e2 <-> now w1 = now w2) /\ (p1 = p2 <-> now w1 = now w2).
Proof.
  intros H1 H2 H3 H4 H5 H6.
  apply seed_actor_returns in H1, H2. injection H1 as -> -> ->.
  injection H2 as -> -> ->.
  apply insert_event_returns in H3, H4. apply insert_receipt_returns in H5, H6.
  subst. unfold user_id, agent_id.
  repeat split; intros H;
    try (apply append_inj_l in H; exact (str_of_Z_inj _ _ H));
    rewrite H; reflexivity.
Qed.

Lemma seeded_ids_follow_the_clock_witness :
  Guardian.seed_actor Examples.passing (start Examples.passing)
  = (Return ("user_guardian_1700000000", "agent_guardian_1700000000", 1700000000%Z),
     snd (Guardian.seed_actor Examples.passing (start Examples.passing)))
  /\ Guardian.seed_actor Worlds.a_second_later (start Worlds.a_second_later)
     = (Return ("user_guardian_1700000001", "agent_guardian_1700000001", 1700000001%Z),
        snd (Guardian.seed_actor Worlds.a_second_later (start Worlds.a_second_later)))
  /\ ("user_guardian_1700000000" = "user_guardian_1700000001"
      <-> 1700000000%Z = 1700000001%Z)
  /\ ("rcpt_guardian_1700000000" = "rcpt_guardian_1700000001"
      <-> 1700000000%Z = 1700000001%Z).
Proof.
  pose (w1 := Examples.passing). pose (w2 := Worlds.a_second_later).
  assert (H1 : Guardian.seed_actor w1 (start w1)
               = (Return ("user_guardian_1700000000", "agent_guardian_1700000000",
                          1700000000%Z),
                  snd (Guardian.seed_actor w1 (start w1)))) by (vm_compute; reflexivity).
  assert (H2 : Guardian.seed_actor w2 (start w2)
               = (Return ("user_guardian_1700000001", "agent_guardian_1700000001",
                          1700000001%Z),
                  snd (Guardian.seed_actor w2 (start w2)))) by (vm_compute; reflexivity).
  assert (H3 : Guardian.insert_event w1 "user_guardian_1700000000"
                 "agent_guardian_1700000000" 1700000000%Z (start w1)
               = (Return "evt_guardian_1700000000",
                  snd (Guardian.insert_event w1 "user_guardian_1700000000"
                         "agent_guardian_1700000000" 1700000000%Z (start w1))))
    by (vm_compute; reflexivity).
  assert (H4 : Guardian.insert_event w2 "user_guardian_1700000001"
                 "agent_guardian_1700000001" 1700000001%Z (start w2)
               = (Return "evt_guardian_1700000001",
                  snd (Guardian.insert_event w2 "user_guardian_1700000001"
                         "agent_guardian_1700000001" 1700000001%Z (start w2))))
    by (vm_compute; reflexivity).
  assert (H5 : Guardian.insert_receipt w1 "user_guardian_1700000000"
                 "agent_guardian_1700000000" "evt_guardian_1700000000"
                 1700000000%Z (start w1)
               = (Return "rcpt_guardian_1700000000",
                  snd (Guardian.insert_receipt w1 "user_guardian_1700000000"
                         "agent_guardian_1700000000" "evt_guardian_1700000000"
                         1700000000%Z (start w1))))
    by (vm_compute; reflexivity).
  assert (H6 : Guardian.insert_receipt w2 "user_guardian_1700000001"
                 "agent_guardian_1700000001" "evt_guardian_1700000001"
                 1700000001%Z (start w2)
               = (Return "rcpt_guardian_1700000001",
                  snd (Guardian.insert_receipt w2 "user_guardian_1700000001"
                         "agent_guardian_1700000001" "evt_guardian_1700000001"
                         1700000001%Z (start w2))))
    by (vm_compute; reflexivity).
  pose proof (seeded_ids_follow_the_clock w1 w2 _ _ _ _ _ _ _ _ _ _ _ _
                _ _ _ _ _ _ _ _ _ _ H1 H2 H3 H4 H5 H6) as (Hu & _ & _ & Hp).
  exact (conj H1 (conj H2 (conj Hu Hp))).
Defined.

(** ** The verifier, trigger by trigger *)

Lemma prefix_before (n : ascii) (b post : string) :
  forall tok a : string,
    ~ In n (chars tok) -> tok ++ post = a ++ String n b ->
    exists post', a = tok ++ post'.
Proof.
  induction tok as [|x tok IH]; intros a Hn H.
  - exists a. reflexivity.
  - destruct a as [|y a]; cbn in H.
    + injection H as Hx _. exfalso. apply Hn. left. exact Hx.
    + injection H as -> H. apply IH in H.
      * destruct H as (post' & ->). exists post'. reflexivity.
      * intros Hi. apply Hn. right. exact Hi.
Qed.

Lemma occurrence_split (tok : string) (n : ascii) (b post : string) :
  ~ In n (chars tok) ->
  forall pre a : string,
    pre ++ tok ++ post = a ++ String n b ->
    (exists post', a = pre ++ tok ++ post') \/ (exists pre', b = pre' ++ tok ++ post).
Proof.
  intros Hn. induction pre as [|x pre IH]; intros a H.
  - left. cbn in H. apply prefix_before in H; [|exact Hn]. exact H.
  - destruct a as [|y a]; cbn in H.
    + injection H as _ H. right. exists pre. now symmetry.
    + injection H as -> H. apply IH in H. destruct H as [(post' & ->)|H].
      * left. exists post'. reflexivity.
      * right. exact H.
Qed.

Lemma contains_sep (tok : string) (n : ascii) (a b : string) :
  ~ In n (chars tok) ->
  contains tok (a ++ String n b) = contains tok a || contains tok b.
Proof.
  intros Hn. apply eq_true_iff_eq.
  rewrite orb_true_iff, !contains_spec. split.
  - intros (pre & post & H). symmetry in H.
    apply occurrence_split in H; [|exact Hn].
    destruct H as [(post' & ->)|(pre' & ->)]; [left|right]; eauto.
  - intros [(pre & post & ->)|(pre & post & ->)].
    + exists pre, (post ++ String n b). now rewrite !append_assoc.
    + exists (a ++ String n pre), post. rewrite append_assoc. reflexivity.
Qed.

Lemma contains_join (tok : string) (l : list string) :
  tok <> "" -> ~ In (ascii_of_nat 10) (chars tok) ->
  contains tok (join Guardian.nl l) = existsb (contains tok) l.
Proof.
  intros Ht Hn. induction l as [|x l IH].
  - destruct tok; [now exfalso|reflexivity].
  - destruct l as [|y l].
    + cbn [join existsb]. now rewrite orb_false_r.
    + change (join Guardian.nl (x :: y :: l))
        with (x ++ String (ascii_of_nat 10) (join Guardian.nl (y :: l))).
      rewrite contains_sep by exact Hn. rewrite IH. reflexivity.
Qed.

Lemma lower_nl : lower Guardian.nl = Guardian.nl.
Proof. reflexivity. Qed.

Lemma lower_join (l : list string) :
  lower (join Guardian.nl l) = join Guardian.nl (map lower l).
Proof.
  induction l as [|x l IH]; [reflexivity|].
  destruct l as [|y l]; [reflexivity|].
  change (join Guardian.nl (x :: y :: l)) with (x ++ Guardian.nl ++ join Guardian.nl (y :: l)).
  rewrite !lower_append, IH. reflexivity.
Qed.

Lemma mentions_join (tok : string) (l : list string) :
  tok <> "" -> ~ In (ascii_of_nat 10) (chars tok) ->
  mentions tok (join Guardian.nl l) <-> exists s, In s l /\ mentions tok s.
Proof.
  intros Ht Hn.
  rewrite <- contains_lower, lower_join, contains_join, existsb_exists by assumption.
  split.
  - intros (x & Hx & Hc). apply in_map_iff in Hx. destruct Hx as (s & <- & Hs).
    exists s. split; [exact Hs|]. apply contains_lower. exact Hc.
  - intros (s & Hs & Hm). exists (lower s). split; [now apply in_map|].
    apply contains_lower. exact Hm.
Qed.

Lemma require_immutable_table_eq (w : World) (st : state w) (table : string)
  (c' : conn (db w)) (triggers : list row) (sqls : list string) :
  execute (db w) (st_conn st) Guardian.select_triggers [VText table]
    = (c', Ok triggers) ->
  Guardian.trigger_sqls triggers = Ok sqls ->
  Guardian.require_immutable_table w table st =
  let blob := lower (join Guardian.nl sqls) in
  if contains "update" blob && contains "delete" blob
     && (contains "raise" blob || contains "abort" blob)
  then (Return tt,
        MkState c' (st_trace st ++ [Execute Guardian.select_triggers [VText table];
                                    PrintLine (Guardian.appears_immutable table)]))
  else (Exit (Message (Guardian.not_immutable table)),
        MkState c' (st_trace st ++ [Execute Guardian.select_triggers [VText table]])).
Proof.
  intros Hq Hs. cbv zeta.
  unfold Guardian.require_immutable_table, db_execute_, db_execute,
    bind, print, emit, system_exit, raise, ret.
  rewrite Hq, Hs.
  destruct (contains "update" (lower (join Guardian.nl sqls))
            && contains "delete" (lower (join Guardian.nl sqls))
            && (contains "raise" (lower (join Guardian.nl sqls))
                || contains "abort" (lower (join Guardian.nl sqls))));
    cbn [negb st_conn st_trace]; rewrite <- ?app_assoc; reflexivity.
Qed.

(** X4.  The verifier judges a table trigger by trigger: it returns
    exactly when some trigger body mentions [update], some body mentions
    [delete], and some body mentions [raise] or [abort], in any case and
    not necessarily the same body; a token never arises from the end of
    one body and the start of the next.  A table without triggers always
    fails. *)
Theorem require_immutable_table_per_trigger (w : World) (st : state w)
  (table : string) (c' : conn (db w)) (triggers : list row) (sqls : list string) :
  execute (db w) (st_conn st) Guardian.select_triggers [VText table]
    = (c', Ok triggers) ->
  Guardian.trigger_sqls triggers = Ok sqls ->
  (fst (Guardian.require_immutable_table w table st) = Return tt
   <-> (exists s, In s sqls /\ mentions "update" s)
       /\ (exists s, In s sqls /\ mentions "delete" s)
       /\ (exists s, In s sqls /\ (mentions "raise" s \/ mentions "abort" s)))
  /\ (triggers = [] ->
      fst (Guardian.require_immutable_table w table st)
      = Exit (Message (Guardian.not_immutable table))).
Proof.
  intros Hq Hs.
  rewrite (require_immutable_table_eq w st table c' triggers sqls Hq Hs). cbv zeta.
  assert (Hm : forall tok, In tok ["update"; "delete"; "raise"; "abort"] ->
                 (mentions tok (join Guardian.nl sqls)
                  <-> exists s, In s sqls /\ mentions tok s)).
  { intros tok Ht. apply mentions_join.
    - cbn in Ht. repeat destruct Ht as [<-|Ht]; try discriminate. destruct Ht.
    - cbn in Ht. repeat destruct Ht as [<-|Ht]; try destruct Ht;
        cbn; intros H; repeat destruct H as [H|H]; discriminate H || exact H. }
  pose proof (Hm "update" ltac:(cbn; tauto)) as Hu.
  pose proof (Hm "delete" ltac:(cbn; tauto)) as Hd.
  pose proof (Hm "raise" ltac:(cbn; tauto)) as Hr.
  pose proof (Hm "abort" ltac:(cbn; tauto)) as Ha.
  assert (Hra : (exists s, In s sqls /\ (mentions "raise" s \/ mentions "abort" s))
                <-> mentions "raise" (join Guardian.nl sqls)
                    \/ mentions "abort" (join Guardian.nl sqls)).
  { rewrite Hr, Ha. split.
    - intros (s & Hs' & [H|H]); [left|right]; eauto.
    - intros [(s & Hs' & H)|(s & Hs' & H)]; exists s; tauto. }
  pose proof (verdict_iff (join Guardian.nl sqls)) as Hv. unfold blocks_writes in Hv.
  split.
  - rewrite <- Hu, <- Hd, Hra.
    destruct (contains "update" (lower (join Guardian.nl sqls))
              && contains "delete" (lower (join Guardian.nl sqls))
              && (contains "raise" (lower (join Guardian.nl sqls))
                  || contains "abort" (lower (join Guardian.nl sqls)))); cbn [fst].
    + split; [intros _; apply Hv; reflexivity|reflexivity].
    + split; [discriminate|]. intros H. apply Hv in H. discriminate H.
  - intros ->. cbn in Hs. injection Hs as <-. reflexivity.
Qed.

Lemma require_immutable_table_per_trigger_witness :
  let bodies :=
    [ "CREATE TRIGGER events_no_update BEFORE UPDATE ON events BEGIN SELECT RAISE(ABORT, 'append-only'); END";
      "CREATE TRIGGER events_no_delete BEFORE DELETE ON events BEGIN SELECT RAISE(ABORT, 'append-only'); END" ] in
  execute (db Examples.passing) (st_conn (start Examples.passing))
    Guardian.select_triggers [VText "events"]
    = (tt, Ok (Examples.both_triggers "events"))
  /\ Guardian.trigger_sqls (Examples.both_triggers "events") = Ok bodies
  /\ (fst (Guardian.require_immutable_table Examples.passing "events"
             (start Examples.passing)) = Return tt
      <-> (exists s, In s bodies /\ mentions "update" s)
          /\ (exists s, In s bodies /\ mentions "delete" s)
          /\ (exists s, In s bodies /\ (mentions "raise" s \/ mentions "abort" s))).
Proof.
  cbv zeta. split; [reflexivity|]. split; [reflexivity|].
  exact (proj1 (require_immutable_table_per_trigger Examples.passing
                  (start Examples.passing) "events" tt
                  (Examples.both_triggers "events") _ eq_refl eq_refl)).
Defined.

(** ** The attempts of the prover *)

(** X5.  The prover attempts the delete exactly when the update was
    rejected by the database: after a rejected update both statements
    have been executed; otherwise only the update has, and no line is
    printed.  An exception that is not a database error is neither a pass
    nor an append-only failure: it goes on uncaught. *)
Theorem prove_immutable_by_writes_attempts (w : World) (st : state w)
  (table pk_col pk_value update_col : string) :
  let update := (Guardian.update_self table pk_col update_col, [VText pk_value]) in
  let delete := (Guardian.delete_by_key table pk_col, [VText pk_value]) in
  let upd := execute (db w) (st_conn st) (fst update) (snd update) in
  let del := execute (db w) (fst upd) (fst delete) (snd delete) in
  let r := Guardian.prove_immutable_by_writes w table pk_col pk_value update_col st in
  (rejected (snd upd) ->
   executed (st_trace (snd r)) = (executed (st_trace st) ++ [update; delete])%list)
  /\ (~ rejected (snd upd) ->
      executed (st_trace (snd r)) = (executed (st_trace st) ++ [update])%list
      /\ stdout (st_trace (snd r)) = stdout (st_trace st))
  /\ (forall msg, snd upd = Raised (OtherError msg) -> fst r = Raise (OtherError msg))
  /\ (forall msg, rejected (snd upd) -> snd del = Raised (OtherError msg) ->
      fst r = Raise (OtherError msg)).
Proof.
  cbv zeta. cbn [fst snd].
  unfold Guardian.prove_immutable_by_writes.
  rewrite bind_eq, assert_blocked_eq.
  destruct (execute (db w) (st_conn st) (Guardian.update_self table pk_col update_col)
              [VText pk_value]) as [c1 [rows|[m|m]]] eqn:Eu; cbn [fst snd].
  - split; [|split; [|split]].
    + intros (m & H). discriminate H.
    + intros _. cbn [st_trace]. rewrite executed_app, stdout_app, app_nil_r.
      split; reflexivity.
    + intros m H. discriminate H.
    + intros m (m' & H). discriminate H.
  - rewrite assert_blocked_eq. cbn [st_conn st_trace].
    destruct (execute (db w) c1 (Guardian.delete_by_key table pk_col) [VText pk_value])
      as [c2 [rows|[m2|m2]]] eqn:Ed; cbn [fst snd st_trace];
      (split; [|split; [|split]]);
      try (intros _; rewrite !executed_app; cbn; rewrite <- app_assoc; reflexivity);
      try (intros H; exfalso; apply H; exists m; reflexivity);
      try (intros m' H; discriminate H);
      try (intros m' _ H; discriminate H).
    intros m' _ H. injection H as ->. reflexivity.
  - split; [|split; [|split]].
    + intros (m' & H). discriminate H.
    + intros _. cbn [st_trace]. rewrite executed_app, stdout_app, app_nil_r.
      split; reflexivity.
    + intros m' H. injection H as ->. reflexivity.
    + intros m' (m'' & H). discriminate H.
Qed.

(** ** A run without migrations *)

Lemma probe_probing (w : World) (acc : list string) (c : string) (st : state w) :
  exists d, forallb probing d = true /\
    probe w acc c st =
    (Return (acc ++ Guardian.sorted (sql_paths w c))%list, extend st d).
Proof.
  unfold probe. rewrite bind_eq, path_exists_eq. cbv beta iota.
  unfold present, sql_paths.
  destruct (dirs w c) as [names|] eqn:Ed.
  - exists [PathExists c; Glob (path_join c "*.sql")]. split; [reflexivity|].
    unfold Guardian.glob_sql. rewrite Ed.
    unfold bind, emit, ret, extend. cbn. rewrite <- app_assoc. reflexivity.
  - destruct (files w c).
    + exists [PathExists c; Glob (path_join c "*.sql")]. split; [reflexivity|].
      unfold Guardian.glob_sql. rewrite Ed.
      unfold bind, emit, ret, extend. cbn. rewrite <- app_assoc, app_nil_r.
      reflexivity.
    + exists [PathExists c]. split; [reflexivity|].
      unfold ret. cbn. rewrite app_nil_r. reflexivity.
Qed.

Lemma probes_probing (w : World) (l : list string) :
  forall (acc : list string) (st : state w),
  exists d, forallb probing d = true /\
    for_fold l acc (probe w) st =
    (Return (acc ++ concat (map (fun c => Guardian.sorted (sql_paths w c)) l))%list,
     extend st d).
Proof.
  induction l as [|c l IH]; intros acc st; simpl.
  - exists []. split; [reflexivity|]. unfold ret, extend.
    rewrite !app_nil_r. now destruct st.
  - rewrite bind_eq.
    destruct (probe_probing w acc c st) as (d1 & Q1 & ->).
    destruct (IH (acc ++ Guardian.sorted (sql_paths w c))%list (extend st d1))
      as (d2 & Q2 & ->).
    exists (d1 ++ d2)%list. split; [rewrite forallb_app, Q1, Q2; reflexivity|].
    rewrite <- app_assoc, extend_extend. reflexivity.
Qed.

Lemma find_sql_migrations_probes (w : World) (st : state w) :
  exists d, forallb probing d = true /\
    Guardian.find_sql_migrations w st =
    (match concat (sql_blocks w) with
     | [] => Exit (Message Guardian.no_migrations)
     | l => Return l
     end, extend st d).
Proof.
  unfold Guardian.find_sql_migrations. rewrite bind_eq.
  change (fun sql_files candidate => _) with (probe w).
  destruct (probes_probing w (Guardian.candidates w) [] st) as (d & Q & ->).
  exists d. split; [exact Q|]. cbn [app]. unfold sql_blocks.
  destruct (concat _); reflexivity.
Qed.

(** X6.  The database is opened exactly when the loader found a
    migration file.  A run that finds none exits with the message of the
    loader after printing the banner alone, and all it did was testing
    and listing directories. *)
Theorem database_opened_iff_migrations (w : World) :
  let o := fst (Guardian.run_main w) in
  let t := snd (Guardian.run_main w) in
  (In Connect t <-> concat (sql_blocks w) <> [])
  /\ (concat (sql_blocks w) = [] ->
      o = Exit (Message Guardian.no_migrations)
      /\ stdout t = [Guardian.banner]
      /\ executed t = []
      /\ exists d, t = PrintLine Guardian.banner :: d /\ forallb probing d = true).
Proof.
  cbv zeta.
  assert (Hnone : concat (sql_blocks w) = [] ->
            fst (Guardian.run_main w) = Exit (Message Guardian.no_migrations)
            /\ exists d, snd (Guardian.run_main w) = PrintLine Guardian.banner :: d
                         /\ forallb probing d = true).
  { intros Hc. unfold Guardian.run_main, Guardian.main.
    rewrite bind_eq, print_eq. cbv beta iota. rewrite bind_eq.
    destruct (find_sql_migrations_probes w (extend (start w) [PrintLine Guardian.banner]))
      as (d & Q & ->).
    rewrite Hc. cbn [fst snd st_trace extend start app]. eauto. }
  assert (Hquiet : forall d, forallb probing d = true ->
            stdout d = [] /\ executed d = [] /\ ~ In Connect d).
  { induction d as [|a d IH]; intros H; [cbn; tauto|].
    cbn [forallb] in H. apply andb_true_iff in H as (Ha & Hd).
    destruct (IH Hd) as (I1 & I2 & I3).
    destruct a; try discriminate Ha; cbn; (split; [exact I1|split; [exact I2|]]);
      intros [E|E]; (discriminate E || exact (I3 E)). }
  split; [split|].
  - intros Hin Hc. destruct (Hnone Hc) as (_ & d & Ht & Q).
    rewrite Ht in Hin. destruct Hin as [E|E]; [discriminate E|].
    exact (proj2 (proj2 (Hquiet d Q)) E).
  - intros Hc. unfold Guardian.run_main, Guardian.main.
    rewrite bind_eq, print_eq. cbv beta iota. rewrite bind_eq.
    destruct (find_sql_migrations_probes w (extend (start w) [PrintLine Guardian.banner]))
      as (d & Q & ->).
    destruct (concat (sql_blocks w)) as [|f l]; [now exfalso|]. clear Hc.
    set (st1 := extend _ d).
    rewrite bind_eq. unfold Guardian.with_connection at 1.
    rewrite bind_eq. unfold emit at 1. cbv beta iota.
    set (st2 := MkState _ _).
    destruct (shaped_database w (f :: l) st2) as (o & c' & d2 & -> & _).
    assert (Hin : In Connect (st_trace st2 ++ d2)).
    { apply in_or_app. left. subst st2. cbn [st_trace]. apply in_or_app. right.
      left. reflexivity. }
    destruct o as [[]|arg|e].
    + rewrite bind_eq. unfold emit at 1. cbv beta iota. unfold ret at 1.
      cbn [st_conn st_trace].
      set (st3 := MkState _ _).
      assert (H3 : In Connect (st_trace st3)).
      { subst st3. cbn [st_trace]. apply in_or_app. left. exact Hin. }
      rewrite bind_eq.
      destruct (shaped_scan w st3) as (o4 & c4 & d4 & -> & _).
      destruct o4 as [[]|arg|e]; cbn [fst snd st_trace];
        try (apply in_or_app; left; exact H3).
      rewrite print_eq. cbn [snd extend st_trace].
      apply in_or_app; left. apply in_or_app; left. exact H3.
    + rewrite bind_eq. unfold emit at 1. cbv beta iota. unfold system_exit.
      cbn [snd st_trace]. apply in_or_app. left. exact Hin.
    + rewrite bind_eq. unfold emit at 1. cbv beta iota. unfold raise.
      cbn [snd st_trace]. apply in_or_app. left. exact Hin.
  - intros Hc. destruct (Hnone Hc) as (Ho & d & Ht & Q).
    destruct (Hquiet d Q) as (I1 & I2 & _).
    split; [exact Ho|]. rewrite Ht. cbn [stdout executed]. rewrite I1, I2.
    split; [reflexivity|]. split; [reflexivity|]. eauto.
Qed.

(** ** A run that fails in the scanner *)

(** X7.  A run exits with the message of the scanner only after the
    database work is over: the eleven statements of the pipeline have all
    been executed and the six [OK] lines of the verifier and the prover
    printed, the connection has been committed, and what follows the
    commit is the scan alone. *)
Theorem ghost_failure_after_database (w : World) :
  fst (Guardian.run_main w) = Exit (Message Guardian.ghost_failed) ->
  exists before after,
    snd (Guardian.run_main w) = (before ++ Commit :: after)%list
    /\ executed before = pipeline w
    /\ stdout before =
       [ Guardian.banner;
         Guardian.appears_immutable "events";
         Guardian.appears_immutable "receipts";
         Guardian.blocked "UPDATE on events";
         Guardian.blocked "DELETE on events";
         Guardian.blocked "UPDATE on receipts";
         Guardian.blocked "DELETE on receipts" ]
    /\ executed after = []
    /\ stdout after = stdout (snd (scan_verdict w))
    /\ fst (scan_verdict w) = Exit (Message Guardian.ghost_failed).
Proof.
  unfold Guardian.run_main.
  destruct (Guardian.main w (start w)) as [o st] eqn:E. cbn [fst snd]. intros ->.
  unfold Guardian.main in E.
  rewrite bind_eq, print_eq in E. cbv beta iota in E. rewrite bind_eq in E.
  destruct (find_sql_migrations_probes w (extend (start w) [PrintLine Guardian.banner]))
    as (d1 & Q1 & E1).
  rewrite E1 in E. clear E1.
  assert (Hq1 : stdout d1 = [] /\ executed d1 = []).
  { clear - Q1. induction d1 as [|a d IH]; [split; reflexivity|].
    cbn [forallb] in Q1. apply andb_true_iff in Q1 as (Ha & Hd).
    destruct (IH Hd) as (I1 & I2). destruct a; try discriminate Ha; cbn; tauto. }
  destruct (concat (sql_blocks w)) as [|f l]; [discriminate E|].
  rewrite bind_eq in E. unfold Guardian.with_connection at 1 in E.
  rewrite bind_eq in E. unfold emit at 1 in E. cbv beta iota in E.
  cbn [st_conn st_trace extend start app] in E.
  destruct (shaped_database w (f :: l)
              (MkState (connect (db w)) ((PrintLine Guardian.banner :: d1) ++ [Connect])))
    as (o & c' & d2 & E2 & _ & _ & S).
  cbn [st_conn st_trace app] in E2. rewrite E2 in E. clear E2.
  destruct o as [[]|arg|e].
  - destruct S as (_ & He & Hs).
    rewrite bind_eq in E. unfold emit at 1 in E. cbv beta iota in E.
    unfold ret at 1 in E. cbn [st_conn st_trace] in E.
    rewrite bind_eq in E.
    destruct (scan_for_ghost_state_eq w) as (probes & Hp & Heq). rewrite Heq in E.
    pose proof (probes_scan w probes Hp) as Qp.
    destruct (shaped_scan w (start w)) as (o4 & c4 & d4 & E4 & _ & _ & S4).
    rewrite Heq in E4. injection E4 as <- _ E4. cbn [start st_trace app] in E4.
    subst d4.
    destruct (fst (scan_verdict w)) as [[]|arg|e] eqn:Ev.
    + rewrite print_eq in E. discriminate E.
    + injection E as -> <-.
      exists ((PrintLine Guardian.banner :: d1) ++ Connect :: d2)%list,
             (probes ++ snd (scan_verdict w))%list.
      split; [|split; [|split; [|split; [|split]]]].
      * unfold extend. cbn [st_trace app].
        rewrite <- !app_assoc. reflexivity.
      * rewrite executed_app. cbn [executed]. rewrite (proj2 Hq1). exact He.
      * rewrite stdout_app. cbn [stdout]. rewrite (proj1 Hq1), Hs. reflexivity.
      * destruct S4 as ((rest & Hr) & _).
        symmetry in Hr. apply app_eq_nil in Hr. exact (proj1 Hr).
      * rewrite stdout_app, (quiet_stdout _ _ Qp). reflexivity.
      * reflexivity.
    + discriminate E.
  - rewrite bind_eq in E. unfold emit at 1 in E. cbv beta iota in E.
    unfold system_exit in E. injection E as -> _.
    destruct S as (_ & s & Hf & Hr & _). cbn in Hf. injection Hf as <-.
    cbn in Hr. lia.
  - rewrite bind_eq in E. unfold emit at 1 in E. cbv beta iota in E.
    unfold raise in E. discriminate E.
Qed.

Lemma ghost_failure_after_database_witness :
  fst (Guardian.run_main Examples.ghostly) = Exit (Message Guardian.ghost_failed)
  /\ exists before after,
       snd (Guardian.run_main Examples.ghostly) = (before ++ Commit :: after)%list
       /\ executed before = pipeline Examples.ghostly
       /\ executed after = [].
Proof.
  assert (H : fst (Guardian.run_main Examples.ghostly)
              = Exit (Message Guardian.ghost_failed)) by (vm_compute; reflexivity).
  split; [exact H|].
  destruct (ghost_failure_after_database Examples.ghostly H)
    as (before & after & Ht & Hb & _ & Ha & _).
  exists before, after. auto.
Defined.

(** ** The order of the findings *)

Lemma StronglySorted_filter {A : Type} (R : A -> A -> Prop) (f : A -> bool)
  (l : list A) :
  StronglySorted R l -> StronglySorted R (filter f l).
Proof.
  induction 1 as [|a l S IH F]; cbn; [constructor|].
  destruct (f a); [|exact IH]. constructor; [exact IH|].
  rewrite Forall_forall in *. intros x Hx. apply filter_In in Hx. apply F, Hx.
Qed.

Lemma StronglySorted_map {A B : Type} (R : B -> B -> Prop) (f : A -> B)
  (l : list A) :
  StronglySorted (fun a b => R (f a) (f b)) l -> StronglySorted R (map f l).
Proof.
  induction 1 as [|a l S IH F]; cbn; constructor; [exact IH|].
  rewrite Forall_forall in *. intros y Hy. apply in_map_iff in Hy.
  destruct Hy as (x & <- & Hx). apply F, Hx.
Qed.

Lemma sorted_lt_NoDup (l : list nat) : StronglySorted lt l -> NoDup l.
Proof.
  induction 1 as [|a l S IH F]; constructor; [|exact IH].
  intros Hin. rewrite Forall_forall in F. apply F in Hin. lia.
Qed.

Lemma blocks_NoDup (tables : list string) (blocks : list (list Guardian.finding)) :
  NoDup tables ->
  Forall2 (fun table block =>
             Forall (fun h : Guardian.finding => fst (fst h) = table) block
             /\ StronglySorted lt (map snd block)) tables blocks ->
  NoDup (concat blocks)
  /\ forall h, In h (concat blocks) -> In (fst (fst h)) tables.
Proof.
  intros Hn H. induction H as [|table block tables blocks (Ht & Hs) _ IH].
  - split; [constructor|intros h []].
  - inversion Hn as [|? ? Hnot Hn']; subst. destruct (IH Hn') as (I1 & I2).
    rewrite Forall_forall in Ht. cbn [concat]. split.
    + apply NoDup_app; [|exact I1|].
      * apply (NoDup_map_inv snd), sorted_lt_NoDup, Hs.
      * intros h Hb Hc. apply Hnot. rewrite <- (Ht h Hb). exact (I2 h Hc).
    + intros h Hh. apply in_app_or in Hh. destruct Hh as [Hh|Hh].
      * left. symmetry. exact (Ht h Hh).
      * right. exact (I2 h Hh).
Qed.

(** X8.  The findings come table by table, in the order of the list of
    the scanner, and by increasing offset within a table; so the lines
    printed are the first twenty-five in that order, and no finding is
    listed twice. *)
Theorem ghost_hits_ordered (text : string) :
  (exists blocks : list (list Guardian.finding),
     Guardian.ghost_hits text = concat blocks
     /\ Forall2 (fun table block =>
                   Forall (fun h : Guardian.finding => fst (fst h) = table) block
                   /\ StronglySorted lt (map snd block))
          Guardian.suspicious_tables blocks)
  /\ NoDup (Guardian.ghost_hits text).
Proof.
  assert (H : exists blocks : list (list Guardian.finding),
     Guardian.ghost_hits text = concat blocks
     /\ Forall2 (fun table block =>
                   Forall (fun h : Guardian.finding => fst (fst h) = table) block
                   /\ StronglySorted lt (map snd block))
          Guardian.suspicious_tables blocks); [|split; [exact H|]].
  2: { destruct H as (blocks & -> & H). apply (blocks_NoDup Guardian.suspicious_tables).
       - unfold Guardian.suspicious_tables.
         repeat (constructor; [cbn; intros K; repeat destruct K as [K|K]; discriminate K || exact K|]).
         constructor.
       - exact H. }
  exists (map (fun table =>
                 map (finding_of table)
                   (filter (unlogged_b text)
                      (finditer true (Guardian.mutation_pattern table) text)))
            Guardian.suspicious_tables).
  split.
  - rewrite ghost_hits_eq, flat_map_concat_map. reflexivity.
  - induction Guardian.suspicious_tables as [|table l IH]; cbn [map]; constructor;
      [|exact IH].
    split.
    + apply Forall_forall. intros h Hh. apply in_map_iff in Hh.
      destruct Hh as (m & <- & _). reflexivity.
    + rewrite map_map. cbn [finding_of snd].
      apply StronglySorted_map, StronglySorted_filter.
      apply (scan_starts_sorted true).
Qed.

(** ** Where the pattern of a term is found *)

(** A match somewhere in the text is a match for [finditer]. *)
Lemma scan_finds (ic : bool) (r : regex) (suf : string) :
  forall (pre : string) (pv : option ascii) (p : nat),
    match_at ic r {| prev := last_or pv pre; rest := suf;
                     pos := p + String.length pre |} <> None ->
    scan ic r pv (pre ++ suf) p 0 <> [].
Proof.
  induction pre as [|x pre IH]; intros pv p H.
  - cbn [append last_or String.length] in *. rewrite Nat.add_0_r in H.
    destruct suf as [|y suf]; cbn [scan];
      destruct (match_at ic r _) as [[c' g]|]; try discriminate; now exfalso.
  - cbn [append scan].
    destruct (match_at ic r {| prev := pv; rest := String x (pre ++ suf); pos := p |})
      as [[c' g]|]; [discriminate|].
    apply IH. cbn [last_or String.length] in H. rewrite Nat.add_succ_r in H. exact H.
Qed.

Lemma found_at (r : regex) (pre suf : string) :
  match_at true r {| prev := last_or None pre; rest := suf;
                     pos := String.length pre |} <> None ->
  SemanticsLint.found r (pre ++ suf) = true.
Proof.
  intros H. unfold SemanticsLint.found, search, finditer.
  pose proof (scan_finds true r suf pre None 0 H) as Hs.
  destruct (scan true r None (pre ++ suf) 0 0); [now exfalso|reflexivity].
Qed.

Lemma run_wordb {A : Type} (ic : bool) (c : cursor) (g : groups)
  (k : cursor -> groups -> option A) :
  at_boundary c = true -> run ic WordB c g k = k c g.
Proof. intros H. cbn [run]. rewrite H. reflexivity. Qed.

(** The pattern of a word, at a place where the word stands between two
    word boundaries. *)
Lemma run_word_pattern {A : Type} (w pre a post : string) (c : cursor) (g : groups)
  (k : cursor -> groups -> option A) :
  prev c = last_or None pre -> rest c = a ++ post -> lower a = lower w ->
  delimited pre a post ->
  run true (SemanticsLint.word_pattern w) c g k = k (feed c (String.length a)) g.
Proof.
  intros Hp Hr Hl (B1 & B2). unfold SemanticsLint.word_pattern. cbn [cats].
  rewrite run_cat, run_wordb by (rewrite (at_boundary_between pre c Hp), Hr; exact B1).
  rewrite run_cat, (run_lits w a post c g _ Hl Hr).
  rewrite run_cat, run_wordb; [reflexivity|].
  rewrite (at_boundary_between (pre ++ a)).
  - rewrite (proj1 (feed_rest a post c Hr)). exact B2.
  - rewrite (feed_after pre _ c Hp), Hr, substring_prefix. reflexivity.
Qed.

Lemma word_found (w segment : string) :
  word_in w segment -> SemanticsLint.found (SemanticsLint.word_pattern w) segment = true.
Proof.
  intros (pre & a & post & -> & Hl & Hd). apply found_at. unfold match_at.
  set (c := {| prev := last_or None pre; rest := a ++ post;
               pos := String.length pre |}).
  rewrite (run_word_pattern w pre a post c _ _ eq_refl eq_refl Hl Hd). discriminate.
Qed.

Lemma word_not_space (x : ascii) : isword x = true -> isspace x = false.
Proof.
  destruct x as [[] [] [] [] [] [] [] []]; vm_compute; intros H;
    first [reflexivity | discriminate H].
Qed.

Lemma last_or_spaces (ws : string) :
  forall pv, ws <> "" -> all_space ws = true ->
             exists x, last_or pv ws = Some x /\ isspace x = true.
Proof.
  induction ws as [|y ws IH]; intros pv Hn Ha; [now exfalso|].
  cbn [all_space] in Ha. apply andb_true_iff in Ha as (Hy & Ha).
  destruct ws as [|z ws].
  - exists y. split; [reflexivity|exact Hy].
  - change (exists x, last_or (Some y) (String z ws) = Some x /\ isspace x = true).
    apply IH; [discriminate|exact Ha].
Qed.

(** A word boundary after whitespace: what follows starts with a word
    character. *)
Lemma boundary_after_spaces (left ws right : string) :
  spaces ws -> boundary_between (left ++ ws) right = true ->
  starts_with_space right = false /\ right <> "".
Proof.
  intros (Hn & Ha) B. unfold boundary_between in B.
  rewrite last_or_append in B.
  destruct (last_or_spaces ws (last_or None left) Hn Ha) as (x & Hlast & Hx).
  rewrite Hlast in B. cbn [is_word_opt] in B.
  destruct (isword x) eqn:Ew; [apply word_not_space in Ew; congruence|].
  destruct right as [|y right]; [discriminate B|]. cbn in B.
  split; [|discriminate]. cbn. apply word_not_space. exact B.
Qed.

Lemma word_pair_found (w1 w2 segment : string) :
  word_pair_in w1 w2 segment ->
  SemanticsLint.found
    (Cat (SemanticsLint.word_pattern w1)
         (Cat (Plus Space) (SemanticsLint.word_pattern w2))) segment = true.
Proof.
  intros (pre & a & ws & b & post & -> & La & Hs & Lb & Da & Db).
  apply found_at. unfold match_at.
  set (c := {| prev := last_or None pre; rest := a ++ ws ++ b ++ post;
               pos := String.length pre |}).
  rewrite run_cat.
  rewrite (run_word_pattern w1 pre a (ws ++ b ++ post) c _ _ eq_refl eq_refl La Da).
  destruct (feed_rest a (ws ++ b ++ post) c eq_refl) as (R1 & _).
  assert (P1 : prev (feed c (String.length a)) = last_or None (pre ++ a)).
  { rewrite (feed_after pre _ c eq_refl). cbn [rest c]. now rewrite substring_prefix. }
  set (c1 := feed c (String.length a)) in *.
  destruct (feed_rest ws (b ++ post) c1 R1) as (R2 & _).
  assert (P2 : prev (feed c1 (String.length ws)) = last_or None ((pre ++ a) ++ ws)).
  { rewrite (feed_after (pre ++ a) _ c1 P1), R1, substring_prefix. reflexivity. }
  rewrite append_assoc in P2.
  destruct (boundary_after_spaces (pre ++ a) ws (b ++ post) Hs) as (S1 & S2).
  { rewrite append_assoc. exact (proj1 Db). }
  rewrite run_cat.
  rewrite (@run_plus_space (cursor * groups) _ ws (b ++ post) c1 []
             (feed (feed c1 (String.length ws)) (String.length b), []) Hs S1 R1);
    [discriminate|].
  rewrite (run_word_pattern w2 (pre ++ a ++ ws) b post _ _ _ P2 R2 Lb Db).
  reflexivity.
Qed.

(** X9.  A term of one word is found in a segment exactly when the term
    stands there, in any case, between two word boundaries: the search is
    neither stricter nor looser than that. *)
Theorem single_word_term_found_iff (term segment : string) :
  List.length (split term) = 1 ->
  SemanticsLint.found (SemanticsLint.term_pattern term) segment = true
  <-> word_in term segment.
Proof.
  intros H. unfold SemanticsLint.term_pattern. rewrite H. cbn [Nat.eqb].
  split; [apply found_word|apply word_found].
Qed.

Lemma single_word_term_found_iff_witness :
  List.length (split "wallet") = 1
  /\ (SemanticsLint.found (SemanticsLint.term_pattern "wallet") "Open your Wallet." = true
      <-> word_in "wallet" "Open your Wallet.").
Proof.
  split; [reflexivity|].
  exact (single_word_term_found_iff "wallet" "Open your Wallet." eq_refl).
Defined.

(** X10.  A term of two words is found in a segment exactly when its two
    words stand there, each in any case and between two word boundaries,
    with whitespace and nothing else between them. *)
Theorem two_word_term_found_iff (term w1 w2 segment : string) :
  split term = [w1; w2] ->
  SemanticsLint.found (SemanticsLint.term_pattern term) segment = true
  <-> word_pair_in w1 w2 segment.
Proof.
  intros H. unfold SemanticsLint.term_pattern. rewrite H.
  cbn [List.length Nat.eqb map SemanticsLint.join_spaces].
  split; [apply found_word_pair|apply word_pair_found].
Qed.

Lemma two_word_term_found_iff_witness :
  split "private key" = ["private"; "key"]
  /\ (SemanticsLint.found (SemanticsLint.term_pattern "private key")
        "Keep your Private   KEY safe." = true
      <-> word_pair_in "private" "key" "Keep your Private   KEY safe.").
Proof.
  split; [reflexivity|].
  exact (two_word_term_found_iff "private key" "private" "key"
           "Keep your Private   KEY safe." eq_refl).
Defined.

(** ** The greedy star on a class of characters *)

Lemma star_one_greedy {A : Type} (ic : bool) (r' : regex) (ok : ascii -> bool)
  (Hr' : forall c g (k : cursor -> groups -> option A),
           run ic r' c g k = one ok c g k)
  (k : cursor -> groups -> option A) (s : string) (a : A) (g : groups) :
  stops ok s = true ->
  forall (ws : string) (fuel : nat) (c : cursor),
    all_chars ok ws = true -> rest c = ws ++ s -> String.length ws <= fuel ->
    k (feed c (String.length ws)) g = Some a ->
    star_loop ic r' k fuel c g = Some a.
Proof.
  intros Hs. induction ws as [|x ws IH]; intros fuel c Hw Hr Hf Hk.
  - simpl in Hr, Hk. destruct fuel as [|fuel]; [exact Hk|].
    cbn [star_loop]. rewrite Hr'. unfold one. rewrite Hr.
    destruct s as [|y s]; [exact Hk|]. simpl in Hs.
    apply negb_true_iff in Hs. rewrite Hs. exact Hk.
  - unfold all_chars in Hw. simpl in Hw. apply andb_true_iff in Hw as [Hx Hw].
    simpl in Hr, Hf.
    destruct fuel as [|fuel]; [lia|].
    cbn [star_loop]. rewrite Hr'. unfold one. rewrite Hr, Hx.
    cbn [advance pos].
    replace (S (pos c) =? pos c) with false by (symmetry; apply Nat.eqb_neq; lia).
    rewrite (IH fuel (advance x (ws ++ s) c)); try reflexivity; try assumption.
    + lia.
    + cbn [feed String.length] in Hk. rewrite Hr in Hk. exact Hk.
Qed.

Lemma run_plus_one {A : Type} (ic : bool) (r' : regex) (ok : ascii -> bool)
  (Hr' : forall c g (k : cursor -> groups -> option A),
           run ic r' c g k = one ok c g k)
  (k : cursor -> groups -> option A) (ws s : string) (c : cursor) (g : groups)
  (a : A) :
  ws <> "" -> all_chars ok ws = true -> stops ok s = true -> rest c = ws ++ s ->
  k (feed c (String.length ws)) g = Some a ->
  run ic (Plus r') c g k = Some a.
Proof.
  intros Hne Hw Hs Hr Hk. destruct ws as [|x ws]; [contradiction|].
  unfold all_chars in Hw. simpl in Hw. apply andb_true_iff in Hw as [Hx Hw].
  simpl in Hr.
  unfold Plus. rewrite run_cat, Hr'. unfold one. rewrite Hr, Hx.
  rewrite run_star.
  apply (star_one_greedy ic r' ok Hr' k s a g Hs ws); try assumption; try reflexivity.
  - cbn [advance rest]. rewrite length_append. lia.
  - cbn [feed String.length] in Hk. rewrite Hr in Hk. exact Hk.
Qed.

Lemma run_star_one {A : Type} (ic : bool) (r' : regex) (ok : ascii -> bool)
  (Hr' : forall c g (k : cursor -> groups -> option A),
           run ic r' c g k = one ok c g k)
  (k : cursor -> groups -> option A) (ws s : string) (c : cursor) (g : groups)
  (a : A) :
  all_chars ok ws = true -> stops ok s = true -> rest c = ws ++ s ->
  k (feed c (String.length ws)) g = Some a ->
  run ic (Star r') c g k = Some a.
Proof.
  intros Hw Hs Hr Hk. rewrite run_star.
  apply (star_one_greedy ic r' ok Hr' k s a g Hs ws); try assumption.
  rewrite Hr, length_append. lia.
Qed.

(** ** A pattern without a word boundary does not look behind *)

Lemma one_same {ok : ascii -> bool} (d : nat) (c1 c2 : cursor) (g : groups)
  (k1 k2 : cursor -> groups -> option (cursor * groups)) :
  same_place d c1 c2 ->
  (forall c1' c2' g', same_place d c1' c2' ->
                      same_result d (k1 c1' g') (k2 c2' g')) ->
  same_result d (one ok c1 g k1) (one ok c2 g k2).
Proof.
  intros (Hr & Hp) Hk. unfold one. rewrite Hr.
  destruct (rest c2) as [|x s']; [exact I|].
  destruct (ok x); [|exact I]. apply Hk. split; [reflexivity|].
  cbn. now rewrite Hp.
Qed.

Lemma star_loop_same (ic : bool) (r : regex) (d : nat)
  (IH : forall c1 c2 g (k1 k2 : cursor -> groups -> option (cursor * groups)),
          same_place d c1 c2 ->
          (forall c1' c2' g', same_place d c1' c2' ->
                              same_result d (k1 c1' g') (k2 c2' g')) ->
          same_result d (run ic r c1 g k1) (run ic r c2 g k2))
  (k1 k2 : cursor -> groups -> option (cursor * groups)) :
  (forall c1' c2' g', same_place d c1' c2' ->
                      same_result d (k1 c1' g') (k2 c2' g')) ->
  forall fuel c1 c2 g,
    same_place d c1 c2 ->
    same_result d (star_loop ic r k1 fuel c1 g) (star_loop ic r k2 fuel c2 g).
Proof.
  intros Hk. induction fuel as [|fuel IHf]; intros c1 c2 g Hc.
  - apply Hk, Hc.
  - cbn [star_loop].
    assert (H : same_result d
                  (run ic r c1 g (fun c' g' =>
                     if pos c' =? pos c1 then None else star_loop ic r k1 fuel c' g'))
                  (run ic r c2 g (fun c' g' =>
                     if pos c' =? pos c2 then None else star_loop ic r k2 fuel c' g'))).
    { apply IH; [exact Hc|]. intros c1' c2' g' Hc'.
      rewrite (proj2 Hc'), (proj2 Hc).
      replace (pos c1' + d =? pos c1 + d) with (pos c1' =? pos c1)
        by (destruct (Nat.eqb_spec (pos c1') (pos c1)) as [e|e];
            [rewrite e; symmetry; apply Nat.eqb_refl
            |symmetry; apply Nat.eqb_neq; lia]).
      destruct (pos c1' =? pos c1); [exact I|]. apply IHf, Hc'. }
    destruct (run ic r c1 g _) as [[x1 y1]|], (run ic r c2 g _) as [[x2 y2]|];
      try exact H; try contradiction.
    apply Hk, Hc.
Qed.

Lemma run_same (ic : bool) (r : regex) (d : nat) :
  no_wordb r = true ->
  forall c1 c2 g (k1 k2 : cursor -> groups -> option (cursor * groups)),
    same_place d c1 c2 ->
    (forall c1' c2' g', same_place d c1' c2' ->
                        same_result d (k1 c1' g') (k2 c2' g')) ->
    same_result d (run ic r c1 g k1) (run ic r c2 g k2).
Proof.
  induction r as [|p|neg cs| | | |r1 IH1 r2 IH2|r1 IH1 r2 IH2|r IH|i r IH];
    intros Hw c1 c2 g k1 k2 Hc Hk; cbn [no_wordb] in Hw;
    try (apply andb_true_iff in Hw as (Hw1 & Hw2)).
  - apply Hk, Hc.
  - apply one_same; assumption.
  - apply one_same; assumption.
  - apply one_same; assumption.
  - apply one_same; assumption.
  - discriminate Hw.
  - rewrite !run_cat. apply IH1; [exact Hw1|exact Hc|].
    intros c1' c2' g' Hc'. apply IH2; assumption.
  - rewrite !run_alt.
    pose proof (IH1 Hw1 c1 c2 g k1 k2 Hc Hk) as H1.
    destruct (run ic r1 c1 g k1) as [[x1 y1]|], (run ic r1 c2 g k2) as [[x2 y2]|];
      try exact H1; try contradiction.
    apply IH2; assumption.
  - rewrite !run_star. rewrite (proj1 Hc).
    apply star_loop_same; [apply IH, Hw|exact Hk|exact Hc].
  - rewrite !run_grp. apply IH; [exact Hw|exact Hc|].
    intros c1' c2' g' Hc'. rewrite (proj2 Hc'), (proj2 Hc), (proj1 Hc).
    replace (pos c1' + d - (pos c1 + d)) with (pos c1' - pos c1) by lia.
    apply Hk, Hc'.
Qed.

Lemma match_at_same (ic : bool) (r : regex) (d : nat) (c1 c2 : cursor) :
  no_wordb r = true -> same_place d c1 c2 ->
  same_result d (match_at ic r c1) (match_at ic r c2).
Proof.
  intros Hw Hc. unfold match_at. apply run_same; [exact Hw|exact Hc|].
  intros c1' c2' g' Hc'. split; [exact Hc'|reflexivity].
Qed.

Lemma sub_from_prev (ic : bool) (r : regex) (repl : string) :
  no_wordb r = true ->
  forall (s : string) (pv pv' : option ascii) (skip : nat),
    sub_from ic r repl pv s skip = sub_from ic r repl pv' s skip.
Proof.
  intros Hw. induction s as [|x s IH]; intros pv pv' skip.
  - destruct skip; cbn [sub_from]; [|reflexivity].
    pose proof (match_at_same ic r 0 {| prev := pv; rest := ""; pos := 0 |}
                  {| prev := pv'; rest := ""; pos := 0 |} Hw (conj eq_refl eq_refl)) as H.
    destruct (match_at ic r _) as [[c1 g1]|], (match_at ic r _) as [[c2 g2]|];
      try contradiction; reflexivity.
  - destruct skip; cbn [sub_from]; [|reflexivity].
    pose proof (match_at_same ic r 0 {| prev := pv; rest := String x s; pos := 0 |}
                  {| prev := pv'; rest := String x s; pos := 0 |} Hw
                  (conj eq_refl eq_refl)) as H.
    destruct (match_at ic r _) as [[c1 g1]|], (match_at ic r _) as [[c2 g2]|];
      try contradiction; [|reflexivity].
    destruct H as ((_ & Hp) & _). rewrite Hp, Nat.add_0_r. reflexivity.
Qed.

(** ** The tags that [strip_html_tags] replaces *)

Lemma strip_html_tags_eq (line : string) :
  SemanticsLint.strip_html_tags line = sub_from false tag " " None line 0.
Proof. reflexivity. Qed.

Lemma run_not_gt {A : Type} (c : cursor) (g : groups)
  (k : cursor -> groups -> option A) :
  run false (Cls true [">"%char]) c g k = one not_gt c g k.
Proof.
  cbn [run]. unfold one. destruct (rest c) as [|x s']; [reflexivity|].
  cbn [existsb]. unfold char_eq, not_gt. rewrite orb_false_r, Ascii.eqb_sym.
  reflexivity.
Qed.

Lemma tag_miss (c : cursor) (x : ascii) (s : string) :
  rest c = String x s -> not_lt x = true -> match_at false tag c = None.
Proof.
  intros Hr Hx. unfold match_at, tag. cbn [cats]. rewrite run_cat. cbn [run].
  unfold one. rewrite Hr. unfold char_eq. unfold not_lt in Hx.
  apply negb_true_iff in Hx. rewrite Ascii.eqb_sym, Hx. reflexivity.
Qed.

Lemma tag_miss_empty (c : cursor) : rest c = "" -> match_at false tag c = None.
Proof.
  intros Hr. unfold match_at, tag. cbn [cats]. rewrite run_cat. cbn [run].
  unfold one. rewrite Hr. reflexivity.
Qed.

Lemma tag_match (c : cursor) (body post : string) :
  rest c = String "<" (body ++ String ">" post) ->
  body <> "" -> all_chars not_gt body = true ->
  exists c', match_at false tag c = Some (c', [])
             /\ pos c' = pos c + 2 + String.length body.
Proof.
  intros Hr Hne Hb.
  set (c1 := advance "<" (body ++ String ">" post) c).
  destruct (feed_rest body (String ">" post) c1 eq_refl) as (R2 & P2).
  exists (advance ">" post (feed c1 (String.length body))). split.
  - unfold match_at, tag. cbn [cats]. rewrite run_cat.
    change (run false (Lit "<") c [] ?k) with (one (char_eq false "<") c [] k).
    unfold one at 1. rewrite Hr. cbn [char_eq Ascii.eqb Bool.eqb]. fold c1.
    rewrite run_cat.
    apply (run_plus_one false (Cls true [">"%char]) not_gt
             (fun c g k => run_not_gt c g k) _ body (String ">" post));
      [exact Hne|exact Hb|reflexivity|reflexivity|].
    rewrite run_cat.
    change (run false (Lit ">") ?c [] ?k) with (one (char_eq false ">") c [] k).
    unfold one. rewrite R2. reflexivity.
  - cbn [advance pos]. rewrite P2. subst c1. cbn [advance pos]. lia.
Qed.

Lemma all_chars_append (ok : ascii -> bool) (a b : string) :
  all_chars ok (a ++ b) = all_chars ok a && all_chars ok b.
Proof. unfold all_chars. rewrite chars_append. apply forallb_app. Qed.

Lemma lang_star_not_gt (c : cursor) (n : nat) (caps : groups) :
  lang false (Star (Cls true [">"%char])) c n caps ->
  all_chars not_gt (substring 0 n (rest c)) = true.
Proof.
  remember (Star (Cls true [">"%char])) as r eqn:Hr. intros H. revert Hr.
  induction H as [c | p x s' c E _ | neg cs x s' c E _ | x s' c E _ | x s' c E _
                 | c _ | r1 r2 c n1 n2 caps1 caps2 _ IH1 _ IH2
                 | r1 r2 c n caps _ IH | r1 r2 c n caps _ IH
                 | r c | r c n1 n2 caps1 caps2 H1 _ H2 IH2
                 | i r c n caps _ IH]; intros Hr; try discriminate.
  - simpl. now destruct (rest c).
  - injection Hr as ->. pose proof (IH2 eq_refl) as Hs.
    inversion H1 as [| |neg cs x s' c0 E Hx| | | | | | | | |]; subst.
    rewrite (feed_one c x s' E) in Hs. cbn [rest advance] in Hs.
    rewrite E. simpl. unfold all_chars in *. cbn [chars forallb].
    rewrite Hs, andb_true_r.
    cbn [existsb] in Hx. unfold char_eq in Hx. unfold not_gt.
    rewrite orb_false_r, Ascii.eqb_sym in Hx. exact Hx.
Qed.

Lemma tag_sound (c c' : cursor) (g : groups) :
  match_at false tag c = Some (c', g) ->
  exists body post,
    rest c = String "<" (body ++ String ">" post)
    /\ body <> "" /\ all_chars not_gt body = true.
Proof.
  intros H. apply match_at_sound in H as (n & L & _).
  unfold tag in L. cbn [cats] in L. unfold Plus in L.
  repeat match goal with
         | H : lang _ (Cat _ _) _ _ _ |- _ => inv H
         | H : lang _ (Lit _) _ _ _ |- _ => inv H
         | H : lang _ (Cls _ _) _ _ _ |- _ => inv H
         | H : lang _ Eps _ _ _ |- _ => inv H
         | H : char_eq false _ _ = true |- _ =>
             unfold char_eq in H; apply Ascii.eqb_eq in H; subst
         end.
  match goal with
  | H : lang _ (Star _) _ ?m _ |- _ =>
      pose proof (lang_star_not_gt _ _ _ H) as Hs;
      pose proof (feed_split m (feed (feed c 1) 1)) as F
  end.
  match goal with H : rest c = String "<" _ |- _ => rename H into Hc end.
  match goal with H : rest (feed c 1) = String _ _ |- _ => rename H into H1 end.
  match goal with H : xorb true _ = true |- _ => rename H into Hx end.
  match goal with H : rest (feed (feed c 1) (1 + _)) = _ |- _ => rename H into Hend end.
  rewrite (feed_one c _ _ Hc) in *. cbn [rest advance] in H1. subst.
  change (1 + n5) with (S n5) in Hend. cbn [feed rest advance] in Hend, F, Hs.
  rewrite Hend in F.
  exists (String x1 (substring 0 n5 s'1)), s'.
  split; [rewrite Hc; cbn [append]; rewrite <- F; reflexivity|].
  split; [discriminate|].
  unfold all_chars in *. cbn [chars forallb]. rewrite Hs, andb_true_r.
  cbn [existsb] in Hx. unfold char_eq in Hx. unfold not_gt.
  rewrite orb_false_r, Ascii.eqb_sym in Hx. exact Hx.
Qed.

Lemma sub_from_skip (ic : bool) (r : regex) (repl : string) (s : string) :
  forall (a : string) (pv : option ascii),
    sub_from ic r repl pv (a ++ s) (String.length a)
    = sub_from ic r repl (last_or pv a) s 0.
Proof.
  induction a as [|x a IH]; intros pv; [reflexivity|].
  cbn [append String.length sub_from last_or]. apply IH.
Qed.

Lemma sub_from_plain (s : string) :
  forall (pre : string) (pv : option ascii),
    all_chars not_lt pre = true ->
    sub_from false tag " " pv (pre ++ s) 0
    = pre ++ sub_from false tag " " (last_or pv pre) s 0.
Proof.
  induction pre as [|x pre IH]; intros pv H; [reflexivity|].
  unfold all_chars in H. cbn [chars forallb] in H.
  apply andb_true_iff in H as (Hx & H).
  cbn [append sub_from last_or].
  rewrite (tag_miss {| prev := pv; rest := String x (pre ++ s); pos := 0 |}
             x (pre ++ s) eq_refl Hx).
  f_equal. apply IH. exact H.
Qed.

Lemma not_gt_chars (s pre post : string) :
  all_chars not_gt s = true -> s <> pre ++ String ">" post.
Proof.
  intros H E. subst s. rewrite all_chars_append in H.
  apply andb_true_iff in H as (_ & H). unfold all_chars in H. cbn in H.
  discriminate H.
Qed.

(** X11.  [strip_html_tags], case by case.  A line without [<] is left as
    it is.  At the first [<]: when it is followed by one character or more
    other than [>] and then by [>], all of that becomes one space and the
    rest of the line is stripped in the same way; when it is followed at
    once by [>], or by no [>] at all, it stays and the rest of the line is
    stripped. *)
Theorem strip_html_tags_by_cases :
  (forall line,
     all_chars not_lt line = true -> SemanticsLint.strip_html_tags line = line)
  /\ (forall pre body post,
        all_chars not_lt pre = true -> body <> "" -> all_chars not_gt body = true ->
        SemanticsLint.strip_html_tags (pre ++ "<" ++ body ++ ">" ++ post)
        = pre ++ " " ++ SemanticsLint.strip_html_tags post)
  /\ (forall pre rest,
        all_chars not_lt pre = true ->
        stops not_gt rest = true \/ all_chars not_gt rest = true ->
        SemanticsLint.strip_html_tags (pre ++ "<" ++ rest)
        = pre ++ "<" ++ SemanticsLint.strip_html_tags rest)
  /\ SemanticsLint.strip_html_tags "<p class='wallet'>Keep <b>it</b> safe, 1 < 2</p>"
     = " Keep  it  safe, 1  ".
Proof.
  split; [|split; [|split]].
  - intros line H. rewrite strip_html_tags_eq.
    rewrite <- (append_nil_r line) at 1. rewrite (sub_from_plain "" line None H).
    cbn [sub_from].
    rewrite (tag_miss_empty {| prev := last_or None line; rest := ""; pos := 0 |} eq_refl).
    apply append_nil_r.
  - intros pre body post Hp Hne Hb. rewrite !strip_html_tags_eq.
    rewrite (sub_from_plain _ pre None Hp). f_equal.
    cbn [append sub_from].
    destruct (tag_match {| prev := last_or None pre;
                           rest := String "<" (body ++ String ">" post); pos := 0 |}
                body post eq_refl Hne Hb) as (c' & -> & Hpos).
    cbn [pos] in Hpos. rewrite Hpos. cbn [Nat.add Nat.sub]. f_equal.
    change (String ">" post) with (">" ++ post). rewrite <- append_assoc.
    replace (S (String.length body)) with (String.length (body ++ ">"))
      by (rewrite length_append; cbn; lia).
    rewrite sub_from_skip. apply sub_from_prev. reflexivity.
  - intros pre rest Hp Hr. rewrite !strip_html_tags_eq.
    rewrite (sub_from_plain _ pre None Hp). f_equal.
    cbn [append sub_from].
    destruct (match_at false tag _) as [[c' g]|] eqn:E.
    + exfalso. apply tag_sound in E as (body & post & R & Hne & Hb).
      cbn [Re.rest] in R. injection R as ->. destruct Hr as [Hr|Hr].
      * destruct body as [|x body]; [now apply Hne|].
        unfold all_chars in Hb. cbn in Hb. apply andb_true_iff in Hb as (Hx & _).
        cbn in Hr. rewrite Hx in Hr. discriminate Hr.
      * exact (not_gt_chars _ body post Hr eq_refl).
    + f_equal. apply sub_from_prev. reflexivity.
  - vm_compute. reflexivity.
Qed.

(** ** The string literals that [extract_string_literals] returns *)

Lemma extract_string_literals_eq (line : string) :
  SemanticsLint.extract_string_literals line =
  flat_map captured (map m_groups (finditer false SemanticsLint.STRING_LITERAL_RE line)).
Proof.
  unfold SemanticsLint.extract_string_literals.
  induction (finditer false SemanticsLint.STRING_LITERAL_RE line) as [|m l IH];
    [reflexivity|].
  cbn [flat_map map]. rewrite IH. reflexivity.
Qed.

Lemma scan_groups_same (ic : bool) (r : regex) (d : nat) :
  no_wordb r = true ->
  forall (s : string) (pv pv' : option ascii) (p skip : nat),
    map m_groups (scan ic r pv s p skip)
    = map m_groups (scan ic r pv' s (p + d) skip).
Proof.
  intros Hw. induction s as [|x s IH]; intros pv pv' p skip.
  - cbn [scan]. destruct skip; [|reflexivity].
    pose proof (match_at_same ic r d {| prev := pv; rest := ""; pos := p |}
                  {| prev := pv'; rest := ""; pos := p + d |} Hw
                  (conj eq_refl eq_refl)) as H.
    destruct (match_at ic r _) as [[c1 g1]|], (match_at ic r _) as [[c2 g2]|];
      try contradiction; [|reflexivity].
    destruct H as (_ & ->). reflexivity.
  - cbn [scan]. destruct skip as [|skip].
    + pose proof (match_at_same ic r d {| prev := pv; rest := String x s; pos := p |}
                    {| prev := pv'; rest := String x s; pos := p + d |} Hw
                    (conj eq_refl eq_refl)) as H.
      destruct (match_at ic r _) as [[c1 g1]|], (match_at ic r _) as [[c2 g2]|];
        try contradiction.
      * destruct H as ((_ & Hp) & ->). cbn [map m_groups]. f_equal.
        replace (pos c2 - (p + d) - 1) with (pos c1 - p - 1) by lia.
        apply (IH (Some x) (Some x) (S p)).
      * apply (IH (Some x) (Some x) (S p)).
    + apply (IH (Some x) (Some x) (S p)).
Qed.

Lemma literal_miss (c : cursor) :
  stops is_quote (rest c) = true ->
  match_at false SemanticsLint.STRING_LITERAL_RE c = None.
Proof.
  intros H. unfold match_at, SemanticsLint.STRING_LITERAL_RE, SemanticsLint.quoted.
  cbn [cats]. rewrite !run_alt, !run_cat. cbn [run]. unfold one.
  destruct (rest c) as [|x s]; [reflexivity|].
  cbn [stops] in H. apply negb_true_iff in H. unfold is_quote in H.
  cbn [existsb] in H. apply orb_false_iff in H as (H1 & H).
  apply orb_false_iff in H as (H2 & H). apply orb_false_iff in H as (H3 & _).
  unfold char_eq. rewrite (Ascii.eqb_sym _ x), H1, (Ascii.eqb_sym _ x), H2,
    (Ascii.eqb_sym _ x), H3. reflexivity.
Qed.

Lemma run_unescaped {A : Type} (q : ascii) (c : cursor) (g : groups)
  (k : cursor -> groups -> option A) :
  run false (Cls true [q; SemanticsLint.backslash]) c g k = one (unescaped q) c g k.
Proof.
  cbn [run]. unfold one. destruct (rest c) as [|x s']; [reflexivity|].
  cbn [existsb]. unfold char_eq, unescaped.
  rewrite orb_false_r, (Ascii.eqb_sym q x), (Ascii.eqb_sym SemanticsLint.backslash x).
  destruct (Ascii.eqb x q), (Ascii.eqb x SemanticsLint.backslash); reflexivity.
Qed.

Lemma quoted_match (q : ascii) (i : nat) (c : cursor) (body post : string) :
  rest c = String q (body ++ String q post) ->
  Ascii.eqb q SemanticsLint.backslash = false ->
  all_chars (unescaped q) body = true ->
  exists c', match_at false (SemanticsLint.quoted q i) c = Some (c', [(i, body)])
             /\ pos c' = pos c + 2 + String.length body.
Proof.
  intros Hr Hq Hb.
  set (c1 := advance q (body ++ String q post) c).
  destruct (feed_rest body (String q post) c1 eq_refl) as (R2 & P2).
  set (c2 := feed c1 (String.length body)) in *.
  exists (advance q post c2). split.
  - unfold match_at, SemanticsLint.quoted. cbn [cats]. rewrite run_cat.
    change (run false (Lit q) c [] ?k) with (one (char_eq false q) c [] k).
    unfold one at 1. rewrite Hr. unfold char_eq at 1. rewrite Ascii.eqb_refl. fold c1.
    rewrite run_cat, run_grp, run_cat.
    apply (run_star_one false (Cls true [q; SemanticsLint.backslash]) (unescaped q)
             (fun c g k => run_unescaped q c g k) _ body (String q post));
      [exact Hb| |reflexivity|].
    { cbn [stops]. unfold unescaped. rewrite Ascii.eqb_refl. reflexivity. }
    fold c2. rewrite run_star. cbn [star_loop]. rewrite run_cat.
    change (run false (Lit SemanticsLint.backslash) c2 [] ?k)
      with (one (char_eq false SemanticsLint.backslash) c2 [] k).
    unfold one at 1. rewrite R2. unfold char_eq at 1.
    rewrite Ascii.eqb_sym, Hq.
    rewrite P2. replace (pos c1 + String.length body - pos c1) with (String.length body) by lia.
    change (rest c1) with (body ++ String q post). rewrite substring_prefix.
    rewrite run_cat.
    change (run false (Lit q) c2 ?g ?k) with (one (char_eq false q) c2 g k).
    unfold one. rewrite R2. unfold char_eq. rewrite Ascii.eqb_refl. reflexivity.
  - cbn [advance pos]. rewrite P2. subst c1. cbn [advance pos]. lia.
Qed.

Lemma quoted_miss (q : ascii) (i : nat) (c : cursor) (x : ascii) (s : string) :
  rest c = String x s -> Ascii.eqb q x = false ->
  match_at false (SemanticsLint.quoted q i) c = None.
Proof.
  intros Hr Hx. unfold match_at, SemanticsLint.quoted. cbn [cats].
  rewrite run_cat. cbn [run]. unfold one. rewrite Hr. unfold char_eq. rewrite Hx.
  reflexivity.
Qed.

Lemma literal_match (q : ascii) (c : cursor) (body post : string) :
  rest c = String q (body ++ String q post) ->
  is_quote q = true -> all_chars (unescaped q) body = true ->
  exists c' g, match_at false SemanticsLint.STRING_LITERAL_RE c = Some (c', g)
               /\ captured g = [body]
               /\ pos c' = pos c + 2 + String.length body.
Proof.
  intros Hr Hq Hb. unfold is_quote in Hq. cbn [existsb] in Hq.
  rewrite orb_false_r in Hq.
  unfold match_at, SemanticsLint.STRING_LITERAL_RE. rewrite !run_alt.
  fold (match_at false (SemanticsLint.quoted "'" 1) c).
  fold (match_at false (SemanticsLint.quoted SemanticsLint.quote 2) c).
  fold (match_at false (SemanticsLint.quoted "`" 3) c).
  destruct (Ascii.eqb_spec q "'"%char) as [->|N1].
  - destruct (quoted_match "'" 1 c body post Hr eq_refl Hb) as (c' & -> & Hp).
    exists c', [(1, body)]. auto.
  - rewrite (quoted_miss "'" 1 c q _ Hr)
      by (rewrite Ascii.eqb_sym; apply Ascii.eqb_neq; exact N1).
    destruct (Ascii.eqb_spec q SemanticsLint.quote) as [->|N2].
    + destruct (quoted_match SemanticsLint.quote 2 c body post Hr eq_refl Hb)
        as (c' & -> & Hp).
      exists c', [(2, body)]. auto.
    + rewrite (quoted_miss SemanticsLint.quote 2 c q _ Hr)
        by (rewrite Ascii.eqb_sym; apply Ascii.eqb_neq; exact N2).
      destruct (Ascii.eqb_spec q "`"%char) as [->|N3]; [|discriminate Hq].
      destruct (quoted_match "`" 3 c body post Hr eq_refl Hb) as (c' & -> & Hp).
      exists c', [(3, body)]. auto.
Qed.

Lemma scan_skip (ic : bool) (r : regex) (s : string) :
  forall (a : string) (pv : option ascii) (p : nat),
    a <> "" ->
    scan ic r pv (a ++ s) p (String.length a)
    = scan ic r (last_or pv a) s (p + String.length a) 0.
Proof.
  induction a as [|x a IH]; intros pv p Hne; [now exfalso|].
  cbn [append String.length scan last_or]. rewrite ?Nat.sub_0_r, Nat.add_succ_r.
  destruct a as [|y a].
  - cbn [append String.length last_or]. rewrite Nat.add_0_r. reflexivity.
  - apply (IH (Some x) (S p)). discriminate.
Qed.

Lemma scan_plain (s : string) :
  forall (pre : string) (pv : option ascii) (p : nat),
    all_chars not_quote pre = true ->
    scan false SemanticsLint.STRING_LITERAL_RE pv (pre ++ s) p 0
    = scan false SemanticsLint.STRING_LITERAL_RE (last_or pv pre) s
        (p + String.length pre) 0.
Proof.
  induction pre as [|x pre IH]; intros pv p H.
  - cbn [append last_or String.length]. rewrite Nat.add_0_r. reflexivity.
  - unfold all_chars in H. cbn [chars forallb] in H.
    apply andb_true_iff in H as (Hx & H).
    cbn [append scan last_or String.length].
    rewrite (literal_miss {| prev := pv; rest := String x (pre ++ s); pos := p |})
      by exact Hx.
    cbn [Nat.sub]. rewrite Nat.add_succ_r. apply (IH (Some x) (S p)). exact H.
Qed.

(** X12.  [extract_string_literals], case by case.  A line without a
    quote has no string literal.  At the first quote: when the text up to
    the next quote of the same kind holds no backslash, that text is the
    first literal, whatever other quotes it holds, and the literals after
    it are those of the rest of the line. *)
Theorem extract_string_literals_by_cases :
  (forall line,
     all_chars not_quote line = true ->
     SemanticsLint.extract_string_literals line = [])
  /\ (forall pre q body post,
        all_chars not_quote pre = true -> is_quote q = true ->
        all_chars (unescaped q) body = true ->
        SemanticsLint.extract_string_literals (pre ++ String q (body ++ String q post))
        = body :: SemanticsLint.extract_string_literals post)
  /\ SemanticsLint.extract_string_literals
       "t('Connect your wallet', `gas: ${fee}`) // 'chain"
     = ["Connect your wallet"; "gas: ${fee}"].
Proof.
  split; [|split].
  - intros line H. rewrite extract_string_literals_eq. unfold finditer.
    rewrite <- (append_nil_r line), (scan_plain "" line None 0 H).
    cbn [scan]. rewrite literal_miss by reflexivity. reflexivity.
  - intros pre q body post Hp Hq Hb. rewrite !extract_string_literals_eq.
    unfold finditer. rewrite (scan_plain _ pre None 0 Hp). cbn [Nat.add scan].
    destruct (literal_match q {| prev := last_or None pre;
                                 rest := String q (body ++ String q post);
                                 pos := String.length pre |} body post eq_refl Hq Hb)
      as (c' & g & -> & Hg & Hpos).
    cbn [pos] in Hpos. cbn [map flat_map m_groups]. rewrite Hg. cbn [app]. f_equal.
    replace (pos c' - String.length pre - 1) with (String.length (body ++ String q ""))
      by (rewrite length_append; cbn; lia).
    change (String q post) with (String q "" ++ post). rewrite <- append_assoc.
    rewrite scan_skip by (destruct body; discriminate).
    f_equal. symmetry.
    apply (scan_groups_same false SemanticsLint.STRING_LITERAL_RE _ eq_refl post
             None _ 0 0).
  - vm_compute. reflexivity.
Qed.

(** ** The files of a walk *)

Lemma entry_induction (P : SemanticsLint.entry -> Prop) :
  (forall name content, P (SemanticsLint.EFile name content)) ->
  (forall name children, Forall P children -> P (SemanticsLint.EDir name children)) ->
  forall e, P e.
Proof.
  intros Hf Hd.
  exact (fix IH (e : SemanticsLint.entry) : P e :=
           match e with
           | SemanticsLint.EFile name content => Hf name content
           | SemanticsLint.EDir name children =>
               Hd name children
                 ((fix go (l : list SemanticsLint.entry) : Forall P l :=
                     match l with
                     | [] => Forall_nil P
                     | x :: l' => Forall_cons x (IH x) (go l')
                     end) children)
           end).
Qed.

Lemma walk_walked (e : SemanticsLint.entry) :
  forall dirpath path content,
    In (path, content) (SemanticsLint.walk dirpath e) <-> walked dirpath e path content.
Proof.
  induction e as [name c|name children IH] using entry_induction;
    intros dirpath path content.
  - cbn [SemanticsLint.walk]. split; [intros []|].
    intros (dnames & filename & R & _). inversion R.
  - cbn [SemanticsLint.walk]. rewrite in_app_iff, !in_flat_map. split.
    + intros [(c & Hc & Hin)|(c & Hc & Hin)].
      * destruct c as [filename content'|d sub]; [|destruct Hin].
        destruct (SemanticsLint.mem _ _) eqn:Ext; [|destruct Hin].
        destruct Hin as [E|[]]. injection E as <- <-.
        exists [], filename. repeat split; [constructor; exact Hc|constructor|exact Ext].
      * destruct c as [filename content'|d sub]; [destruct Hin|].
        destruct (SemanticsLint.mem d SemanticsLint.SKIP_DIRS) eqn:Sk; [destruct Hin|].
        rewrite Forall_forall in IH. apply (IH _ Hc) in Hin.
        destruct Hin as (dnames & filename & R & F & -> & Ext).
        exists (d :: dnames), filename.
        repeat split; [econstructor; eassumption|constructor; assumption|exact Ext].
    + intros (dnames & filename & R & F & -> & Ext).
      inversion R as [n ch f c Hin|n ch d sub dn f c Hin R']; subst.
      * left. exists (SemanticsLint.EFile filename content). split; [exact Hin|].
        cbn [descend] in *. rewrite Ext. left. reflexivity.
      * right. exists (SemanticsLint.EDir d sub). split; [exact Hin|].
        inversion F as [|? ? Sk F']; subst. rewrite Sk.
        rewrite Forall_forall in IH. apply (IH _ Hin).
        exists dn, filename. repeat split; assumption.
Qed.

(** X13.  The files that the lint reads.  A root that is a file is read
    whatever its name and extension.  Below a root that is a directory, a
    file is read exactly when its extension, in small letters, is one of
    the listed ones and no directory between the root and the file has a
    skipped name; the name of the root itself is not looked at. *)
Theorem iter_files_walked (t : SemanticsLint.Tree) (roots : list string)
  (path : string) (content : option string) :
  In (path, content) (SemanticsLint.iter_files t roots)
  <-> exists root,
        In root roots
        /\ ((exists name,
               SemanticsLint.at_path t root = Some (SemanticsLint.EFile name content)
               /\ path = root)
            \/ (exists name children,
                  SemanticsLint.at_path t root
                  = Some (SemanticsLint.EDir name children)
                  /\ walked root (SemanticsLint.EDir name children) path content)).
Proof.
  unfold SemanticsLint.iter_files. rewrite in_flat_map. split.
  - intros (root & Hr & Hin). exists root. split; [exact Hr|].
    destruct (SemanticsLint.at_path t root) as [[name c|name children]|];
      [| |destruct Hin].
    + destruct Hin as [E|[]]. injection E as <- <-. left. eauto.
    + right. exists name, children. split; [reflexivity|].
      apply walk_walked. exact Hin.
  - intros (root & Hr & [(name & E & ->)|(name & children & E & W)]);
      exists root; (split; [exact Hr|]); rewrite E.
    + left. reflexivity.
    + apply walk_walked. exact W.
Qed.

(** ** Default roots that lie in one another *)

Lemma twice_flat_map {A B : Type} (f : A -> list B) (x : A) (y : B) (l : list A) :
  twice x l -> In y (f x) -> twice y (flat_map f l).
Proof.
  intros (l1 & l2 & l3 & ->) Hy.
  apply in_split in Hy. destruct Hy as (a & b & E).
  rewrite flat_map_app. cbn [flat_map]. rewrite flat_map_app. cbn [flat_map].
  rewrite E.
  exists (flat_map f l1 ++ a)%list, (b ++ flat_map f l2 ++ a)%list,
         (b ++ flat_map f l3)%list.
  repeat rewrite <- app_assoc. cbn [app]. repeat rewrite <- app_assoc. reflexivity.
Qed.

Lemma twice_blocks {A : Type} (x : A) (b1 b2 l1 l2 l3 : list A) :
  In x b1 -> In x b2 -> twice x (l1 ++ b1 ++ l2 ++ b2 ++ l3).
Proof.
  intros H1 H2. apply in_split in H1, H2.
  destruct H1 as (a1 & c1 & ->). destruct H2 as (a2 & c2 & ->).
  exists (l1 ++ a1)%list, (c1 ++ l2 ++ a2)%list, (c2 ++ l3)%list.
  repeat rewrite <- app_assoc. cbn [app]. repeat rewrite <- app_assoc. reflexivity.
Qed.

Lemma walk_into (dirpath name d : string) (children sub : list SemanticsLint.entry)
  (pc : string * option string) :
  In (SemanticsLint.EDir d sub) children ->
  SemanticsLint.mem d SemanticsLint.SKIP_DIRS = false ->
  In pc (SemanticsLint.walk (path_join dirpath d) (SemanticsLint.EDir d sub)) ->
  In pc (SemanticsLint.walk dirpath (SemanticsLint.EDir name children)).
Proof.
  intros Hin Sk Hpc. cbn [SemanticsLint.walk]. apply in_or_app. right.
  apply in_flat_map. exists (SemanticsLint.EDir d sub). split; [exact Hin|].
  rewrite Sk. exact Hpc.
Qed.

(** X14.  Two of the default roots lie inside a third one:
    [src/presentation] and [src/console] are walked on their own and
    again as part of [src].  So, in a run without arguments, a file below
    one of them is read twice and each of its hits is in the list of hits
    twice. *)
Theorem nested_default_roots_are_scanned_twice (t : SemanticsLint.Tree)
  (d : string) (children sub : list SemanticsLint.entry)
  (pc : string * option string) :
  In d ["presentation"; "console"] ->
  SemanticsLint.at_path t (path_join (SemanticsLint.tree_root t) "src")
  = Some (SemanticsLint.EDir "src" children) ->
  In (SemanticsLint.EDir d sub) children ->
  SemanticsLint.at_path t (path_join (path_join (SemanticsLint.tree_root t) "src") d)
  = Some (SemanticsLint.EDir d sub) ->
  In pc (SemanticsLint.walk (path_join (path_join (SemanticsLint.tree_root t) "src") d)
           (SemanticsLint.EDir d sub)) ->
  twice pc (SemanticsLint.iter_files t (SemanticsLint.find_roots t []))
  /\ forall h, In h (file_hits pc) -> twice h (SemanticsLint.lint_hits t []).
Proof.
  intros Hd Hsrc Hin Hsub Hpc.
  set (root := SemanticsLint.tree_root t) in *.
  set (ex := fun p => match SemanticsLint.at_path t p with
                      | Some _ => true
                      | None => false
                      end).
  assert (Hsk : SemanticsLint.mem d SemanticsLint.SKIP_DIRS = false).
  { destruct Hd as [<-|[<-|[]]]; reflexivity. }
  assert (Htwice : twice pc (SemanticsLint.iter_files t (SemanticsLint.find_roots t []))).
  { assert (Hroots : exists l1 l2 l3,
              SemanticsLint.find_roots t []
              = (l1 ++ [path_join (path_join root "src") d] ++ l2
                 ++ [path_join root "src"] ++ l3)%list).
    { unfold SemanticsLint.find_roots. fold root. fold ex.
      assert (E1 : ex (path_join (path_join root "src") d) = true)
        by (unfold ex; now rewrite Hsub).
      assert (E2 : ex (path_join root "src") = true)
        by (unfold ex; now rewrite Hsrc).
      unfold SemanticsLint.DEFAULT_DIRS.
      destruct Hd as [<-|[<-|[]]]; cbn [filter]; rewrite ?E1, ?E2.
      - destruct (ex (path_join (path_join root "src") "console"));
          [exists [], [path_join (path_join root "src") "console"]
          |exists [], []]; eexists; reflexivity.
      - destruct (ex (path_join (path_join root "src") "presentation"));
          [exists [path_join (path_join root "src") "presentation"], []
          |exists [], []]; eexists; reflexivity. }
    destruct Hroots as (l1 & l2 & l3 & ->).
    unfold SemanticsLint.iter_files. rewrite !flat_map_app.
    apply twice_blocks.
    - cbn [flat_map]. rewrite Hsub, app_nil_r. exact Hpc.
    - cbn [flat_map]. rewrite Hsrc, app_nil_r.
      apply (walk_into _ "src" d children sub); assumption. }
  split; [exact Htwice|].
  intros h Hh. rewrite lint_hits_eq. apply (twice_flat_map file_hits pc); assumption.
Qed.

Lemma nested_default_roots_are_scanned_twice_witness :
  In ("/repo/src/presentation/home.md", Some "Connect your wallet")
    (SemanticsLint.walk "/repo/src/presentation"
       (SemanticsLint.EDir "presentation" Worlds.pages))
  /\ twice ("/repo/src/presentation/home.md", 1, "wallet", "Connect your wallet")
       (SemanticsLint.lint_hits Worlds.nested_site [])
  /\ SemanticsLint.lint_hits Worlds.nested_site []
     = [ ("/repo/src/presentation/home.md", 1, "wallet", "Connect your wallet");
         ("/repo/src/presentation/home.md", 1, "wallet", "Connect your wallet") ].
Proof.
  assert (Hpc : In ("/repo/src/presentation/home.md", Some "Connect your wallet")
                  (SemanticsLint.walk "/repo/src/presentation"
                     (SemanticsLint.EDir "presentation" Worlds.pages)))
    by (left; reflexivity).
  split; [exact Hpc|]. split; [|vm_compute; reflexivity].
  apply (proj2 (nested_default_roots_are_scanned_twice Worlds.nested_site
                  "presentation" [SemanticsLint.EDir "presentation" Worlds.pages]
                  Worlds.pages
                  ("/repo/src/presentation/home.md", Some "Connect your wallet")
                  (or_introl eq_refl) eq_refl (or_introl eq_refl) eq_refl Hpc)).
  vm_compute. left. reflexivity.
Defined.

(** ** How a run of the lint ends *)

Lemma relative_to_under (root tail : string) :
  SemanticsLint.relative_to root (root ++ "/" ++ tail) <> None.
Proof.
  unfold SemanticsLint.relative_to.
  destruct (String.eqb _ _); [discriminate|].
  replace (startswith (root ++ "/") (root ++ "/" ++ tail)) with true; [discriminate|].
  symmetry. apply startswith_spec. exists tail. now rewrite append_assoc.
Qed.

Lemma relative_to_self (root : string) : SemanticsLint.relative_to root root <> None.
Proof. unfold SemanticsLint.relative_to. rewrite String.eqb_refl. discriminate. Qed.

Lemma descend_under (names : list string) (f : string) :
  forall p, exists tail, path_join (descend p names) f = p ++ "/" ++ tail.
Proof.
  induction names as [|d names IH]; intros p; cbn [descend].
  - exists f. reflexivity.
  - destruct (IH (path_join p d)) as (tail & ->). unfold path_join.
    exists (d ++ "/" ++ tail). now rewrite !append_assoc.
Qed.

Lemma default_dirs_under (root r : string) :
  In r (SemanticsLint.DEFAULT_DIRS root) -> exists tail, r = root ++ "/" ++ tail.
Proof.
  unfold SemanticsLint.DEFAULT_DIRS, path_join. cbn [In].
  intros H. repeat destruct H as [<-|H]; try destruct H;
    rewrite ?append_assoc; eexists; reflexivity.
Qed.

Lemma find_roots_default (t : SemanticsLint.Tree) (r : string) :
  In r (SemanticsLint.find_roots t []) ->
  r = SemanticsLint.tree_root t
  \/ In r (SemanticsLint.DEFAULT_DIRS (SemanticsLint.tree_root t)).
Proof.
  unfold SemanticsLint.find_roots.
  destruct (filter _ _) as [|x l] eqn:E.
  - intros [<-|[]]. left. reflexivity.
  - rewrite <- E. intros H. apply filter_In in H. right. exact (proj1 H).
Qed.

Lemma default_files_under (t : SemanticsLint.Tree) (path : string)
  (content : option string) :
  In (path, content) (SemanticsLint.iter_files t (SemanticsLint.find_roots t [])) ->
  SemanticsLint.relative_to (SemanticsLint.tree_root t) path <> None.
Proof.
  unfold SemanticsLint.iter_files. rewrite in_flat_map.
  intros (r & Hr & Hin). apply find_roots_default in Hr.
  assert (Hu : r = SemanticsLint.tree_root t
               \/ exists tail, r = SemanticsLint.tree_root t ++ "/" ++ tail).
  { destruct Hr as [Hr|Hr]; [left; exact Hr|right; exact (default_dirs_under _ _ Hr)]. }
  destruct (SemanticsLint.at_path t r) as [[name c|name children]|]; [| |destruct Hin].
  - destruct Hin as [E|[]]. injection E as <- <-.
    destruct Hu as [->|(tail & ->)];
      [apply relative_to_self|apply relative_to_under].
  - apply walk_walked in Hin. destruct Hin as (dnames & filename & _ & _ & -> & _).
    destruct (descend_under dnames filename r) as (tail & ->).
    destruct Hu as [->|(tail' & ->)]; [apply relative_to_under|].
    rewrite !append_assoc. apply relative_to_under.
Qed.

Lemma firstn_in {A : Type} (n : nat) (l : list A) (x : A) :
  In x (firstn n l) -> In x l.
Proof.
  intros H. rewrite <- (firstn_skipn n l). apply in_or_app. left. exact H.
Qed.

Lemma report_ok (root : string) (hs : list SemanticsLint.hit) :
  snd (SemanticsLint.report root hs) = true
  <-> forall h, In h hs -> SemanticsLint.relative_to root (fst (fst (fst h))) <> None.
Proof.
  induction hs as [|h hs IH]; cbn [SemanticsLint.report].
  - split; [intros _ h []|reflexivity].
  - destruct (SemanticsLint.relative_to root (fst (fst (fst h)))) as [rel|] eqn:E.
    + destruct (SemanticsLint.report root hs) as [ls ok]. cbn [snd] in *.
      rewrite IH. split.
      * intros H h' [<-|Hin]; [rewrite E; discriminate|exact (H h' Hin)].
      * intros H h' Hin. apply H. right. exact Hin.
    + cbn [snd]. split; [discriminate|].
      intros H. exfalso. apply (H h); [left; reflexivity|exact E].
Qed.

Lemma report_length (root : string) (hs : list SemanticsLint.hit) :
  snd (SemanticsLint.report root hs) = true ->
  List.length (fst (SemanticsLint.report root hs)) = List.length hs.
Proof.
  induction hs as [|h hs IH]; cbn [SemanticsLint.report]; [reflexivity|].
  destruct (SemanticsLint.relative_to root _); [|discriminate].
  destruct (SemanticsLint.report root hs) as [ls ok]. cbn [fst snd] in *.
  intros H. cbn [List.length]. now rewrite IH.
Qed.

Lemma main_eq (t : SemanticsLint.Tree) (args : list string) :
  SemanticsLint.main t args =
  let hits := SemanticsLint.lint_hits t args in
  let r := SemanticsLint.report (SemanticsLint.tree_root t) (firstn 200 hits) in
  match hits with
  | [] => (Return tt, [SemanticsLint.lint_ok])
  | _ =>
      if snd r
      then (Exit (Status 1),
            SemanticsLint.lint_header ::
            List.app (fst r)
              (if 200 <? List.length hits
               then ["  ... and " ++ str_of_nat (List.length hits - 200) ++ " more"]
               else []))
      else (Raise (OtherError "ValueError"), SemanticsLint.lint_header :: fst r)
  end.
Proof.
  unfold SemanticsLint.main. cbv zeta.
  destruct (SemanticsLint.lint_hits t args) as [|h hs]; [reflexivity|].
  destruct (SemanticsLint.report _ _) as [ls ok]. reflexivity.
Qed.

Lemma hit_file (t : SemanticsLint.Tree) (args : list string) (h : SemanticsLint.hit) :
  In h (SemanticsLint.lint_hits t args) ->
  exists content,
    In (fst (fst (fst h)), content)
      (SemanticsLint.iter_files t (SemanticsLint.find_roots t args)).
Proof.
  intros H. apply lint_hits_flagged in H. destruct h as [[[path n] term] shown].
  destruct H as (text & line & segment & Hin & _). exists (Some text). exact Hin.
Qed.

(** X15.  How a run of the lint ends.  It stops on an uncaught
    [ValueError], after the header, exactly when one of the first two
    hundred hits lies in a file that is not below the root of the
    repository; no other exception leaves it.  That takes a path given as
    an argument: a run without arguments returns or exits with its
    status. *)
Theorem lint_run_ends (t : SemanticsLint.Tree) (args : list string) :
  (fst (SemanticsLint.main t args) = Raise (OtherError "ValueError")
   <-> exists h, In h (firstn 200 (SemanticsLint.lint_hits t args))
                 /\ SemanticsLint.relative_to (SemanticsLint.tree_root t)
                      (fst (fst (fst h))) = None)
  /\ (forall e, fst (SemanticsLint.main t args) = Raise e -> e = OtherError "ValueError")
  /\ (fst (SemanticsLint.main t []) = Return tt
      \/ fst (SemanticsLint.main t []) = Exit (Status 1))
  /\ SemanticsLint.main Worlds.with_outside_note ["/tmp/note.txt"]
     = (Raise (OtherError "ValueError"), [SemanticsLint.lint_header]).
Proof.
  split; [|split; [|split]]; [| | |vm_compute; reflexivity].
  - rewrite main_eq. cbv zeta.
    pose proof (report_ok (SemanticsLint.tree_root t)
                  (firstn 200 (SemanticsLint.lint_hits t args))) as Hok.
    destruct (SemanticsLint.lint_hits t args) as [|h0 hs] eqn:Eh.
    + cbn [fst]. split; [discriminate|]. intros (h & Hin & _).
      rewrite firstn_nil in Hin. destruct Hin.
    + destruct (snd (SemanticsLint.report _ _)) eqn:Es; cbn [fst].
      * split; [discriminate|]. intros (h & Hin & Hn). exfalso.
        exact (proj1 Hok eq_refl h Hin Hn).
      * split; [intros _|reflexivity].
        destruct (existsb (fun h => match SemanticsLint.relative_to
                                            (SemanticsLint.tree_root t)
                                            (fst (fst (fst h))) with
                                    | None => true
                                    | Some _ => false
                                    end) (firstn 200 (h0 :: hs))) eqn:Ex.
        -- apply existsb_exists in Ex. destruct Ex as (h & Hin & Hn).
           exists h. split; [exact Hin|].
           destruct (SemanticsLint.relative_to _ _); [discriminate Hn|reflexivity].
        -- exfalso. assert (Hall : false = true); [|discriminate Hall].
           apply Hok. intros h Hin Hn.
           assert (Ht : existsb (fun h => match SemanticsLint.relative_to
                                                  (SemanticsLint.tree_root t)
                                                  (fst (fst (fst h))) with
                                          | None => true
                                          | Some _ => false
                                          end) (firstn 200 (h0 :: hs)) = true).
           { apply existsb_exists. exists h. split; [exact Hin|]. now rewrite Hn. }
           rewrite Ex in Ht. discriminate Ht.
  - intros e. rewrite main_eq. cbv zeta.
    destruct (SemanticsLint.lint_hits t args) as [|h0 hs]; [discriminate|].
    destruct (snd (SemanticsLint.report _ _)); cbn [fst]; [discriminate|].
    intros H. now injection H as <-.
  - rewrite main_eq. cbv zeta.
    pose proof (report_ok (SemanticsLint.tree_root t)
                  (firstn 200 (SemanticsLint.lint_hits t []))) as Hok.
    assert (Hall : forall h, In h (firstn 200 (SemanticsLint.lint_hits t [])) ->
                             SemanticsLint.relative_to (SemanticsLint.tree_root t)
                               (fst (fst (fst h))) <> None).
    { intros h Hin. apply firstn_in in Hin. apply hit_file in Hin.
      destruct Hin as (content & Hin). exact (default_files_under t _ _ Hin). }
    apply Hok in Hall.
    destruct (SemanticsLint.lint_hits t []) as [|h0 hs]; [left; reflexivity|].
    rewrite Hall. right. reflexivity.
Qed.

(** X16.  The report of a run that found banned terms: the header, then
    one line for each of the first two hundred hits, then, when there are
    more, one line that counts the others.  So at most 202 lines are
    printed, however many hits there are. *)
Theorem lint_report_is_capped (t : SemanticsLint.Tree) (args : list string) :
  fst (SemanticsLint.main t args) = Exit (Status 1) ->
  let n := List.length (SemanticsLint.lint_hits t args) in
  let out := snd (SemanticsLint.main t args) in
  1 <= n
  /\ hd_error out = Some SemanticsLint.lint_header
  /\ List.length out = 1 + Nat.min n 200 + (if 200 <? n then 1 else 0)
  /\ List.length out <= 202
  /\ (200 < n -> last out "" = "  ... and " ++ str_of_nat (n - 200) ++ " more").
Proof.
  rewrite main_eq. cbv zeta.
  pose proof (report_length (SemanticsLint.tree_root t)
                (firstn 200 (SemanticsLint.lint_hits t args))) as Hlen.
  destruct (SemanticsLint.lint_hits t args) as [|h0 hs] eqn:Eh; [discriminate|].
  destruct (snd (SemanticsLint.report _ _)); [|discriminate]. intros _.
  specialize (Hlen eq_refl). rewrite length_firstn in Hlen.
  cbn [fst snd hd_error].
  set (n := List.length (h0 :: hs)) in *.
  set (ls := fst (SemanticsLint.report _ _)) in *.
  assert (Hn : 1 <= n) by (subst n; cbn; lia).
  split; [exact Hn|]. split; [reflexivity|].
  destruct (Nat.ltb_spec 200 n) as [Hgt|Hle].
  - cbn [List.length]. rewrite length_app, Hlen. cbn [List.length].
    split; [lia|]. split; [lia|]. intros _.
    match goal with
    | |- last (?h :: ?l ++ [?x])%list _ = _ =>
        change (h :: l ++ [x])%list with ((h :: l) ++ [x])%list
    end.
    apply last_last.
  - cbn [List.length]. rewrite length_app, Hlen. cbn [List.length].
    split; [lia|]. split; [lia|]. intros Hgt. lia.
Qed.

Lemma lint_report_is_capped_witness :
  fst (SemanticsLint.main Examples.site []) = Exit (Status 1)
  /\ List.length (snd (SemanticsLint.main Examples.site [])) <= 202
  /\ hd_error (snd (SemanticsLint.main Examples.site []))
     = Some SemanticsLint.lint_header.
Proof.
  assert (H : fst (SemanticsLint.main Examples.site []) = Exit (Status 1))
    by (vm_compute; reflexivity).
  split; [exact H|].
  destruct (lint_report_is_capped Examples.site [] H) as (_ & Hh & _ & Hl & _).
  split; [exact Hl|exact Hh].
Defined.

(** ** The order of the hits *)

Lemma line_hits_numbered (path ext : string) (nl : nat * string) :
  Forall (fun h : SemanticsLint.hit =>
            fst (fst (fst h)) = path /\ snd (fst (fst h)) = fst nl)
    (line_hits path ext nl).
Proof.
  apply Forall_forall. intros h Hh. unfold line_hits in Hh.
  apply in_flat_map in Hh. destruct Hh as (segment & _ & Hh).
  unfold segment_hits in Hh. apply in_flat_map in Hh. destruct Hh as (tp & _ & Hh).
  destruct (SemanticsLint.found _ _); [|destruct Hh].
  destruct Hh as [<-|[]]. split; reflexivity.
Qed.

Lemma numbered_sorted (path ext : string) (l : list (nat * string)) :
  StronglySorted lt (map fst l) ->
  StronglySorted le
    (map (fun h : SemanticsLint.hit => snd (fst (fst h)))
       (flat_map (line_hits path ext) l)).
Proof.
  induction l as [|nl l IH]; intros S; cbn [flat_map map]; [constructor|].
  inversion S as [|? ? S' F]; subst. rewrite map_app.
  pose proof (line_hits_numbered path ext nl) as Hn. rewrite Forall_forall in Hn.
  assert (Hlow : forall x, In x (map (fun h : SemanticsLint.hit => snd (fst (fst h)))
                                   (flat_map (line_hits path ext) l)) -> fst nl < x).
  { intros x Hx. apply in_map_iff in Hx. destruct Hx as (h & <- & Hh).
    apply in_flat_map in Hh. destruct Hh as (nl' & Hin & Hh).
    pose proof (line_hits_numbered path ext nl') as Hn'. rewrite Forall_forall in Hn'.
    rewrite (proj2 (Hn' h Hh)). rewrite Forall_forall in F. apply F.
    apply in_map. exact Hin. }
  induction (line_hits path ext nl) as [|h hs IHh]; cbn [map app]; [exact (IH S')|].
  constructor.
  - apply IHh. intros x Hx. apply Hn. right. exact Hx.
  - apply Forall_forall. intros x Hx. apply in_app_or in Hx.
    rewrite (proj2 (Hn h (or_introl eq_refl))). destruct Hx as [Hx|Hx].
    + apply in_map_iff in Hx. destruct Hx as (h' & <- & Hh').
      rewrite (proj2 (Hn h' (or_intror Hh'))). lia.
    + apply Hlow in Hx. lia.
Qed.

Lemma seq_sorted (len : nat) : forall s, StronglySorted lt (seq s len).
Proof.
  induction len as [|len IH]; intros s; cbn [seq]; constructor; [apply IH|].
  apply Forall_forall. intros x Hx. apply in_seq in Hx. lia.
Qed.

Lemma enumerate1_sorted {A : Type} (l : list A) :
  StronglySorted lt (map fst (SemanticsLint.enumerate1 l)).
Proof.
  unfold SemanticsLint.enumerate1.
  replace (map fst (combine (seq 1 (List.length l)) l)) with (seq 1 (List.length l));
    [apply seq_sorted|].
  generalize 1 as s. induction l as [|x l IH]; intros s; [reflexivity|].
  cbn [List.length seq combine map fst]. f_equal. apply IH.
Qed.

(** X17.  The hits are listed file by file, in the order in which the
    files are read, and within a file by line, from the first line of the
    file to the last. *)
Theorem lint_hits_ordered (t : SemanticsLint.Tree) (args : list string) :
  exists blocks : list (list SemanticsLint.hit),
    SemanticsLint.lint_hits t args = concat blocks
    /\ Forall2 (fun (pc : string * option string) block =>
                  block = SemanticsLint.scan_file [] pc
                  /\ Forall (fun h : SemanticsLint.hit => fst (fst (fst h)) = fst pc)
                       block
                  /\ StronglySorted le
                       (map (fun h : SemanticsLint.hit => snd (fst (fst h))) block))
         (SemanticsLint.iter_files t (SemanticsLint.find_roots t args)) blocks.
Proof.
  exists (map file_hits (SemanticsLint.iter_files t (SemanticsLint.find_roots t args))).
  split; [rewrite lint_hits_eq; apply flat_map_concat_map|].
  induction (SemanticsLint.iter_files t (SemanticsLint.find_roots t args))
    as [|pc l IH]; cbn [map]; constructor; [|exact IH].
  assert (Hf : file_hits pc = SemanticsLint.scan_file [] pc).
  { destruct pc as [path [text|]]; unfold SemanticsLint.scan_file, file_hits;
      cbn [fst snd]; [|reflexivity].
    symmetry.
    rewrite (fold_left_append _ (line_hits path (lower (SemanticsLint.suffix path))));
      [reflexivity|].
    intros acc1 nl. unfold SemanticsLint.scan_line, line_hits.
    apply fold_left_append. intros acc2 segment.
    unfold SemanticsLint.scan_segment, segment_hits.
    apply fold_left_append. intros acc3 tp.
    destruct (SemanticsLint.found (snd tp) segment); [reflexivity|now rewrite app_nil_r]. }
  split; [exact Hf|].
  destruct pc as [path [text|]]; unfold file_hits; cbn [fst snd];
    [|split; constructor].
  split.
  - apply Forall_forall. intros h Hh. apply in_flat_map in Hh.
    destruct Hh as (nl & _ & Hh).
    pose proof (line_hits_numbered path (lower (SemanticsLint.suffix path)) nl) as Hn.
    rewrite Forall_forall in Hn. exact (proj1 (Hn h Hh)).
  - apply numbered_sorted, enumerate1_sorted.
Qed.

(* ================================================================== *)
(** * The lint by kind of file, the scanner, the pipeline, the prover *)
(* ================================================================== *)

(** ** What is searched on a line *)
















(** ** The verdict of the scanner and the lines of its findings *)

Lemma finding_sound (text table op : string) (pos : nat) :
  In (table, op, pos) (Guardian.ghost_hits text) ->
  In table Guardian.suspicious_tables
  /\ op = substring pos (String.length op) text
  /\ mutation_stmt table op.
Proof.
  rewrite ghost_hits_eq, in_flat_map. intros (table' & Ht & Hin).
  apply in_map_iff in Hin. destruct Hin as (m & E & Hm).
  unfold finding_of in E. injection E as -> <- <-.
  apply filter_In in Hm. destruct Hm as (Hm & _).
  apply finditer_sound in Hm as (pre & suf & pv & n & -> & Hs & L & He & Hg & _).
  destruct (sensitive_table table Ht) as [Hl _].
  destruct (lang_length _ _ _ _ _ L) as (Hn & _). cbn [rest] in Hn.
  apply (mutation_lang_stmt table _ _ _ Hl) in L as [L _]. cbn [rest] in L.
  split; [exact Ht|]. rewrite Hg. split; [|exact L].
  assert (Hlen : String.length (substring 0 n suf) = n).
  { clear - Hn. revert suf Hn. induction n as [|n IH]; intros suf Hn.
    - now destruct suf.
    - destruct suf as [|x suf]; [cbn in Hn; lia|]. cbn. f_equal. apply IH.
      cbn in Hn. lia. }
  rewrite Hlen, Hs.
  replace (String.length pre) with (String.length pre + 0) by lia.
  now rewrite substring_skip.
Qed.

(** C7 (as the code has it).  The scanner ends the run with its failure
    message exactly when a scan target was located, could be read, and
    gave at least one finding.  It then prints the header and one line
    for each of the first 25 findings at most, and each line gives the
    matched text, the table and the character offset of a finding: the
    table is one of the five sensitive tables, and the matched text is a
    mutation statement on that table that stands in the target at that
    offset.  When nothing exists at any of the three fixed places the
    scanner prints the warning and returns.  When what was located cannot
    be read as text, the run stops on the uncaught exception of the read,
    with no finding; so the run fails at this step exactly when a target
    was located and either could not be read or gave a finding. *)
Theorem scan_for_ghost_state_verdict (w : World) (st : state w) :
  let r := Guardian.scan_for_ghost_state w st in
  let printed lines :=
    stdout (st_trace (snd r)) = (stdout (st_trace st) ++ lines)%list in
  let failure :=
    Exit (A := unit)
      (Message "Ghost-state heuristic failed. Ensure mutations emit event+receipt or are derived.") in
  (fst r = failure <->
   (exists p text, located w = Some p /\ files w p = Some text
                   /\ Guardian.ghost_hits text <> []))
  /\ (forall arg, fst r = Exit arg -> fst r = failure)
  /\ ((exists e, fst r = Raise e) <->
      (exists p, located w = Some p /\ files w p = None))
  /\ (exit_code (fst r) <> 0%Z <->
      (exists p, located w = Some p
                 /\ (files w p = None
                     \/ exists text, files w p = Some text
                                     /\ Guardian.ghost_hits text <> [])))
  /\ (located w = None ->
      fst r = Return tt
      /\ printed ["[WARN] kernel.ts not found for ghost-state scan; skipping."])
  /\ (forall p text,
        located w = Some p -> files w p = Some text ->
        let hits := Guardian.ghost_hits text in
        (hits <> [] ->
         fst r = failure
         /\ printed
              ("[FAIL] Possible ghost-state mutations in kernel.ts (heuristic):"
               :: map (fun h : Guardian.finding =>
                         let '(table, op, pos) := h in
                         "  - " ++ op ++ " on " ++ table ++ " at char "
                         ++ str_of_nat pos)
                    (firstn 25 hits))
         /\ List.length (firstn 25 hits) <= 25
         /\ forall table op pos,
              In (table, op, pos) hits ->
              In table ["budgets"; "policies"; "agents"; "users"; "agent_tokens"]
              /\ op = substring pos (String.length op) text
              /\ mutation_stmt table op)
        /\ (hits = [] ->
            fst r = Return tt
            /\ printed ["[OK] Ghost-state heuristic passed (no obvious unlogged mutations)."])).
Proof.
  intros r printed failure. subst r printed failure.
  destruct (scan_for_ghost_state_eq w) as (probes & Hp & Heq).
  rewrite (Heq st). cbn [fst snd]. unfold extend. cbn [st_trace].
  rewrite !stdout_app, (stdout_probes w probes Hp). cbn [app].
  unfold scan_verdict.
  destruct (located w) as [p|] eqn:El.
  - destruct (files w p) as [text|] eqn:Ef.
    + destruct (Guardian.ghost_hits text) as [|h hits] eqn:E; cbn [fst snd].
      * split; [|split; [|split; [|split; [|split]]]].
        -- split; [intros H; discriminate|].
           intros (p' & text' & Hl & Hf & Hh). congruence.
        -- intros arg H. discriminate H.
        -- split; [intros [e H]; discriminate|].
           intros (p' & Hl & Hf). congruence.
        -- cbn [exit_code]. split; [intros H; now exfalso|].
           intros (p' & Hl & [Hf|(text' & Hf & Hh)]); congruence.
        -- intros H; discriminate H.
        -- intros p' text' Hl Hf.
           assert (text' = text) by congruence. subst text'. rewrite E.
           cbn zeta. split; [congruence|]. intros _. split; reflexivity.
      * split; [|split; [|split; [|split; [|split]]]].
        -- split; [|reflexivity]. intros _. exists p, text. rewrite E.
           split; [reflexivity|split; [exact Ef|discriminate]].
        -- intros arg _. reflexivity.
        -- split; [intros [e H]; discriminate|].
           intros (p' & Hl & Hf). congruence.
        -- cbn [exit_code]. split; [|intros _; discriminate]. intros _.
           exists p. split; [reflexivity|]. right. exists text. rewrite E.
           split; [exact Ef|discriminate].
        -- intros H; discriminate H.
        -- intros p' text' Hl Hf.
           assert (text' = text) by congruence. subst text'. rewrite E.
           cbn zeta. split; [|discriminate]. intros _.
           split; [reflexivity|]. split; [|split; [apply firstn_25_length|]].
           ++ cbn [stdout]. rewrite (stdout_prints Guardian.finding_line). reflexivity.
           ++ intros table op pos Hin. rewrite <- E in Hin.
              exact (finding_sound text table op pos Hin).
    + cbn [fst snd]. split; [|split; [|split; [|split; [|split]]]].
      * split; [intros H; discriminate|].
        intros (p' & text' & Hl & Hf & _). congruence.
      * intros arg H. discriminate H.
      * split; [|eauto]. intros _. exists p. auto.
      * cbn [exit_code]. split; [|intros _; discriminate]. intros _. exists p. auto.
      * intros H; discriminate H.
      * intros p' text' Hl Hf. congruence.
  - cbn [fst snd]. split; [|split; [|split; [|split; [|split]]]].
    + split; [intros H; discriminate|].
      intros (p' & text' & Hl & _). discriminate.
    + intros arg H. discriminate H.
    + split; [intros [e H]; discriminate|]. intros (p' & Hl & _). discriminate.
    + cbn [exit_code]. split; [intros H; now exfalso|]. intros (p' & Hl & _). discriminate.
    + intros _. split; reflexivity.
    + intros p' text' Hl. discriminate.
Qed.

(** A kernel with an insert into budgets and no audit entry near it: the
    run ends with the failure message after the header and one line. *)
Lemma scan_for_ghost_state_verdict_witness :
  located Examples.ghostly = Some "/repo/kernel.ts"
  /\ files Examples.ghostly "/repo/kernel.ts" = Some Examples.kernel_unlogged
  /\ Guardian.ghost_hits Examples.kernel_unlogged
     = [("budgets", "INSERT INTO budgets", 14)]
  /\ fst (Guardian.scan_for_ghost_state Examples.ghostly (start Examples.ghostly))
     = Exit (Message "Ghost-state heuristic failed. Ensure mutations emit event+receipt or are derived.")
  /\ stdout (st_trace (snd (Guardian.scan_for_ghost_state Examples.ghostly
                              (start Examples.ghostly))))
     = ["[FAIL] Possible ghost-state mutations in kernel.ts (heuristic):";
        "  - INSERT INTO budgets on budgets at char 14"].
Proof.
  split; [reflexivity|]. split; [reflexivity|].
  assert (E : Guardian.ghost_hits Examples.kernel_unlogged
              = [("budgets", "INSERT INTO budgets", 14)]) by (vm_compute; reflexivity).
  split; [exact E|].
  assert (H : Guardian.ghost_hits Examples.kernel_unlogged <> [])
    by (rewrite E; discriminate).
  destruct (proj1 (proj2 (proj2 (proj2 (proj2 (proj2
              (scan_for_ghost_state_verdict Examples.ghostly (start Examples.ghostly))))))
              "/repo/kernel.ts" Examples.kernel_unlogged eq_refl eq_refl) H)
    as (Hf & Hp & _).
  split; [exact Hf|]. rewrite Hp, E. reflexivity.
Defined.

(** C7 (as stated) fails: in a repository where a directory is named
    [kernel.ts] the scan target is located and no finding is produced,
    since nothing can be read; yet the run fails, on the uncaught
    exception of the read, with exit status 1 and without the header or
    any line of a finding. *)
Lemma unreadable_target_fails_without_finding :
  let w := Worlds.kernel_is_directory in
  let r := Guardian.scan_for_ghost_state w (start w) in
  located w = Some "/repo/kernel.ts"
  /\ files w "/repo/kernel.ts" = None
  /\ fst r = Raise (OtherError "cannot read /repo/kernel.ts")
  /\ stdout (st_trace (snd r)) = []
  /\ fst (Guardian.run_main w) = Raise (OtherError "cannot read /repo/kernel.ts")
  /\ exit_code (fst (Guardian.run_main w)) = 1%Z
  /\ ~ (exit_code (fst (Guardian.run_main w)) <> 0%Z <->
        (exists p text, located w = Some p /\ files w p = Some text
                        /\ Guardian.ghost_hits text <> [])).
Proof.
  cbv zeta.
  assert (L : located Worlds.kernel_is_directory = Some "/repo/kernel.ts")
    by reflexivity.
  assert (R : fst (Guardian.run_main Worlds.kernel_is_directory)
              = Raise (OtherError "cannot read /repo/kernel.ts"))
    by (vm_compute; reflexivity).
  split; [exact L|]. split; [reflexivity|].
  split; [vm_compute; reflexivity|]. split; [vm_compute; reflexivity|].
  split; [exact R|]. split; [rewrite R; reflexivity|].
  intros [H _]. rewrite R in H.
  destruct H as (p & text & Hl & Hf & _); [cbn; discriminate|].
  rewrite L in Hl. injection Hl as <-. discriminate Hf.
Qed.

(** ** The five stages of a run *)

(** One call of a sequence, by cases on how it ends. *)
Ltac run_call :=
  match goal with
  | |- context [match ?x with pair _ _ => _ end] =>
      lazymatch x with
      | context [match _ with pair _ _ => _ end] => fail
      | _ => first [ is_var x; destruct x
                   | let o := fresh "o" in let st := fresh "st" in
                     destruct x as [o st]; destruct o as [?|?|?] ]
      end
  end.

Lemma main_stages (w : World) (st : state w) :
  Guardian.main w st =
  (load_stage w ;;; verify_stage w ;;;
   ids <- seed_stage w ;; prove_stage w (fst ids) (snd ids) ;;; scan_stage w) st.
Proof.
  unfold Guardian.main, load_stage, verify_stage, seed_stage, prove_stage,
    scan_stage, Guardian.with_connection, in_connection, bind,
    print, emit, ret, system_exit, raise.
  cbv beta iota.
  repeat (run_call; cbv beta iota delta [fst snd]; try reflexivity).
Qed.

Lemma rank_inj (s s' : stage) : rank s = rank s' -> s = s'.
Proof. destruct s, s'; simpl; intros H; try reflexivity; discriminate H. Qed.

Lemma in_stages (a : action) (s : stage) (d : list action) :
  In a d -> stage_of a = Some s -> In (rank s) (stages d).
Proof.
  induction d as [|x d IH]; simpl; [tauto|]. intros [->|Hin] Hs.
  - rewrite Hs. now left.
  - destruct (stage_of x); [right|]; now apply IH.
Qed.

Lemma stages_in (n : nat) (d : list action) :
  In n (stages d) -> exists a s, In a d /\ stage_of a = Some s /\ rank s = n.
Proof.
  induction d as [|x d IH]; simpl; [tauto|].
  destruct (stage_of x) as [s|] eqn:E.
  - intros [<-|Hin].
    + exists x, s. auto.
    + destruct (IH Hin) as (a & s' & Ha & Hs & Hr). exists a, s'. auto.
  - intros Hin. destruct (IH Hin) as (a & s' & Ha & Hs & Hr). exists a, s'. auto.
Qed.

(** What is known of a stage, from what is known of its calls. *)
Lemma staged_shaped {w : World} {A : Type} (m : M w A) (script : list stmt)
  (s : stage) (lines : list string) (R : A -> Prop) :
  triple m (shaped script (rank s) (rank s) lines R) -> triple m (staged s).
Proof.
  intros H st. destruct (H st) as (o & c' & d & E & _ & B & P).
  exists o, c', d. split; [exact E|]. split; [exact B|].
  intros arg ->. destruct P as (_ & s' & Fs & Hs & _).
  rewrite Fs. f_equal. apply rank_inj. lia.
Qed.

Lemma staged_bind {w : World} {A B : Type} (m : M w A) (k : A -> M w B)
  (s : stage) :
  triple m (staged s) -> (forall a, triple (k a) (staged s)) ->
  triple (bind m k) (staged s).
Proof.
  intros Hm Hk st. destruct (Hm st) as (o & c1 & d1 & E1 & B1 & F1).
  rewrite bind_eq, E1. destruct o as [a|arg|e].
  - destruct (Hk a (MkState c1 (st_trace st ++ d1))) as (o2 & c2 & d2 & E2 & B2 & F2).
    exists o2, c2, (d1 ++ d2)%list. cbn [st_trace] in E2.
    rewrite E2, app_assoc. split; [reflexivity|].
    split; [apply bounded_app; assumption|exact F2].
  - exists (Exit arg), c1, d1. split; [reflexivity|]. split; [exact B1|].
    intros arg' H. injection H as <-. now apply F1.
  - exists (Raise e), c1, d1. split; [reflexivity|]. split; [exact B1|].
    intros arg' H. discriminate H.
Qed.

Lemma staged_free {w : World} (a : action) (s : stage) :
  stage_of a = None -> triple (w := w) (emit a) (staged s).
Proof.
  intros Ha st. exists (Return tt), (st_conn st), [a]. split; [reflexivity|].
  split; [unfold bounded; simpl; rewrite Ha; constructor|].
  intros arg H. discriminate H.
Qed.

Lemma staged_ret {w : World} {A : Type} (a : A) (s : stage) :
  triple (w := w) (ret a) (staged s).
Proof.
  intros st. exists (Return a), (st_conn st), [].
  rewrite app_nil_r. split; [now destruct st|].
  split; [constructor|]. intros arg H. discriminate H.
Qed.

Lemma staged_in_connection {w : World} {A : Type} (body : M w A) (s : stage) :
  triple body (staged s) -> triple (in_connection body) (staged s).
Proof.
  intros H st. destruct (H st) as (o & c' & d & E & B & F).
  assert (Br : bounded (rank s) (rank s) (d ++ [Rollback])).
  { apply bounded_app; [exact B|constructor]. }
  unfold in_connection. rewrite E. destruct o as [a|arg|e].
  - exists (Return a), c', d. split; [reflexivity|]. split; [exact B|].
    intros arg H'. discriminate H'.
  - exists (Exit arg), c', (d ++ [Rollback])%list.
    split; [unfold bind, emit, system_exit; cbn [st_conn st_trace];
            now rewrite <- app_assoc|].
    split; [exact Br|exact F].
  - exists (Raise e), c', (d ++ [Rollback])%list.
    split; [unfold bind, emit, raise; cbn [st_conn st_trace];
            now rewrite <- app_assoc|].
    split; [exact Br|]. intros arg H'. discriminate H'.
Qed.

Lemma staged_load (w : World) : triple (load_stage w) (staged StLoad).
Proof.
  unfold load_stage.
  apply staged_bind; [apply staged_free; reflexivity|]. intros _.
  apply staged_bind; [exact (staged_shaped _ _ StLoad _ _ (shaped_find w))|].
  intros sql_files. apply staged_in_connection.
  apply staged_bind;
    [apply (staged_shaped _ _ StLoad _ _ (shaped_emit_staged Connect StLoad
              eq_refl eq_refl eq_refl))|].
  intros _. apply staged_bind;
    [apply (staged_shaped _ _ StLoad _ _
              (shaped_execute "PRAGMA foreign_keys = ON" [] StLoad eq_refl))|].
  intros _. exact (staged_shaped _ _ StLoad _ _ (shaped_apply w sql_files)).
Qed.

Lemma staged_verify (w : World) : triple (verify_stage w) (staged StVerify).
Proof.
  unfold verify_stage. apply staged_in_connection.
  apply staged_bind;
    [exact (staged_shaped _ _ StVerify _ _ (shaped_require w "events" eq_refl))|].
  intros _.
  exact (staged_shaped _ _ StVerify _ _ (shaped_require w "receipts" eq_refl)).
Qed.

Lemma staged_execute (w : World) (sql : string) (params : list value) (s : stage) :
  stage_of_sql sql = Some s -> triple (db_execute_ w sql params) (staged s).
Proof.
  intros H. exact (staged_shaped _ _ s _ _ (shaped_execute sql params s H)).
Qed.

Lemma staged_seed (w : World) : triple (seed_stage w) (staged StSeed).
Proof.
  unfold seed_stage. apply staged_in_connection.
  apply staged_bind;
    [exact (staged_shaped _ _ StSeed _ _ (shaped_seed_actor w))|].
  intros [[user agent] now].
  apply staged_bind.
  { unfold Guardian.insert_event.
    apply staged_bind; [apply staged_execute; reflexivity|].
    intros _. apply staged_ret. }
  intros event. apply staged_bind.
  { unfold Guardian.insert_receipt.
    apply staged_bind; [apply staged_execute; reflexivity|].
    intros _. apply staged_ret. }
  intros receipt. apply staged_ret.
Qed.

Lemma staged_prove (w : World) (event receipt : string) :
  triple (prove_stage w event receipt) (staged StProve).
Proof.
  unfold prove_stage.
  apply staged_bind; [|intros _; apply staged_free; reflexivity].
  apply staged_in_connection.
  apply staged_bind.
  - exact (staged_shaped _ _ StProve _ _
             (shaped_prove w "events" "event_id" event "type"
                eq_refl eq_refl eq_refl eq_refl)).
  - intros _.
    exact (staged_shaped _ _ StProve _ _
             (shaped_prove w "receipts" "receipt_id" receipt "what_happened"
                eq_refl eq_refl eq_refl eq_refl)).
Qed.

Lemma staged_scan (w : World) : triple (scan_stage w) (staged StScan).
Proof.
  unfold scan_stage.
  apply staged_bind; [exact (staged_shaped _ _ StScan _ _ (shaped_scan w))|].
  intros _. apply staged_free. reflexivity.
Qed.

(** Calls add to the trace and take nothing from it. *)
Lemma grows_triple {w : World} {A : Type} (m : M w A)
  (P : outcome A -> list action -> Prop) : triple m P -> grows m.
Proof.
  intros H st. destruct (H st) as (o & c' & d & E & _). exists d. now rewrite E.
Qed.

Lemma grows_bind {w : World} {A B : Type} (m : M w A) (k : A -> M w B) :
  grows m -> (forall a, grows (k a)) -> grows (bind m k).
Proof.
  intros Hm Hk st. destruct (Hm st) as (d1 & E1). rewrite bind_eq.
  destruct (m st) as [[a|arg|e] st1]; cbn [snd] in E1 |- *;
    try (exists d1; exact E1).
  destruct (Hk a st1) as (d2 & E2). exists (d1 ++ d2)%list.
  now rewrite E2, E1, app_assoc.
Qed.

Lemma grows_emit {w : World} (a : action) : grows (w := w) (emit a).
Proof. intros st. exists [a]. reflexivity. Qed.

Lemma grows_ret {w : World} {A : Type} (a : A) : grows (w := w) (ret a).
Proof. intros st. exists []. cbn. now rewrite app_nil_r. Qed.

Lemma grows_exit {w : World} {A : Type} (arg : exit_arg) :
  grows (w := w) (system_exit (A := A) arg).
Proof. intros st. exists []. cbn. now rewrite app_nil_r. Qed.

Lemma grows_raise {w : World} {A : Type} (e : exn) :
  grows (w := w) (raise (A := A) e).
Proof. intros st. exists []. cbn. now rewrite app_nil_r. Qed.

Lemma grows_for_each {w : World} {A : Type} (l : list A) (body : A -> M w unit) :
  (forall x, grows (body x)) -> grows (for_each l body).
Proof.
  intros H. induction l as [|x l IH]; cbn [for_each]; [apply grows_ret|].
  apply grows_bind; [apply H|intros _; exact IH].
Qed.

Lemma grows_path_exists (w : World) (p : string) : grows (path_exists w p).
Proof.
  unfold path_exists. apply grows_bind; [apply grows_emit|].
  intros _. apply grows_ret.
Qed.

Lemma grows_for_fold {w : World} {A B : Type} (l : list A)
  (body : B -> A -> M w B) :
  (forall acc x, grows (body acc x)) -> forall acc, grows (for_fold l acc body).
Proof.
  intros H. induction l as [|x l IH]; intros acc; cbn [for_fold];
    [apply grows_ret|].
  apply grows_bind; [apply H|intros acc'; apply IH].
Qed.

(** The first action of a call stays in the trace of what follows. *)
Lemma occurs_bind {w : World} {A B : Type} (a : action) (m : M w A)
  (k : A -> M w B) :
  occurs a m -> (forall x, grows (k x)) -> occurs a (bind m k).
Proof.
  intros Hm Hk st. destruct (Hm st) as (d1 & E1 & Hin). rewrite bind_eq.
  destruct (m st) as [[x|arg|e] st1]; cbn [snd] in E1 |- *;
    try (exists d1; split; [exact E1|exact Hin]).
  destruct (Hk x st1) as (d2 & E2). exists (d1 ++ d2)%list.
  rewrite E2, E1, app_assoc. split; [reflexivity|].
  apply in_or_app. now left.
Qed.

Lemma occurs_emit {w : World} (a : action) : occurs (w := w) a (emit a).
Proof. intros st. exists [a]. split; [reflexivity|now left]. Qed.

Lemma occurs_after_print {w : World} {A : Type} (a : action) (line : string)
  (m : M w A) : occurs a m -> occurs a (print line ;;; m).
Proof.
  intros H st. rewrite bind_eq, print_eq.
  destruct (H (extend st [PrintLine line])) as (d & E & Hin).
  exists (PrintLine line :: d). rewrite E. cbn [extend st_trace].
  rewrite <- app_assoc. split; [reflexivity|now right].
Qed.

Lemma occurs_in_connection {w : World} {A : Type} (a : action) (body : M w A) :
  occurs a body -> occurs a (in_connection body).
Proof.
  intros H st. destruct (H st) as (d & E & Hin). unfold in_connection.
  destruct (body st) as [[x|arg|e] st1]; cbn [snd] in E |- *.
  - exists d. auto.
  - exists (d ++ [Rollback])%list. unfold bind, emit, system_exit.
    cbn [snd st_trace]. rewrite E, app_assoc.
    split; [reflexivity|apply in_or_app; now left].
  - exists (d ++ [Rollback])%list. unfold bind, emit, raise.
    cbn [snd st_trace]. rewrite E, app_assoc.
    split; [reflexivity|apply in_or_app; now left].
Qed.

Lemma occurs_path_exists (w : World) (p : string) :
  occurs (PathExists p) (path_exists w p).
Proof.
  unfold path_exists. apply occurs_bind; [apply occurs_emit|].
  intros _. apply grows_ret.
Qed.

Lemma occurs_execute (w : World) (sql : string) (params : list value) :
  occurs (Execute sql params) (db_execute w sql params).
Proof.
  intros st. unfold db_execute.
  destruct (execute (db w) (st_conn st) sql params) as [c' r].
  exists [Execute sql params]. split; [reflexivity|now left].
Qed.

Lemma occurs_execute_ (w : World) (sql : string) (params : list value) :
  occurs (Execute sql params) (db_execute_ w sql params).
Proof.
  unfold db_execute_. apply occurs_bind; [apply occurs_execute|].
  intros [rows|e]; [apply grows_ret|apply grows_raise].
Qed.

Lemma grows_occurs {w : World} {A : Type} (a : action) (m : M w A) :
  occurs a m -> grows m.
Proof. intros H st. destruct (H st) as (d & E & _). now exists d. Qed.

(** Each stage begins with an action of its own. *)
Lemma occurs_load (w : World) :
  occurs (PathExists (path_join (repo_root w) "migrations")) (load_stage w).
Proof.
  unfold load_stage. apply occurs_after_print. apply occurs_bind.
  - unfold Guardian.find_sql_migrations. apply occurs_bind.
    + unfold Guardian.candidates.
      match goal with
      | |- occurs ?a (for_fold (?c :: ?l) ?acc ?body) =>
          change (occurs a (bind (body acc c) (fun acc' => for_fold l acc' body)))
      end.
      apply occurs_bind.
      * apply occurs_bind; [apply occurs_path_exists|].
        intros [|]; [|apply grows_ret].
        apply grows_bind; [|intros found; apply grows_ret].
        unfold Guardian.glob_sql.
        apply grows_bind; [apply grows_emit|intros _; apply grows_ret].
      * intros acc. apply grows_for_fold. intros acc' c.
        apply grows_bind; [apply grows_path_exists|].
        intros [|]; [|apply grows_ret].
        apply grows_bind; [|intros found; apply grows_ret].
        unfold Guardian.glob_sql.
        apply grows_bind; [apply grows_emit|intros _; apply grows_ret].
    + intros [|f l]; [apply grows_exit|apply grows_ret].
  - intros sql_files. eapply grows_triple. apply (staged_in_connection _ StLoad).
    apply staged_bind;
      [apply (staged_shaped _ _ StLoad _ _ (shaped_emit_staged Connect StLoad
                eq_refl eq_refl eq_refl))|].
    intros _. apply staged_bind;
      [apply (staged_shaped _ _ StLoad _ _
                (shaped_execute "PRAGMA foreign_keys = ON" [] StLoad eq_refl))|].
    intros _. exact (staged_shaped _ _ StLoad _ _ (shaped_apply w sql_files)).
Qed.

Lemma occurs_verify (w : World) :
  occurs (Execute "SELECT name, sql FROM sqlite_master WHERE type='trigger' AND tbl_name=?"
            [VText "events"]) (verify_stage w).
Proof.
  unfold verify_stage. apply occurs_in_connection. apply occurs_bind.
  - unfold Guardian.require_immutable_table. apply occurs_bind.
    + apply occurs_execute_.
    + intros triggers. destruct (Guardian.trigger_sqls triggers) as [sqls|e];
        [|apply grows_raise].
      cbv zeta. match goal with |- context [if ?b then _ else _] => destruct b end;
        [apply grows_exit|apply grows_emit].
  - intros _. exact (grows_triple _ _ (shaped_require w "receipts" eq_refl)).
Qed.

Lemma occurs_seed (w : World) : occurs Clock (seed_stage w).
Proof.
  unfold seed_stage. apply occurs_in_connection. apply occurs_bind.
  - unfold Guardian.seed_actor. apply occurs_bind; [apply occurs_emit|].
    intros _. cbv zeta.
    apply grows_bind; [(eapply grows_occurs; apply occurs_execute_)|].
    intros _.
    apply grows_bind; [(eapply grows_occurs; apply occurs_execute_)|].
    intros _. apply grows_ret.
  - intros [[user agent] now].
    apply grows_bind.
    { unfold Guardian.insert_event. cbv zeta.
      apply grows_bind; [|intros _; apply grows_ret].
      (eapply grows_occurs; apply occurs_execute_). }
    intros event. apply grows_bind; [|intros receipt; apply grows_ret].
    unfold Guardian.insert_receipt. cbv zeta.
    apply grows_bind; [|intros _; apply grows_ret].
    (eapply grows_occurs; apply occurs_execute_).
Qed.

Lemma occurs_prove (w : World) (event receipt : string) :
  occurs (Execute "UPDATE events SET type = type WHERE event_id = ?" [VText event])
    (prove_stage w event receipt).
Proof.
  unfold prove_stage. apply occurs_bind; [|intros _; apply grows_emit].
  apply occurs_in_connection. apply occurs_bind.
  - unfold Guardian.prove_immutable_by_writes. apply occurs_bind.
    + unfold Guardian.assert_blocked. apply occurs_bind.
      * exact (occurs_execute w _ [VText event]).
      * intros [rows|[msg|msg]];
          [apply grows_exit|apply grows_emit|apply grows_raise].
    + intros _. unfold Guardian.assert_blocked. apply grows_bind.
      * eapply grows_occurs. apply occurs_execute.
      * intros [rows|[msg|msg]];
          [apply grows_exit|apply grows_emit|apply grows_raise].
  - intros _.
    exact (grows_triple _ _
             (shaped_prove w "receipts" "receipt_id" receipt "what_happened"
                eq_refl eq_refl eq_refl eq_refl)).
Qed.

Lemma occurs_scan (w : World) :
  occurs (PathExists (path_join (repo_root w) "kernel.ts")) (scan_stage w).
Proof.
  unfold scan_stage. apply occurs_bind; [|intros _; apply grows_emit].
  unfold Guardian.scan_for_ghost_state. cbv zeta.
  apply occurs_bind; [apply occurs_path_exists|].
  intros e. apply grows_bind.
  - destruct e; [apply grows_ret|].
    apply grows_bind; [apply grows_path_exists|].
    intros [|]; [apply grows_ret|].
    apply grows_bind; [apply grows_path_exists|intros e2; apply grows_ret].
  - intros p. apply grows_bind; [apply grows_path_exists|].
    intros [|]; cbn [negb]; [|apply grows_emit].
    apply grows_bind.
    + unfold Guardian.read_text. apply grows_bind; [apply grows_emit|].
      intros _. destruct (files w p); [apply grows_ret|apply grows_raise].
    + intros text. destruct (Guardian.ghost_hits text) as [|h hits];
        [apply grows_emit|].
      apply grows_bind; [apply grows_emit|]. intros _.
      apply grows_bind; [|intros _; apply grows_exit].
      apply grows_for_each. intros x. apply grows_emit.
Qed.

(** ** The machine of the specification and the run *)

Lemma at_step_S (w : World) (n : nat) : at_step w (S n) = next w (at_step w n).
Proof. reflexivity. Qed.

Lemma machine_is_main (w : World) :
  at_step w 5 =
  (final (fst (Guardian.main w (start w))), snd (Guardian.main w (start w))).
Proof.
  rewrite main_stages.
  change (at_step w 5)
    with (next w (next w (next w (next w (next w (AtLoad, start w)))))).
  unfold next at 5. cbn [fst snd]. unfold transition at 1. rewrite bind_eq.
  destruct (load_stage w (start w)) as [[[]|arg|e] st1]; [|reflexivity|reflexivity].
  unfold next at 4. cbn [fst snd]. unfold transition at 1. rewrite bind_eq.
  destruct (verify_stage w st1) as [[[]|arg|e] st2]; [|reflexivity|reflexivity].
  unfold next at 3. cbn [fst snd]. unfold transition at 1. rewrite bind_eq.
  destruct (seed_stage w st2) as [[ids|arg|e] st3]; [|reflexivity|reflexivity].
  unfold next at 2. cbn [fst snd]. unfold transition at 1. rewrite bind_eq.
  destruct (prove_stage w (fst ids) (snd ids) st3) as [[[]|arg|e] st4];
    [|reflexivity|reflexivity].
  unfold next. cbn [fst snd]. unfold transition.
  destruct (scan_stage w st4) as [[[]|arg|e] st5]; reflexivity.
Qed.

(** One transition out of a stage. *)
Lemma transition_stage {w : World} {A : Type} (m : M w A) (k : A -> phase)
  (s : stage) (a : action) (st : state w) :
  triple m (staged s) -> occurs a m -> stage_of a = Some s ->
  exists d,
    st_trace (snd (transition m k st)) = (st_trace st ++ d)%list
    /\ In (rank s) (stages d)
    /\ bounded (rank s) (rank s) d
    /\ ((exists x, fst (transition m k st) = k x)
        \/ (exists arg, fst (transition m k st) = Failed (Exited arg)
                        /\ failing_stage arg = Some s)
        \/ (exists e, fst (transition m k st) = Failed (Stopped e))).
Proof.
  intros Hm Ho Hs. destruct (Hm st) as (o & c' & d & E & B & F).
  destruct (Ho st) as (d' & E' & Hin). rewrite E in E'. cbn [snd st_trace] in E'.
  apply app_inv_head in E'. subst d'.
  exists d. unfold transition. rewrite E.
  assert (Hr : In (rank s) (stages d)) by exact (in_stages a s d Hin Hs).
  destruct o as [x|arg|e]; cbn [fst snd st_trace];
    (split; [reflexivity|]); (split; [exact Hr|]); (split; [exact B|]).
  - left. now exists x.
  - right. left. exists arg. split; [reflexivity|]. now apply F.
  - right. right. now exists e.
Qed.

Lemma next_stage (w : World) (ph : phase) (st : state w) (s : stage) :
  stage_at ph = Some s ->
  exists d,
    st_trace (snd (next w (ph, st))) = (st_trace st ++ d)%list
    /\ In (rank s) (stages d)
    /\ bounded (rank s) (rank s) d
    /\ follows ph (fst (next w (ph, st)))
    /\ (forall arg, fst (next w (ph, st)) = Failed (Exited arg) ->
        failing_stage arg = Some s).
Proof.
  intros Hs.
  assert (K : forall (A : Type) (m : M w A) (k : A -> phase) (a : action),
            triple m (staged s) -> occurs a m -> stage_of a = Some s ->
            (forall x, follows ph (k x)) ->
            (forall x f, k x <> Failed f) ->
            exists d,
              st_trace (snd (transition m k st)) = (st_trace st ++ d)%list
              /\ In (rank s) (stages d)
              /\ bounded (rank s) (rank s) d
              /\ follows ph (fst (transition m k st))
              /\ (forall arg, fst (transition m k st) = Failed (Exited arg) ->
                  failing_stage arg = Some s)).
  { intros A m k a Hm Ho Ha Hk Hn.
    destruct (transition_stage m k s a st Hm Ho Ha) as (d & E & Hin & B & H).
    exists d. split; [exact E|]. split; [exact Hin|]. split; [exact B|].
    destruct H as [[x ->]|[(arg & -> & Fa)|[e ->]]].
    - split; [apply Hk|]. intros arg H. now apply Hn in H.
    - split; [now apply (stage_failed ph s)|].
      intros arg' H. injection H as <-. exact Fa.
    - split; [now apply (stage_failed ph s)|]. intros arg' H. discriminate H. }
  destruct ph as [| | |event receipt| | |f]; try discriminate Hs;
    injection Hs as <-; unfold next; cbn [fst snd].
  - apply (K _ _ _ (PathExists (path_join (repo_root w) "migrations")));
      [apply staged_load|apply occurs_load| |constructor|discriminate].
    cbn [stage_of]. now rewrite migrations_not_kernel.
  - eapply K; [apply staged_verify|apply occurs_verify|reflexivity
              |constructor|discriminate].
  - eapply K; [apply staged_seed|apply occurs_seed|reflexivity
              |constructor|discriminate].
  - eapply K; [apply staged_prove|apply occurs_prove|reflexivity
              |constructor|discriminate].
  - apply (K _ _ _ (PathExists (path_join (repo_root w) "kernel.ts")));
      [apply staged_scan|apply occurs_scan| |constructor|discriminate].
    cbn [stage_of]. now rewrite kernel_is_kernel.
Qed.

Lemma next_terminal (w : World) (ph : phase) (st : state w) :
  stage_at ph = None -> next w (ph, st) = (ph, st).
Proof. destruct ph; try discriminate; reflexivity. Qed.

Lemma at_step_stable (w : World) (n m : nat) :
  stage_at (fst (at_step w n)) = None -> at_step w (n + m) = at_step w n.
Proof.
  intros H. induction m as [|m IH]; [now rewrite Nat.add_0_r|].
  rewrite Nat.add_succ_r, at_step_S, IH.
  destruct (at_step w n) as [ph st]. now apply next_terminal.
Qed.

Lemma follows_next (ph ph' : phase) (s : stage) :
  stage_at ph = Some s -> follows ph ph' ->
  (exists f, ph' = Failed f)
  \/ (ph' = Passed /\ s = StScan)
  \/ (exists s', stage_at ph' = Some s' /\ rank s' = S (rank s)).
Proof.
  intros Hs H. inversion H; subst; cbn in Hs; try injection Hs as <-.
  - right. right. now exists StVerify.
  - right. right. now exists StSeed.
  - right. right. now exists StProve.
  - right. right. now exists StScan.
  - right. left. auto.
  - left. now exists f.
Qed.

Lemma stage_only (s : stage) (d : list action) (r : nat) :
  bounded (rank s) (rank s) d -> In (rank s) (stages d) ->
  (In r (stages d) <-> r = rank s).
Proof.
  intros B Hin. split; [|now intros ->].
  intros H. unfold bounded in B. rewrite Forall_forall in B.
  specialize (B r H). lia.
Qed.

(** The stages in the trace after [n] transitions: before a stage, the
    stages before it; after the last one, all five; after a failure, the
    stages up to the one that failed. *)
Lemma path_stages (w : World) (n : nat) :
  match stage_at (fst (at_step w n)) with
  | Some s =>
      n = rank s
      /\ forall s', In (rank s') (stages (st_trace (snd (at_step w n))))
                    <-> rank s' < rank s
  | None =>
      (fst (at_step w n) = Passed
       /\ forall s, In (rank s) (stages (st_trace (snd (at_step w n)))))
      \/ (exists f s ph st,
            fst (at_step w n) = Failed f
            /\ at_step w (rank s) = (ph, st)
            /\ stage_at ph = Some s
            /\ next w (ph, st) = at_step w n
            /\ (forall s', In (rank s') (stages (st_trace (snd (at_step w n))))
                           <-> rank s' <= rank s)
            /\ (forall arg, f = Exited arg -> failing_stage arg = Some s))
  end.
Proof.
  induction n as [|n IH].
  - cbn. split; [reflexivity|]. intros s'. split; [tauto|lia].
  - rewrite at_step_S. destruct (at_step w n) as [ph st] eqn:E.
    cbn [fst snd] in IH. destruct (stage_at ph) as [s|] eqn:Hs.
    + destruct IH as (Hn & Hlt).
      destruct (next_stage w ph st s Hs) as (d & Et & Hin & B & Fo & Fa).
      assert (Hst : at_step w (rank s) = (ph, st)) by (now rewrite <- Hn).
      assert (Hle : forall s', In (rank s')
                      (stages (st_trace (snd (next w (ph, st)))))
                    <-> rank s' <= rank s).
      { intros s'. rewrite Et, stages_app, in_app_iff, Hlt,
          (stage_only s d _ B Hin). lia. }
      destruct (follows_next _ _ s Hs Fo) as [[f Hf]|[[Hp Hsc]|(s2 & Hs2 & Hr)]].
      * rewrite Hf. cbn [stage_at]. right. exists f, s, ph, st.
        split; [reflexivity|]. split; [exact Hst|]. split; [exact Hs|].
        split; [reflexivity|]. split; [exact Hle|].
        intros arg ->. now apply Fa.
      * rewrite Hp. cbn [stage_at]. left. split; [reflexivity|].
        intros s'. apply Hle. subst s. destruct s'; simpl; lia.
      * rewrite Hs2. split; [lia|]. intros s'. rewrite Hle. lia.
    + rewrite (next_terminal w ph st Hs). cbn [fst snd]. rewrite Hs.
      destruct IH as [IH|(f & s & ph0 & st0 & H1 & H2 & H3 & H4 & H5)];
        [left; exact IH|].
      right. exists f, s, ph0, st0. auto.
Qed.

Lemma run_main_eq (w : World) :
  Guardian.run_main w =
  (fst (Guardian.main w (start w)), st_trace (snd (Guardian.main w (start w)))).
Proof. unfold Guardian.run_main. now destruct (Guardian.main w (start w)). Qed.

Lemma final_terminal (o : outcome unit) : stage_at (final o) = None.
Proof. now destruct o. Qed.

(** A run that does not return has failed at one stage: the machine was
    there after as many transitions as the rank of the stage, the stages
    in the trace are those up to it, and a message it exits with is one of
    that stage. *)
Lemma failed_at_stage (w : World) :
  fst (Guardian.run_main w) <> Return tt ->
  exists s ph st,
    at_step w (rank s) = (ph, st)
    /\ stage_at ph = Some s
    /\ next w (ph, st) = at_step w 5
    /\ (forall s', In (rank s') (stages (snd (Guardian.run_main w)))
                   <-> rank s' <= rank s)
    /\ (forall arg, fst (Guardian.run_main w) = Exit arg ->
        failing_stage arg = Some s).
Proof.
  rewrite run_main_eq. cbn [fst snd]. intros Ho.
  pose proof (path_stages w 5) as P5. rewrite machine_is_main in P5.
  cbn [fst snd] in P5. rewrite final_terminal in P5.
  destruct P5 as [[Hp _]|(f & s & ph & st & Hf & H1 & H2 & H3 & H4 & H5)].
  - destruct (fst (Guardian.main w (start w))) as [[]|arg|e];
      [now elim Ho|discriminate Hp|discriminate Hp].
  - exists s, ph, st. rewrite machine_is_main. repeat (split; [assumption|]).
    intros arg Ha. apply H5. rewrite Ha in Hf. now injection Hf as <-.
Qed.

(** C8.  A run is five transitions of the machine of the specification,
    from Load on: each stage runs from the state the stage before it left
    and moves to the next stage, the last one to Passed, and a stage that
    stops, with an exit or with an exception nothing catches, moves to
    Failed, where the run ends with what stopped it and a status that is
    not zero.  A transition out of a stage adds actions to the trace, of
    that stage or of none, and one of that stage at least; so the stages
    of a trace come in their order, a run that returns has run all five,
    and a run that fails has run the stages up to the one that failed and
    no other.  When the verifier rejects events or receipts, with the
    message that names the table, the machine has failed at its second
    transition and the trace has actions of Load and Verify only: nothing
    was seeded, no write was attempted, nothing was scanned.  The
    statements executed are the first ones of the fixed list [pipeline],
    all of them when the run returns. *)
Theorem guardian_pipeline_order (w : World) :
  let o := fst (Guardian.run_main w) in
  let t := snd (Guardian.run_main w) in
  (fst (at_step w 5) = final o /\ st_trace (snd (at_step w 5)) = t)
  /\ (forall n f, fst (at_step w n) = Failed f ->
      final o = Failed f /\ st_trace (snd (at_step w n)) = t)
  /\ (forall ph st s, stage_at ph = Some s ->
      follows ph (fst (next w (ph, st)))
      /\ exists d, st_trace (snd (next w (ph, st))) = (st_trace st ++ d)%list
                   /\ In (rank s) (stages d)
                   /\ bounded (rank s) (rank s) d)
  /\ (forall ph st, stage_at ph = None -> next w (ph, st) = (ph, st))
  /\ Sorted le (stages t)
  /\ (o = Return tt -> forall s, In (rank s) (stages t))
  /\ (o <> Return tt ->
      exit_code o <> 0%Z
      /\ exists s ph st,
           at_step w (rank s) = (ph, st)
           /\ stage_at ph = Some s
           /\ fst (next w (ph, st)) = final o
           /\ st_trace (snd (next w (ph, st))) = t
           /\ (forall s', In (rank s') (stages t) <-> rank s' <= rank s)
           /\ (forall arg, o = Exit arg -> failing_stage arg = Some s))
  /\ (forall table, In table ["events"; "receipts"] ->
      o = Exit (Message ("[FAIL] " ++ table ++ " is not DB-immutable. Missing triggers blocking UPDATE/DELETE with RAISE/ABORT.")) ->
      fst (at_step w 2) = final o
      /\ (forall s', In (rank s') (stages t) <-> s' = StLoad \/ s' = StVerify)
      /\ forall a s', In a t -> stage_of a = Some s' ->
                      s' = StLoad \/ s' = StVerify)
  /\ (exists rest, pipeline w = (executed t ++ rest)%list)
  /\ (o = Return tt -> executed t = pipeline w).
Proof.
  intros o t.
  pose proof (machine_is_main w) as M5.
  pose proof (run_main_eq w) as R.
  assert (Ho : o = fst (Guardian.main w (start w))) by (subst o; now rewrite R).
  assert (Ht : t = st_trace (snd (Guardian.main w (start w))))
    by (subst t; now rewrite R).
  assert (H15 : fst (at_step w 5) = final o /\ st_trace (snd (at_step w 5)) = t).
  { rewrite M5, Ho, Ht. split; reflexivity. }
  assert (Hfail : o <> Return tt ->
            exists s ph st,
              at_step w (rank s) = (ph, st)
              /\ stage_at ph = Some s
              /\ next w (ph, st) = at_step w 5
              /\ (forall s', In (rank s') (stages t) <-> rank s' <= rank s)
              /\ (forall arg, o = Exit arg -> failing_stage arg = Some s))
    by exact (failed_at_stage w).
  pose proof (guardian_statements w) as (S & X & XR).
  split; [exact H15|].
  split.
  { intros n f Hf.
    assert (E : at_step w n = at_step w 5).
    { destruct (Nat.le_ge_cases n 5) as [Hn|Hn].
      - replace 5 with (n + (5 - n)) by lia. symmetry. apply at_step_stable.
        now rewrite Hf.
      - replace n with (5 + (n - 5)) by lia. apply at_step_stable.
        rewrite (proj1 H15). apply final_terminal. }
    rewrite E in Hf |- *. rewrite <- (proj1 H15). split; [exact Hf|apply H15]. }
  split.
  { intros ph st s Hs.
    destruct (next_stage w ph st s Hs) as (d & Et & Hin & B & Fo & _).
    split; [exact Fo|]. exists d. auto. }
  split; [exact (next_terminal w)|].
  split; [apply StronglySorted_Sorted; exact S|].
  split.
  { intros Hr s. pose proof (path_stages w 5) as P5.
    rewrite (proj1 H15), final_terminal, (proj2 H15), Hr in P5.
    destruct P5 as [[_ H]|(f & _ & _ & _ & Hf & _)]; [apply H|discriminate Hf]. }
  split.
  { intros Hn. destruct (Hfail Hn) as (s & ph & st & H1 & H2 & H3 & H4 & H5).
    split.
    - destruct o as [[]|[msg|k]|e] eqn:Eo; cbn; try discriminate.
      + now elim Hn.
      + specialize (H5 _ eq_refl). discriminate H5.
    - exists s, ph, st. rewrite H3. repeat (split; [assumption|]).
      split; [apply H15|]. split; [apply H15|]. split; assumption. }
  split.
  { intros table Htab Hexit.
    assert (Hn : o <> Return tt) by (rewrite Hexit; discriminate).
    destruct (Hfail Hn) as (s & ph & st & H1 & H2 & H3 & H4 & H5).
    specialize (H5 _ Hexit).
    assert (s = StVerify).
    { simpl in Htab. destruct Htab as [<-|[<-|[]]]; vm_compute in H5; congruence. }
    subst s. cbn [rank] in H1, H4.
    assert (Hiff : forall s', In (rank s') (stages t) <-> s' = StLoad \/ s' = StVerify).
    { intros s'. rewrite H4. destruct s'; simpl; split; intros H;
        try lia; auto; destruct H; discriminate. }
    split; [|split; [exact Hiff|]].
    - rewrite at_step_S, H1, H3. apply H15.
    - intros a s' Hin Hs. apply Hiff. exact (in_stages a s' t Hin Hs). }
  split; [exact X|exact XR].
Qed.

(** A schema without the delete trigger of receipts: the run stops in
    the verifier, with the message that names receipts, at the second
    transition of the machine. *)
Lemma guardian_pipeline_order_witness :
  fst (Guardian.run_main Examples.unguarded)
    = Exit (Message "[FAIL] receipts is not DB-immutable. Missing triggers blocking UPDATE/DELETE with RAISE/ABORT.")
  /\ fst (at_step Examples.unguarded 2)
     = Failed (Exited (Message "[FAIL] receipts is not DB-immutable. Missing triggers blocking UPDATE/DELETE with RAISE/ABORT."))
  /\ stages (snd (Guardian.run_main Examples.unguarded))
     = [0; 0; 0; 0; 0; 0; 0; 0; 0; 0; 0; 0; 0; 1; 1]
  /\ (forall s', In (rank s') (stages (snd (Guardian.run_main Examples.unguarded)))
                 <-> s' = StLoad \/ s' = StVerify)
  /\ forall a s', In a (snd (Guardian.run_main Examples.unguarded)) ->
                  stage_of a = Some s' -> s' = StLoad \/ s' = StVerify.
Proof.
  assert (E : fst (Guardian.run_main Examples.unguarded)
              = Exit (Message "[FAIL] receipts is not DB-immutable. Missing triggers blocking UPDATE/DELETE with RAISE/ABORT."))
    by (vm_compute; reflexivity).
  destruct (proj1 (proj2 (proj2 (proj2 (proj2 (proj2 (proj2 (proj2
              (guardian_pipeline_order Examples.unguarded))))))))
              "receipts" (or_intror (or_introl eq_refl)) E) as (H2 & Hiff & Hall).
  split; [exact E|]. split; [rewrite H2, E; reflexivity|].
  split; [vm_compute; reflexivity|]. split; [exact Hiff|exact Hall].
Defined.

(** ** The attempts of the Prover on the seeded rows *)

Lemma shaped_seed_rows (w : World) :
  triple
    ('(user_id, agent_id, now) <- Guardian.seed_actor w ;;
     event_id <- Guardian.insert_event w user_id agent_id now ;;
     receipt_id <- Guardian.insert_receipt w user_id agent_id event_id now ;;
     ret (event_id, receipt_id))
    (shaped (firstn 4 (skipn 3 (pipeline w))) 2 2 []
       (eq (event_id w, receipt_id w))).
Proof.
  eapply shaped_cast; cycle 2.
  - eapply (shaped_bind _ _ _ _ 2 2 2 2 _ _ _); try lia.
    { apply shaped_seed_actor. }
    intros x <-. cbv beta iota.
    eapply (shaped_bind _ _ _ _ 2 2 2 2 _ _ _); try lia.
    { apply shaped_insert_event. }
    intros x <-.
    eapply (shaped_bind _ _ _ _ 2 2 2 2 _ _ _); try lia.
    { apply shaped_insert_receipt. }
    intros x <-. apply shaped_ret.
  - reflexivity.
  - reflexivity.
Qed.

Lemma seed_stage_returns (w : World) (st st' : state w) (ids : string * string) :
  seed_stage w st = (Return ids, st') ->
  ids = (event_id w, receipt_id w)
  /\ executed (st_trace st') =
     (executed (st_trace st) ++ firstn 4 (skipn 3 (pipeline w)))%list.
Proof.
  unfold seed_stage, in_connection.
  destruct (shaped_seed_rows w st) as (o & c' & d & E & _ & _ & P).
  rewrite E. destruct o as [x|arg|e]; [|discriminate|discriminate].
  intros H. injection H as <- <-. destruct P as (R & X & _).
  split; [now symmetry|]. cbn [st_trace]. now rewrite executed_app, X.
Qed.

(** The machine comes to the Prover from the Seeder, with the identifiers
    of the rows the Seeder inserted last. *)
Lemma prover_entered (w : World) (event receipt : string) :
  fst (at_step w 3) = AtProve event receipt ->
  event = event_id w /\ receipt = receipt_id w
  /\ exists before,
       executed (st_trace (snd (at_step w 3))) =
       (before ++ firstn 4 (skipn 3 (pipeline w)))%list.
Proof.
  rewrite at_step_S. pose proof (path_stages w 2) as P2.
  destruct (at_step w 2) as [ph st2]. cbn [fst snd] in P2.
  destruct ph as [| | |e r| | |f]; cbn [stage_at] in P2;
    try (destruct P2 as (P2 & _); discriminate P2);
    try (unfold next; cbn [fst snd]; discriminate).
  unfold next. cbn [fst snd]. unfold transition.
  destruct (seed_stage w st2) as [[ids|arg|e] st3] eqn:E; cbn [fst snd];
    try discriminate.
  intros H. injection H as <- <-.
  destruct (seed_stage_returns w st2 st3 ids E) as (-> & X).
  split; [reflexivity|]. split; [reflexivity|].
  exists (executed (st_trace st2)). exact X.
Qed.

(** The Prover against the attempts of the specification. *)
Lemma prove_stage_attempts (w : World) (event receipt : string) (st : state w) :
  let res := attempt_all (db w) (st_conn st) (attempts event receipt) in
  st_trace (snd (prove_stage w event receipt st)) =
    (st_trace st ++ fst res
     ++ [match snd res with None => Commit | Some _ => Rollback end])%list
  /\ fst (prove_stage w event receipt st) =
     match snd res with
     | None => Return tt
     | Some (Exited arg) => Exit arg
     | Some (Stopped e) => Raise e
     end.
Proof.
  cbv zeta. unfold prove_stage, in_connection, Guardian.prove_immutable_by_writes.
  change (Guardian.update_self "events" "event_id" "type")
    with "UPDATE events SET type = type WHERE event_id = ?".
  change (Guardian.delete_by_key "events" "event_id")
    with "DELETE FROM events WHERE event_id = ?".
  change (Guardian.update_self "receipts" "receipt_id" "what_happened")
    with "UPDATE receipts SET what_happened = what_happened WHERE receipt_id = ?".
  change (Guardian.delete_by_key "receipts" "receipt_id")
    with "DELETE FROM receipts WHERE receipt_id = ?".
  unfold attempts. cbn [attempt_all].
  rewrite !bind_eq, assert_blocked_eq.
  destruct (execute (db w) (st_conn st) _ [VText event]) as [c1 [rows|[m|m]]];
    cbn [fst snd st_conn st_trace];
    try (unfold bind, emit, system_exit, raise; cbn [fst snd st_conn st_trace];
         rewrite <- ?app_assoc; split; reflexivity).
  rewrite assert_blocked_eq. cbn [st_conn st_trace].
  destruct (execute (db w) c1 _ [VText event]) as [c2 [rows|[m2|m2]]];
    cbn [fst snd st_conn st_trace];
    try (unfold bind, emit, system_exit, raise; cbn [fst snd st_conn st_trace];
         rewrite <- ?app_assoc; split; reflexivity).
  rewrite bind_eq, assert_blocked_eq. cbn [st_conn st_trace].
  destruct (execute (db w) c2 _ [VText receipt]) as [c3 [rows|[m3|m3]]];
    cbn [fst snd st_conn st_trace];
    try (unfold bind, emit, system_exit, raise; cbn [fst snd st_conn st_trace];
         rewrite <- ?app_assoc; split; reflexivity).
  rewrite assert_blocked_eq. cbn [st_conn st_trace].
  destruct (execute (db w) c3 _ [VText receipt]) as [c4 [rows|[m4|m4]]];
    cbn [fst snd st_conn st_trace];
    unfold bind, emit, system_exit, raise; cbn [fst snd st_conn st_trace];
    rewrite <- ?app_assoc; split; reflexivity.
Qed.

Lemma attempt_all_failure (d : Sqlite) (l : list attempt) :
  forall (c : conn d) (arg : exit_arg),
    snd (attempt_all d c l) = Some (Exited arg) ->
    exists sql params label,
      In (sql, params, label) l
      /\ arg = Message ("[FAIL] " ++ label ++ " was allowed; table is not append-only.").
Proof.
  induction l as [|[[sql params] label] l IH]; intros c arg; cbn [attempt_all].
  - discriminate.
  - destruct (execute d c sql params) as [c' [rows|[m|m]]].
    + cbn [snd]. intros H. injection H as <-. exists sql, params, label.
      split; [now left|reflexivity].
    + specialize (IH c' arg). destruct (attempt_all d c' l) as [acts f].
      cbn [snd] in IH |- *. intros H.
      destruct (IH H) as (sql' & params' & label' & Hin & ->).
      exists sql', params', label'. split; [now right|reflexivity].
    + cbn [snd]. discriminate.
Qed.

(** C5.  An attempt executes its statement, and passes exactly when the
    statement raises a database-level error; when the statement runs
    without error the attempt exits with the message that names the
    operation and the table.  On a table the Prover executes the update
    of the column to itself at the given key and, once that one is
    rejected, the delete at that key, and every pass is reported on a
    line.  In a run the Prover is entered with the identifiers of the
    event and of the receipt that the Seeder inserted last, and from
    there the run does what the four attempts of the specification say:
    update and delete on events at the seeded event, then update and
    delete on receipts at the seeded receipt; when all four are rejected
    the connection commits and the run goes on to the scanner, and when
    one of them runs without error the connection rolls back and the run
    ends there, with the message that names that operation and that table
    and with exit status 1. *)
Theorem prove_immutable_by_writes_verdict (w : World) (st : state w)
  (table pk_col pk_value update_col : string) :
  let update := "UPDATE " ++ table ++ " SET " ++ update_col ++ " = " ++ update_col
                ++ " WHERE " ++ pk_col ++ " = ?" in
  let delete := "DELETE FROM " ++ table ++ " WHERE " ++ pk_col ++ " = ?" in
  let upd := execute (db w) (st_conn st) update [VText pk_value] in
  let del := execute (db w) (fst upd) delete [VText pk_value] in
  let r := Guardian.prove_immutable_by_writes w table pk_col pk_value update_col st in
  let added d := st_trace (snd r) = (st_trace st ++ d)%list in
  (forall sql params label,
     let a := Guardian.assert_blocked w sql params label st in
     let res := snd (execute (db w) (st_conn st) sql params) in
     (fst a = Return tt <-> rejected res)
     /\ (ran res ->
         fst a = Exit (Message ("[FAIL] " ++ label
                                ++ " was allowed; table is not append-only.")))
     /\ (exists d, st_trace (snd a) = (st_trace st ++ Execute sql params :: d)%list
                   /\ executed d = []))
  /\ (fst r = Return tt <-> rejected (snd upd) /\ rejected (snd del))
  /\ (rejected (snd upd) -> rejected (snd del) ->
      added [ Execute update [VText pk_value];
              PrintLine ("[OK] UPDATE on " ++ table ++ " blocked as expected.");
              Execute delete [VText pk_value];
              PrintLine ("[OK] DELETE on " ++ table ++ " blocked as expected.") ])
  /\ (ran (snd upd) ->
      fst r = Exit (Message ("[FAIL] UPDATE on " ++ table
                             ++ " was allowed; table is not append-only."))
      /\ added [Execute update [VText pk_value]])
  /\ (rejected (snd upd) -> ran (snd del) ->
      fst r = Exit (Message ("[FAIL] DELETE on " ++ table
                             ++ " was allowed; table is not append-only."))
      /\ added [ Execute update [VText pk_value];
                 PrintLine ("[OK] UPDATE on " ++ table ++ " blocked as expected.");
                 Execute delete [VText pk_value] ])
  /\ (forall event receipt,
        fst (at_step w 3) = AtProve event receipt ->
        let st3 := snd (at_step w 3) in
        let res := attempt_all (db w) (st_conn st3) (attempts event receipt) in
        event = "evt_guardian_" ++ str_of_Z (now w)
        /\ receipt = "rcpt_guardian_" ++ str_of_Z (now w)
        /\ (exists before params_e params_r,
              executed (st_trace st3) =
              (before ++ [ (Guardian.insert_event_sql, VText event :: params_e);
                           (Guardian.insert_receipt_sql, VText receipt :: params_r) ])%list)
        /\ st_trace (snd (at_step w 4)) =
           (st_trace st3 ++ fst res
            ++ [match snd res with None => Commit | Some _ => Rollback end])%list
        /\ fst (at_step w 4) =
           match snd res with None => AtScan | Some f => Failed f end
        /\ (forall f, snd res = Some f ->
            final (fst (Guardian.run_main w)) = Failed f
            /\ snd (Guardian.run_main w) = st_trace (snd (at_step w 4))
            /\ exit_code (fst (Guardian.run_main w)) = 1%Z)
        /\ (forall arg, snd res = Some (Exited arg) ->
            exists sql params label,
              In (sql, params, label) (attempts event receipt)
              /\ arg = Message ("[FAIL] " ++ label
                                ++ " was allowed; table is not append-only."))).
Proof.
  intros update delete upd del r added.
  split.
  { intros sql params label a res. subst a res. rewrite assert_blocked_eq.
    unfold rejected, ran.
    destruct (execute (db w) (st_conn st) sql params) as [c' [rows|[msg|msg]]];
      cbn [fst snd st_trace].
    - split; [split; [discriminate|intros [m H]; discriminate]|].
      split; [reflexivity|]. exists []. split; reflexivity.
    - split; [split; eauto|].
      split; [intros [rows H]; discriminate|].
      exists [PrintLine (Guardian.blocked label)]. split; reflexivity.
    - split; [split; [discriminate|intros [m H]; discriminate]|].
      split; [intros [rows H]; discriminate|]. exists []. split; reflexivity. }
  assert (Hr : r = match snd upd with
                   | Raised (DatabaseError _) =>
                       match snd del with
                       | Raised (DatabaseError _) =>
                           (Return tt,
                            MkState (fst del)
                              (st_trace st ++
                               [ Execute update [VText pk_value];
                                 PrintLine ("[OK] UPDATE on " ++ table ++ " blocked as expected.");
                                 Execute delete [VText pk_value];
                                 PrintLine ("[OK] DELETE on " ++ table ++ " blocked as expected.") ]))
                       | Raised e =>
                           (Raise e,
                            MkState (fst del)
                              (st_trace st ++
                               [ Execute update [VText pk_value];
                                 PrintLine ("[OK] UPDATE on " ++ table ++ " blocked as expected.");
                                 Execute delete [VText pk_value] ]))
                       | Ok _ =>
                           (Exit (Message ("[FAIL] DELETE on " ++ table
                                           ++ " was allowed; table is not append-only.")),
                            MkState (fst del)
                              (st_trace st ++
                               [ Execute update [VText pk_value];
                                 PrintLine ("[OK] UPDATE on " ++ table ++ " blocked as expected.");
                                 Execute delete [VText pk_value] ]))
                       end
                   | Raised e =>
                       (Raise e, MkState (fst upd)
                                   (st_trace st ++ [Execute update [VText pk_value]]))
                   | Ok _ =>
                       (Exit (Message ("[FAIL] UPDATE on " ++ table
                                       ++ " was allowed; table is not append-only.")),
                        MkState (fst upd)
                          (st_trace st ++ [Execute update [VText pk_value]]))
                   end).
  { subst r. unfold Guardian.prove_immutable_by_writes.
    rewrite bind_eq, assert_blocked_eq. subst del upd.
    change (Guardian.update_self table pk_col update_col) with update.
    change (Guardian.delete_by_key table pk_col) with delete.
    destruct (execute (db w) (st_conn st) update [VText pk_value])
      as [c1 [rows|[msg|msg]]]; cbn [fst snd]; try reflexivity.
    rewrite assert_blocked_eq. cbn [st_conn st_trace].
    destruct (execute (db w) c1 delete [VText pk_value])
      as [c2 [rows|[msg2|msg2]]]; cbn [fst snd]; rewrite <- app_assoc; reflexivity. }
  subst added. cbv beta. rewrite Hr. unfold rejected, ran.
  split; [|split; [|split; [|split]]].
  - destruct (snd upd) as [rows|[msg|msg]]; cbn [fst].
    + split; [discriminate|]. intros [[m H] _]. discriminate.
    + destruct (snd del) as [rows|[msg2|msg2]]; cbn [fst].
      * split; [discriminate|]. intros [_ [m H]]. discriminate.
      * split; eauto.
      * split; [discriminate|]. intros [_ [m H]]. discriminate.
    + split; [discriminate|]. intros [[m H] _]. discriminate.
  - intros [m ->] [m2 ->]. reflexivity.
  - intros [rows ->]. split; reflexivity.
  - intros [m ->] [rows ->]. split; reflexivity.
  - intros event receipt H3.
    set (st3 := snd (at_step w 3)).
    set (res := attempt_all (db w) (st_conn st3) (attempts event receipt)).
    destruct (prover_entered w event receipt H3) as (He & Hrc & before & X).
    destruct (prove_stage_attempts w event receipt st3) as (T4 & O4).
    fold res in T4, O4.
    assert (E4 : at_step w 4 =
                 transition (prove_stage w event receipt) (fun _ => AtScan) st3).
    { rewrite at_step_S. subst st3. destruct (at_step w 3) as [ph s3].
      cbn [fst snd] in H3 |- *. subst ph. reflexivity. }
    assert (T : st_trace (snd (at_step w 4)) =
                (st_trace st3 ++ fst res
                 ++ [match snd res with None => Commit | Some _ => Rollback end])%list).
    { rewrite E4, <- T4. unfold transition.
      now destruct (prove_stage w event receipt st3) as [[[]|arg|e] s4]. }
    assert (P : fst (at_step w 4) =
                match snd res with None => AtScan | Some f => Failed f end).
    { rewrite E4. unfold transition.
      destruct (prove_stage w event receipt st3) as [[[]|arg|e] s4];
        cbn [fst] in O4 |- *; destruct (snd res) as [[arg'|e']|];
        try discriminate O4; try reflexivity; now injection O4 as <-. }
    split; [exact He|]. split; [exact Hrc|]. split.
    { exists (before ++ firstn 2 (skipn 3 (pipeline w)))%list.
      eexists. eexists. fold st3 in X. rewrite X, <- app_assoc, He, Hrc. reflexivity. }
    split; [exact T|]. split; [exact P|]. split.
    + intros f Hf. rewrite Hf in P.
      assert (E5 : at_step w 5 = at_step w 4).
      { apply (at_step_stable w 4 1). now rewrite P. }
      rewrite machine_is_main in E5. rewrite run_main_eq. cbn [fst snd].
      rewrite <- E5 in P |- *. cbn [fst snd] in P |- *.
      split; [exact P|]. split; [reflexivity|].
      destruct (fst (Guardian.main w (start w))) as [[]|arg|e];
        cbn [final] in P; [discriminate P| |reflexivity].
      injection P as <-.
      destruct (attempt_all_failure _ _ _ _ Hf) as (? & ? & ? & _ & ->).
      reflexivity.
    + intros arg Hf. exact (attempt_all_failure _ _ _ _ Hf).
Qed.

(** An engine that lets the delete on receipts through: the Prover is
    entered with the seeded identifiers, the first three attempts are
    rejected, and the run ends on the fourth, with the message that names
    the delete on receipts. *)
Lemma prove_immutable_by_writes_verdict_witness :
  let w := Examples.writable in
  let failure :=
    Message "[FAIL] DELETE on receipts was allowed; table is not append-only." in
  fst (at_step w 3) = AtProve "evt_guardian_1700000000" "rcpt_guardian_1700000000"
  /\ fst (at_step w 4) = Failed (Exited failure)
  /\ fst (Guardian.run_main w) = Exit failure
  /\ skipn 7 (executed (snd (Guardian.run_main w))) =
     [ ("UPDATE events SET type = type WHERE event_id = ?",
        [VText "evt_guardian_1700000000"]);
       ("DELETE FROM events WHERE event_id = ?",
        [VText "evt_guardian_1700000000"]);
       ("UPDATE receipts SET what_happened = what_happened WHERE receipt_id = ?",
        [VText "rcpt_guardian_1700000000"]);
       ("DELETE FROM receipts WHERE receipt_id = ?",
        [VText "rcpt_guardian_1700000000"]) ]
  /\ fst (Guardian.prove_immutable_by_writes w "receipts" "receipt_id"
            "rcpt_guardian_1700000000" "what_happened" (start w))
     = Exit failure.
Proof.
  cbv zeta.
  pose proof (prove_immutable_by_writes_verdict Examples.writable
                (start Examples.writable) "receipts" "receipt_id"
                "rcpt_guardian_1700000000" "what_happened")
    as (_ & _ & _ & _ & HD & HR).
  assert (H3 : fst (at_step Examples.writable 3)
               = AtProve "evt_guardian_1700000000" "rcpt_guardian_1700000000")
    by (vm_compute; reflexivity).
  destruct (HR _ _ H3) as (_ & _ & _ & T & P & F & _).
  assert (Hres : snd (attempt_all (db Examples.writable)
                        (st_conn (snd (at_step Examples.writable 3)))
                        (attempts "evt_guardian_1700000000"
                           "rcpt_guardian_1700000000"))
                 = Some (Exited (Message "[FAIL] DELETE on receipts was allowed; table is not append-only.")))
    by (vm_compute; reflexivity).
  rewrite Hres in P. destruct (F _ Hres) as (Ff & Ft & _).
  split; [exact H3|]. split; [exact P|]. split.
  { destruct (fst (Guardian.run_main Examples.writable)) as [[]|arg|e];
      cbn [final] in Ff; [discriminate Ff| |discriminate Ff].
    now injection Ff as ->. }
  split; [vm_compute; reflexivity|].
  apply HD; eexists; reflexivity.
Defined.
